(** * Sequence groups and the engine loop of the continuous-batching samples

    A shallow embedding of

    - [continuous_batching/library/src/sequence_group.hpp] with
      [library/include/generation_handle.hpp]   (module [Library]),
    - [continuous_batching/sequence_group.hpp] with
      [continuous_batching/llm_engine.hpp]       (module [ContinuousBatching]),
    - [llm_engine/lib/include/sequence_group.hpp] (module [LlmEngineLib]),

    followed by the vocabulary of the properties, the properties, and the
    properties at sample inputs.

    Conventions.  [size_t] and [uint64_t] are 64-bit: a value is a [Z] in
    [0, 2^64) and every arithmetic result is reduced by [wrap64].  [int64_t]
    token ids are [Z].  [float] is IEEE binary32, through [SpecFloat] with
    24 bits of precision.  A [std::shared_ptr<Sequence>] is an address into a
    store of [Sequence] objects, so that two pointers may alias.  A method is
    a computation in a state-and-exception monad whose state is the object it
    is called on (or the object together with the store); a failed
    [OPENVINO_ASSERT], and an access the language leaves undefined, is the
    exceptional outcome [None]. *)

From Stdlib Require Import ZArith List Lia Bool Permutation Sorted.
From Corelib Require Import SpecFloat.
From stdpp Require Import base option list gmap.

Local Open Scope Z_scope.

(** ** Machine integers *)

Definition wrap64 (z : Z) : Z := z mod 2 ^ 64.

Definition size_of {A} (v : list A) : Z := Z.of_nat (length v).

(** ** binary32 *)

Definition float : Type := spec_float.

Definition float_prec : Z := 24.
Definition float_emax : Z := 128.

Definition fzero : float := S754_zero false.
Definition fadd (x y : float) : float := SFadd float_prec float_emax x y.
Definition fdiv (x y : float) : float := SFdiv float_prec float_emax x y.
(** [x > y] and [x >= y] of the language: false as soon as one side is NaN. *)
Definition fgt (x y : float) : bool := SFltb y x.
Definition fge (x y : float) : bool := SFleb y x.
Definition is_nan (x : float) : bool :=
  match x with S754_nan => true | _ => false end.
(** Conversion of an integer to [float], rounding to nearest even. *)
Definition float_of_Z (n : Z) : float := binary_normalize float_prec float_emax n 0 false.

(** ** What the headers use of the C++ standard library *)

(** [std::pow] on [float] is a libm function; its values are not fixed here. *)
Class StdPow := std_pow : float -> float -> float.

(** A comparator is a strict weak ordering on the elements of [l]. *)
Record strict_weak_order_on {A} (comp : A -> A -> bool) (l : list A) : Prop := {
  swo_irrefl : forall x, In x l -> comp x x = false;
  swo_trans : forall x y z, In x l -> In y l -> In z l ->
      comp x y = true -> comp y z = true -> comp x z = true;
  swo_incomp_trans : forall x y z, In x l -> In y l -> In z l ->
      comp x y = false -> comp y x = false ->
      comp y z = false -> comp z y = false ->
      comp x z = false /\ comp z x = false
}.

(** [std::sort]: the algorithm is the implementation's choice.  What the
    standard promises, for a comparator that is a strict weak ordering on the
    range, is a rearrangement of the range in which no element compares less
    than an element before it. *)
Class StdSort := {
  std_sort : forall {A : Type}, (A -> A -> bool) -> list A -> list A;
  std_sort_Permutation : forall A (comp : A -> A -> bool) l,
      strict_weak_order_on comp l -> Permutation (std_sort comp l) l;
  std_sort_sorted : forall A (comp : A -> A -> bool) l,
      strict_weak_order_on comp l ->
      StronglySorted (fun a b => comp b a = false) (std_sort comp l)
}.

(** One sorting algorithm, used to run the definitions on examples. *)
Fixpoint insert_sorted {A} (comp : A -> A -> bool) (x : A) (l : list A) : list A :=
  match l with
  | [] => [x]
  | y :: l' => if comp x y then x :: y :: l' else y :: insert_sorted comp x l'
  end.

Definition insertion_sort {A} (comp : A -> A -> bool) (l : list A) : list A :=
  foldr (insert_sorted comp) [] l.

(** ** State-and-exception monad *)

Definition M (S A : Type) : Type := S -> option (A * S).

Definition ret {S A} (a : A) : M S A := fun s => Some (a, s).

Definition bind {S A B} (c : M S A) (k : A -> M S B) : M S B :=
  fun s => match c s with
           | Some (a, s') => k a s'
           | None => None
           end.

Definition throw {S A} : M S A := fun _ => None.

Definition gets {S A} (f : S -> A) : M S A := fun s => Some (f s, s).

Definition modify {S} (f : S -> S) : M S unit := fun s => Some (tt, f s).

Definition OPENVINO_ASSERT {S} (cond : bool) : M S unit :=
  if cond then ret tt else throw.

Notation "x <- c ;; k" := (bind c (fun x => k))
  (at level 100, c at next level, right associativity).
Notation "c ;;; k" := (bind c (fun _ => k))
  (at level 100, right associativity).

(** A range-based [for] over a vector. *)
Fixpoint for_each {S A} (v : list A) (body : A -> M S unit) : M S unit :=
  match v with
  | [] => ret tt
  | x :: v' => body x ;;; for_each v' body
  end.

(** Runs a computation on a component of the state. *)
Definition zoom {S T A} (get : S -> T) (set : T -> S -> S) (c : M T A) : M S A :=
  fun s => match c (get s) with
           | Some (a, t') => Some (a, set t' s)
           | None => None
           end.

(** Runs a method on the object behind a pointer into a store. *)
Definition at_ptr {T A} (p : nat) (c : M T A) : M (list T) A :=
  fun store => match store !! p with
               | Some obj => match c obj with
                             | Some (a, obj') => Some (a, <[p := obj']> store)
                             | None => None
                             end
               | None => None
               end.

(** A loop that carries a local variable through the iterations. *)
Fixpoint fold_each {S A B} (v : list A) (acc : B) (body : B -> A -> M S B) : M S B :=
  match v with
  | [] => ret acc
  | x :: v' => acc' <- body acc x ;; fold_each v' acc' body
  end.

(** [std::unordered_map::emplace]: no effect when the key is present. *)
Definition emplace {V} (k : Z) (v : V) (m : gmap Z V) : gmap Z V :=
  match m !! k with
  | Some _ => m
  | None => <[k := v]> m
  end.

(** ** Types shared by the three headers *)

Definition TokenIds : Type := list Z.

(** An [ov::Tensor] of element type [i64] and shape [{n}]: its [n] elements. *)
Definition Tensor : Type := list Z.

(** Modelled from the spec: [generation_config.hpp] and
    [sampling_parameters.hpp] are not among the sources.  The fields are the
    ones the interface section of the specification enumerates; the headers
    read [length_penalty] only. *)
Record SamplingParameters := {
  max_new_tokens : Z;
  beam_width : Z;
  n_samples : Z;
  temperature : float;
  top_k : Z;
  top_p : float;
  length_penalty : float;
  eos_token_id : Z;
  ignore_eos : bool;
  stop_token_ids : list Z
}.

Definition GenerationConfig : Type := SamplingParameters.

(** * [continuous_batching/library/src/sequence_group.hpp] *)

Module Library.

Inductive SequenceStatus := RUNNING | FINISHED.

Definition SequenceStatus_eqb (a b : SequenceStatus) : bool :=
  match a, b with
  | RUNNING, RUNNING | FINISHED, FINISHED => true
  | _, _ => false
  end.

(** [generation_handle.hpp] *)
Record GenerationOutput := {
  parent_id : Z;
  token_id : Z;
  cumulative_log_prob : float
}.

Abbreviation GenerationOutputs := (gmap Z GenerationOutput).

Module GenerationStream.

(** Modelled from the spec: [generation_stream.hpp] is not among the
    sources.  The stream is a strict FIFO of per-iteration outputs that
    never drops an element, with a flag set by [finish]. *)
Record t := {
  m_output_queue : list GenerationOutputs;
  m_finished : bool
}.

Abbreviation Ptr := nat.

(** Modelled from the spec: a new stream holds nothing and is not finished. *)
Definition empty : t := {| m_output_queue := []; m_finished := false |}.

(** Modelled from the spec: [GenerationStream::create] allocates a new
    stream; the address is the next free one of the store. *)
Definition create : M (list t) Ptr :=
  fun store => Some (length store, store ++ [empty]).

(** Modelled from the spec: [push] appends one iteration's outputs. *)
Definition push (outputs : GenerationOutputs) : M t unit :=
  modify (fun s => {| m_output_queue := m_output_queue s ++ [outputs];
                      m_finished := m_finished s |}).

(** Modelled from the spec: [finish] marks the stream finished and keeps
    what is buffered. *)
Definition finish_generation_stream : M t unit :=
  modify (fun s => {| m_output_queue := m_output_queue s; m_finished := true |}).

End GenerationStream.

Module Sequence.

Record t := {
  m_generated_ids : TokenIds;
  m_parent_id : Z;
  m_id : Z;
  m_status : SequenceStatus;
  m_cumulative_log_prob : float;
  m_generation_stream : GenerationStream.Ptr
}.

Abbreviation Ptr := nat.

(** The state of the class: the function-local static [m_counter] and the
    objects that [std::make_shared] has allocated, by address. *)
Record Store := {
  m_counter : Z;
  heap : list t
}.

Definition initial : Store := {| m_counter := 1; heap := [] |}.

Definition set_heap (h : list t) (st : Store) : Store :=
  {| m_counter := m_counter st; heap := h |}.

Definition _get_next_sequence_id : M Store Z :=
  fun st => Some (m_counter st,
                  {| m_counter := wrap64 (m_counter st + 1); heap := heap st |}).

Definition make_shared (obj : t) : M Store Ptr :=
  fun st => Some (length (heap st), set_heap (heap st ++ [obj]) st).

(** [p->method(...)] *)
Definition call {A} (p : Ptr) (method : M t A) : M Store A :=
  zoom heap set_heap (at_ptr p method).

(** [Sequence(GenerationStream::Ptr)] *)
Definition new (generation_stream : GenerationStream.Ptr) : M Store t :=
  id <- _get_next_sequence_id ;;
  ret {| m_generated_ids := [];
         m_parent_id := 0;
         m_id := id;
         m_status := RUNNING;
         m_cumulative_log_prob := fzero;
         m_generation_stream := generation_stream |}.

(** [Sequence(const Sequence&, GenerationStream::Ptr)] *)
Definition new_from (seq : t) (generation_stream : GenerationStream.Ptr) : M Store t :=
  id <- _get_next_sequence_id ;;
  OPENVINO_ASSERT (negb (m_id seq =? id)) ;;;
  ret {| m_generated_ids := m_generated_ids seq;
         m_parent_id := m_id seq;
         m_id := id;
         m_status := m_status seq;
         m_cumulative_log_prob := m_cumulative_log_prob seq;
         m_generation_stream := generation_stream |}.

Definition create (generation_stream : GenerationStream.Ptr) : M Store Ptr :=
  obj <- new generation_stream ;; make_shared obj.

Definition fork (sequence : Ptr) (generation_stream : GenerationStream.Ptr) : M Store Ptr :=
  seq <- call sequence (gets (fun s => s)) ;;
  obj <- new_from seq generation_stream ;;
  make_shared obj.

Definition get_id (s : t) : Z := m_id s.

Definition has_finished (s : t) : bool := SequenceStatus_eqb (m_status s) FINISHED.

Definition is_running (s : t) : bool := SequenceStatus_eqb (m_status s) RUNNING.

Definition set_status (status : SequenceStatus) : M t unit :=
  modify (fun s => {| m_generated_ids := m_generated_ids s;
                      m_parent_id := m_parent_id s;
                      m_id := m_id s;
                      m_status := status;
                      m_cumulative_log_prob := m_cumulative_log_prob s;
                      m_generation_stream := m_generation_stream s |}).

Definition append_token (token_id : Z) (log_prob : float) : M t unit :=
  modify (fun s => {| m_generated_ids := m_generated_ids s ++ [token_id];
                      m_parent_id := m_parent_id s;
                      m_id := m_id s;
                      m_status := m_status s;
                      m_cumulative_log_prob := fadd (m_cumulative_log_prob s) log_prob;
                      m_generation_stream := m_generation_stream s |}).

(** Reading [m_generated_ids[size - 1]] of an empty vector is undefined. *)
Definition get_last_generation_output : M t GenerationOutput :=
  fun s => match last (m_generated_ids s) with
           | Some tok => Some ({| parent_id := m_parent_id s;
                                  token_id := tok;
                                  cumulative_log_prob := m_cumulative_log_prob s |}, s)
           | None => None
           end.

Definition get_generated_len (s : t) : Z := size_of (m_generated_ids s).

Definition get_generated_ids (s : t) : TokenIds := m_generated_ids s.

Definition get_cumulative_log_probs (s : t) : float := m_cumulative_log_prob s.

Definition remove_tokens (count : Z) : M t unit :=
  len <- gets get_generated_len ;;
  OPENVINO_ASSERT (count <=? len) ;;;
  modify (fun s => {| m_generated_ids :=
                        take (Z.to_nat (len - count)) (m_generated_ids s);
                      m_parent_id := m_parent_id s;
                      m_id := m_id s;
                      m_status := m_status s;
                      m_cumulative_log_prob := m_cumulative_log_prob s;
                      m_generation_stream := m_generation_stream s |}).

Definition get_beam_search_score `{StdPow} (sampling_params : GenerationConfig) (s : t) : float :=
  let cumulative_log_prob := get_cumulative_log_probs s in
  let current_length := float_of_Z (get_generated_len s) in
  let score := fdiv cumulative_log_prob
                    (std_pow current_length (length_penalty sampling_params)) in
  score.

End Sequence.

(** Everything a sequence group can reach through its pointers. *)
Record World := {
  sequences : Sequence.Store;
  streams : list GenerationStream.t
}.

Definition set_sequences (s : Sequence.Store) (w : World) : World :=
  {| sequences := s; streams := streams w |}.

Definition set_streams (s : list GenerationStream.t) (w : World) : World :=
  {| sequences := sequences w; streams := s |}.

Definition initial_world : World :=
  {| sequences := Sequence.initial; streams := [] |}.

(** Two members are left out: [remove_sequence], whose [std::remove_if]
    leaves moved-from (null) pointers behind, and [reset], which calls
    [Sequence::create] without the stream this header's [create] requires. *)
Module SequenceGroup.

Record t := {
  m_request_id : Z;
  m_sequences : list Sequence.Ptr;
  m_sampling_params : GenerationConfig;
  m_block_size : Z;
  m_prompt_ids : TokenIds;
  m_generation_stream : GenerationStream.Ptr;
  m_num_processed_tokens : Z;
  m_num_scheduled_tokens : Z;
  m_max_content_len : Z
}.

(** A method runs on the group it is called on and on the world behind
    the group's pointers. *)
Record Env := {
  self : t;
  world : World
}.

Definition set_self (g : t) (e : Env) : Env := {| self := g; world := world e |}.
Definition set_world (w : World) (e : Env) : Env := {| self := self e; world := w |}.

Definition this {A} (f : t -> A) : M Env A := gets (fun e => f (self e)).
Definition update (f : t -> t) : M Env unit := modify (fun e => set_self (f (self e)) e).

(** [seq->method(...)] inside a method of the group *)
Definition seq_call {A} (seq : Sequence.Ptr) (method : M Sequence.t A) : M Env A :=
  zoom world set_world (zoom sequences set_sequences (Sequence.call seq method)).

Definition in_sequences {A} (c : M Sequence.Store A) : M Env A :=
  zoom world set_world (zoom sequences set_sequences c).

Definition stream_call {A} (s : GenerationStream.Ptr) (method : M GenerationStream.t A) : M Env A :=
  zoom world set_world (zoom streams set_streams (at_ptr s method)).

Definition set_sequences_vec (v : list Sequence.Ptr) (g : t) : t :=
  {| m_request_id := m_request_id g;
     m_sequences := v;
     m_sampling_params := m_sampling_params g;
     m_block_size := m_block_size g;
     m_prompt_ids := m_prompt_ids g;
     m_generation_stream := m_generation_stream g;
     m_num_processed_tokens := m_num_processed_tokens g;
     m_num_scheduled_tokens := m_num_scheduled_tokens g;
     m_max_content_len := m_max_content_len g |}.

Definition set_prompt_ids (v : TokenIds) (g : t) : t :=
  {| m_request_id := m_request_id g;
     m_sequences := m_sequences g;
     m_sampling_params := m_sampling_params g;
     m_block_size := m_block_size g;
     m_prompt_ids := v;
     m_generation_stream := m_generation_stream g;
     m_num_processed_tokens := m_num_processed_tokens g;
     m_num_scheduled_tokens := m_num_scheduled_tokens g;
     m_max_content_len := m_max_content_len g |}.

Definition set_counters (processed scheduled max_content : Z) (g : t) : t :=
  {| m_request_id := m_request_id g;
     m_sequences := m_sequences g;
     m_sampling_params := m_sampling_params g;
     m_block_size := m_block_size g;
     m_prompt_ids := m_prompt_ids g;
     m_generation_stream := m_generation_stream g;
     m_num_processed_tokens := processed;
     m_num_scheduled_tokens := scheduled;
     m_max_content_len := max_content |}.

Definition add_sequence (sequence : Sequence.Ptr) : M Env unit :=
  update (fun g => set_sequences_vec (m_sequences g ++ [sequence]) g).

(** The private constructor. *)
Definition new_private (request_id : Z) (sampling_params : GenerationConfig)
    (block_size : Z) : M World t :=
  stream <- zoom streams set_streams GenerationStream.create ;;
  ret {| m_request_id := request_id;
         m_sequences := [];
         m_sampling_params := sampling_params;
         m_block_size := block_size;
         m_prompt_ids := [];
         m_generation_stream := stream;
         m_num_processed_tokens := 0;
         m_num_scheduled_tokens := 0;
         m_max_content_len := 0 |}.

(** Runs a constructor body on the object under construction. *)
Definition construct (init : M World t) (body : M Env unit) : M World t :=
  fun w => match init w with
           | Some (g, w') =>
               match body {| self := g; world := w' |} with
               | Some (_, e) => Some (self e, world e)
               | None => None
               end
           | None => None
           end.

(** [SequenceGroup(uint64_t, const ov::Tensor, const GenerationConfig&, std::size_t)] *)
Definition new_from_tensor (request_id : Z) (input_ids : Tensor)
    (sampling_params : GenerationConfig) (block_size : Z) : M World t :=
  construct (new_private request_id sampling_params block_size)
    (stream <- this m_generation_stream ;;
     seq <- in_sequences (Sequence.create stream) ;;
     add_sequence seq ;;;
     update (set_prompt_ids input_ids)).

(** [SequenceGroup(uint64_t, const TokenIds&, const GenerationConfig&, std::size_t)]:
    wraps the vector's data in a tensor of its size and delegates. *)
Definition new (request_id : Z) (input_ids : TokenIds)
    (sampling_params : GenerationConfig) (block_size : Z) : M World t :=
  new_from_tensor request_id input_ids sampling_params block_size.

Definition get_prompt_len (g : t) : Z := size_of (m_prompt_ids g).

Definition can_generate_tokens (g : t) : bool :=
  get_prompt_len g <=? m_max_content_len g.

(** [operator[]] *)
Definition at_index (index : Z) : M Env Sequence.Ptr :=
  v <- this m_sequences ;;
  OPENVINO_ASSERT (index <? size_of v) ;;;
  match v !! Z.to_nat index with
  | Some p => ret p
  | None => throw
  end.

Definition num_total_seqs (g : t) : Z := size_of (m_sequences g).

Definition num_finished_seqs : M Env Z :=
  v <- this m_sequences ;;
  fold_each v 0 (fun n seq =>
    fin <- seq_call seq (gets Sequence.has_finished) ;;
    ret (if fin then n + 1 else n)).

Definition num_running_seqs : M Env Z :=
  total <- this num_total_seqs ;;
  finished <- num_finished_seqs ;;
  ret (wrap64 (total - finished)).

Definition has_finished : M Env bool :=
  n <- num_running_seqs ;; ret (n =? 0).

Definition is_running : M Env bool :=
  b <- has_finished ;; ret (negb b).

Definition get_finished_sequences `{StdPow} `{StdSort} : M Env (list Sequence.Ptr) :=
  v <- this m_sequences ;;
  finished_seqs <- fold_each v [] (fun acc seq =>
    fin <- seq_call seq (gets Sequence.has_finished) ;;
    ret (if fin then acc ++ [seq] else acc)) ;;
  sampling_params <- this m_sampling_params ;;
  objects <- gets (fun e => Sequence.heap (sequences (world e))) ;;
  ret (std_sort (fun s1 s2 =>
         match objects !! s1, objects !! s2 with
         | Some o1, Some o2 =>
             fgt (Sequence.get_beam_search_score sampling_params o1)
                 (Sequence.get_beam_search_score sampling_params o2)
         | _, _ => false
         end) finished_seqs).

Definition get_running_sequences : M Env (list Sequence.Ptr) :=
  v <- this m_sequences ;;
  fold_each v [] (fun acc seq =>
    run <- seq_call seq (gets Sequence.is_running) ;;
    ret (if run then acc ++ [seq] else acc)).

Definition get_request_id (g : t) : Z := m_request_id g.

Definition get_num_scheduled_tokens (g : t) : Z := m_num_scheduled_tokens g.

Definition get_num_processed_tokens (g : t) : Z := m_num_processed_tokens g.

Definition preempt_tokens (num_preempt_tokens : Z) : M Env unit :=
  processed <- this m_num_processed_tokens ;;
  OPENVINO_ASSERT (num_preempt_tokens <=? processed) ;;;
  update (fun g => set_counters (wrap64 (m_num_processed_tokens g - num_preempt_tokens))
                                (m_num_scheduled_tokens g)
                                (wrap64 (m_max_content_len g - num_preempt_tokens)) g) ;;;
  v <- this m_sequences ;;
  for_each v (fun seq =>
    len <- seq_call seq (gets Sequence.get_generated_len) ;;
    seq_call seq (Sequence.remove_tokens (Z.min num_preempt_tokens len))).

Definition get_context_len : M Env Z :=
  fin <- has_finished ;;
  OPENVINO_ASSERT (negb fin) ;;;
  g <- this (fun g => g) ;;
  ret (wrap64 (get_num_processed_tokens g + get_num_scheduled_tokens g)).

Definition requires_sampling : M Env bool :=
  len <- get_context_len ;;
  g <- this (fun g => g) ;;
  ret (get_prompt_len g <=? len).

Definition schedule_tokens (num_tokens : Z) : M Env unit :=
  update (fun g => set_counters (m_num_processed_tokens g) num_tokens (m_max_content_len g) g).

Definition clear_scheduled_tokens : M Env unit :=
  update (fun g => set_counters (m_num_processed_tokens g) 0 (m_max_content_len g) g).

Definition is_scheduled (g : t) : bool := 0 <? m_num_scheduled_tokens g.

Definition get_num_available_tokens_for_batching : M Env Z :=
  fin <- has_finished ;;
  OPENVINO_ASSERT (negb fin) ;;;
  g <- this (fun g => g) ;;
  OPENVINO_ASSERT (get_num_scheduled_tokens g =? 0) ;;;
  let num_available_tokens := Z.max (get_prompt_len g) (m_max_content_len g) in
  ret (Z.max (wrap64 (num_available_tokens - m_num_processed_tokens g)) 1).

Definition finish_iteration : M Env unit :=
  update (fun g => set_counters (wrap64 (m_num_processed_tokens g + m_num_scheduled_tokens g))
                                (m_num_scheduled_tokens g) (m_max_content_len g) g) ;;;
  update (fun g => set_counters (m_num_processed_tokens g) (m_num_scheduled_tokens g)
                                (Z.max (m_max_content_len g) (m_num_processed_tokens g)) g) ;;;
  clear_scheduled_tokens.

Definition get_prompt_ids (g : t) : TokenIds := m_prompt_ids g.

(** Division by a zero block size is undefined. *)
Definition get_num_logical_blocks : M Env Z :=
  len <- get_context_len ;;
  block_size <- this m_block_size ;;
  if block_size =? 0 then throw
  else ret (wrap64 (wrap64 (len + block_size) - 1) / block_size).

Definition get_num_blocks : M Env Z := get_num_logical_blocks.

Definition get_block_size (g : t) : Z := m_block_size g.

Definition fork_sequence (sequence : Sequence.Ptr) : M Env Sequence.Ptr :=
  stream <- this m_generation_stream ;;
  child <- in_sequences (Sequence.fork sequence stream) ;;
  add_sequence child ;;;
  ret child.

Definition get_sampling_parameters (g : t) : GenerationConfig := m_sampling_params g.

Definition is_empty : M Env bool :=
  g <- this (fun g => g) ;;
  if (0 <? m_max_content_len g) || (0 <? m_num_processed_tokens g) then ret false
  else if 1 <? size_of (m_sequences g) then ret false
  else
    OPENVINO_ASSERT (size_of (m_sequences g) =? 1) ;;;
    first <- at_index 0 ;;
    len <- seq_call first (gets Sequence.get_generated_len) ;;
    log_probs <- seq_call first (gets Sequence.get_cumulative_log_probs) ;;
    ret (negb ((0 <? len) || negb (SFeqb log_probs fzero))).

Definition get_generation_stream (g : t) : GenerationStream.Ptr := m_generation_stream g.

Definition finish_generation_stream : M Env unit :=
  stream <- this m_generation_stream ;;
  stream_call stream GenerationStream.finish_generation_stream.

Definition notify_handle : M Env unit :=
  v <- this m_sequences ;;
  outputs <- fold_each v (∅ : GenerationOutputs) (fun outputs sequence =>
    len <- seq_call sequence (gets Sequence.get_generated_len) ;;
    if 0 <? len then
      id <- seq_call sequence (gets Sequence.get_id) ;;
      out <- seq_call sequence Sequence.get_last_generation_output ;;
      ret (emplace id out outputs)
    else ret outputs) ;;
  if negb (size outputs =? 0)%nat then
    stream <- this m_generation_stream ;;
    stream_call stream (GenerationStream.push outputs)
  else ret tt.

End SequenceGroup.

End Library.

(** * [continuous_batching/sequence_group.hpp] and [llm_engine.hpp] *)

(** [std::find_if]: the index of the first element satisfying [pred]. *)
Fixpoint find_if {A} (pred : A -> bool) (v : list A) : option nat :=
  match v with
  | [] => None
  | x :: v' => if pred x then Some 0%nat
               else match find_if pred v' with
                    | Some i => Some (S i)
                    | None => None
                    end
  end.

(** The loop of [std::remove_if] after the first match: [i] reads, [first]
    writes, and an element that is kept is move-assigned to [first], which
    leaves a moved-from object behind at [i]. *)
Fixpoint remove_if_loop {A} (moved_from : A -> A) (pred : A -> bool)
    (steps i first : nat) (v : list A) : list A :=
  match steps with
  | O => v
  | S steps' =>
      match v !! i with
      | Some x =>
          if pred x then remove_if_loop moved_from pred steps' (S i) first v
          else remove_if_loop moved_from pred steps' (S i) (S first)
                 (<[i := moved_from x]> (<[first := x]> v))
      | None => v
      end
  end.

(** [std::remove_if] without the [erase] that usually follows it: the size of
    the vector does not change. *)
Definition std_remove_if {A} (moved_from : A -> A) (pred : A -> bool) (v : list A) : list A :=
  match find_if pred v with
  | None => v
  | Some first =>
      remove_if_loop moved_from pred (length v - S first) (S first) first v
  end.

(** The same loop, followed for the iterator that [std::remove_if] returns:
    the position after the last element that was kept. *)
Fixpoint remove_if_loop_end {A} (pred : A -> bool) (steps i first : nat) (v : list A) : nat :=
  match steps with
  | O => first
  | S steps' =>
      match v !! i with
      | Some x =>
          if pred x then remove_if_loop_end pred steps' (S i) first v
          else remove_if_loop_end pred steps' (S i) (S first) v
      | None => first
      end
  end.

Definition std_remove_if_end {A} (pred : A -> bool) (v : list A) : nat :=
  match find_if pred v with
  | None => length v
  | Some first => remove_if_loop_end pred (length v - S first) (S first) first v
  end.

Module ContinuousBatching.

Inductive SequenceStatus := WAITING | FINISHED.

Definition SequenceStatus_eqb (a b : SequenceStatus) : bool :=
  match a, b with
  | WAITING, WAITING | FINISHED, FINISHED => true
  | _, _ => false
  end.

Module Sequence.

Record t := {
  m_generated_ids : TokenIds;
  m_sequence_id : Z;
  m_status : SequenceStatus;
  m_cumulative_log_prob : float
}.

(** The static [m_counter], which starts at 0 in this header. *)
Definition initial_counter : Z := 0.

Definition _get_next_sequence_id : M Z Z :=
  fun m_counter => Some (m_counter, wrap64 (m_counter + 1)).

(** [Sequence{}] *)
Definition new : M Z t :=
  id <- _get_next_sequence_id ;;
  ret {| m_generated_ids := [];
         m_sequence_id := id;
         m_status := WAITING;
         m_cumulative_log_prob := fzero |}.

Definition get_id (s : t) : Z := m_sequence_id s.

Definition has_finished (s : t) : bool := SequenceStatus_eqb (m_status s) FINISHED.

Definition set_status (status : SequenceStatus) : M t unit :=
  modify (fun s => {| m_generated_ids := m_generated_ids s;
                      m_sequence_id := m_sequence_id s;
                      m_status := status;
                      m_cumulative_log_prob := m_cumulative_log_prob s |}).

Definition append_token (token_id : Z) (log_prob : float) : M t unit :=
  modify (fun s => {| m_generated_ids := m_generated_ids s ++ [token_id];
                      m_sequence_id := m_sequence_id s;
                      m_status := m_status s;
                      m_cumulative_log_prob := fadd (m_cumulative_log_prob s) log_prob |}).

Definition get_generated_ids (s : t) : TokenIds := m_generated_ids s.

Definition get_beam_search_scope (s : t) : float := m_cumulative_log_prob s.

End Sequence.

(** Left out: [_get_position_id], and the two members that divide by
    [BLOCK_SIZE], a constant declared outside the sources. *)
Module SequenceGroup.

Record t := {
  m_request_id : Z;
  m_sequences : list Sequence.t;
  m_sampling_params : SamplingParameters;
  m_prompt_ids : TokenIds;
  m_num_processed_tokens : Z;
  m_num_scheduled_tokens : Z;
  m_max_content_len : Z
}.

Definition set_sequences_vec (v : list Sequence.t) (g : t) : t :=
  {| m_request_id := m_request_id g;
     m_sequences := v;
     m_sampling_params := m_sampling_params g;
     m_prompt_ids := m_prompt_ids g;
     m_num_processed_tokens := m_num_processed_tokens g;
     m_num_scheduled_tokens := m_num_scheduled_tokens g;
     m_max_content_len := m_max_content_len g |}.

Definition set_counters (processed scheduled max_content : Z) (g : t) : t :=
  {| m_request_id := m_request_id g;
     m_sequences := m_sequences g;
     m_sampling_params := m_sampling_params g;
     m_prompt_ids := m_prompt_ids g;
     m_num_processed_tokens := processed;
     m_num_scheduled_tokens := scheduled;
     m_max_content_len := max_content |}.

(** The private constructor. *)
Definition new_private (request_id : Z) (sampling_params : SamplingParameters) : t :=
  {| m_request_id := request_id;
     m_sequences := [];
     m_sampling_params := sampling_params;
     m_prompt_ids := [];
     m_num_processed_tokens := 0;
     m_num_scheduled_tokens := 0;
     m_max_content_len := 0 |}.

Definition add_sequence (sequence : Sequence.t) : M t unit :=
  modify (fun g => set_sequences_vec (m_sequences g ++ [sequence]) g).

(** [SequenceGroup(uint64_t, const TokenIds&, const SamplingParameters&)].
    The body does not read [input_ids]. *)
Definition new (request_id : Z) (input_ids : TokenIds)
    (sampling_params : SamplingParameters) : M Z t :=
  seq <- Sequence.new ;;
  match add_sequence seq (new_private request_id sampling_params) with
  | Some (_, g) => ret g
  | None => throw
  end.

(** [SequenceGroup(uint64_t, const ov::Tensor&, const SamplingParameters&)] *)
Definition new_from_tensor (request_id : Z) (input_ids : Tensor)
    (sampling_params : SamplingParameters) : M Z t :=
  seq <- Sequence.new ;;
  match add_sequence seq (new_private request_id sampling_params) with
  | Some (_, g) => ret g
  | None => throw
  end.

(** The state in which the implicit move assignment of [Sequence] leaves
    its source: valid, but not specified. *)
Class SequenceMoveSemantics := moved_from_sequence : Sequence.t -> Sequence.t.

(** [std::remove_if] runs inside the asserted expression, and nothing erases
    the tail it leaves. *)
Definition remove_sequence `{SequenceMoveSemantics} (sequence_id : Z) : M t unit :=
  v <- gets m_sequences ;;
  modify (set_sequences_vec
            (std_remove_if moved_from_sequence
               (fun seq => Sequence.get_id seq =? sequence_id) v)) ;;;
  OPENVINO_ASSERT
    (negb (Nat.eqb (std_remove_if_end (fun seq => Sequence.get_id seq =? sequence_id) v)
                   (length v))).

Definition get_prompt_len (g : t) : Z := size_of (m_prompt_ids g).

Definition can_generate_tokens (g : t) : bool :=
  get_prompt_len g <=? m_max_content_len g.

(** [operator[]] *)
Definition at_index (index : Z) (g : t) : option Sequence.t :=
  if index <? size_of (m_sequences g) then m_sequences g !! Z.to_nat index else None.

Definition num_total_seqs (g : t) : Z := size_of (m_sequences g).

Definition num_finished_seqs (g : t) : Z :=
  size_of (List.filter Sequence.has_finished (m_sequences g)).

Definition num_running_seqs (g : t) : Z :=
  wrap64 (num_total_seqs g - num_finished_seqs g).

Definition has_finished (g : t) : bool := num_running_seqs g =? 0.

Definition get_running_sequences (g : t) : list Sequence.t :=
  List.filter (fun s => negb (Sequence.has_finished s)) (m_sequences g).

Definition get_request_id (g : t) : Z := m_request_id g.

Definition get_num_scheduled_tokens (g : t) : Z := m_num_scheduled_tokens g.

Definition get_num_processed_tokens (g : t) : Z := m_num_processed_tokens g.

Definition preempt_tokens (num_preempt_tokens : Z) : M t unit :=
  processed <- gets m_num_processed_tokens ;;
  OPENVINO_ASSERT (num_preempt_tokens <=? processed) ;;;
  modify (fun g => set_counters (wrap64 (m_num_processed_tokens g - num_preempt_tokens))
                                (m_num_scheduled_tokens g) (m_max_content_len g) g).

Definition get_context_len (g : t) : option Z :=
  if has_finished g then None
  else Some (wrap64 (get_num_processed_tokens g + get_num_scheduled_tokens g)).

Definition requires_sampling (g : t) : option bool :=
  match get_context_len g with
  | Some len => Some (get_prompt_len g <=? len)
  | None => None
  end.

Definition schedule_tokens (num_tokens : Z) : M t unit :=
  modify (fun g => set_counters (m_num_processed_tokens g) num_tokens (m_max_content_len g) g).

Definition is_scheduled (g : t) : bool := 0 <? m_num_scheduled_tokens g.

Definition get_num_available_tokens_for_batching (g : t) : option Z :=
  if has_finished g then None
  else if negb (get_num_scheduled_tokens g =? 0) then None
  else
    let num_available_tokens := Z.max (get_prompt_len g) (m_max_content_len g) in
    Some (Z.max (wrap64 (num_available_tokens - m_num_processed_tokens g)) 1).

Definition finish_iteration : M t unit :=
  modify (fun g => set_counters (wrap64 (m_num_processed_tokens g + m_num_scheduled_tokens g))
                                (m_num_scheduled_tokens g) (m_max_content_len g) g) ;;;
  modify (fun g => set_counters (m_num_processed_tokens g) (m_num_scheduled_tokens g)
                                (Z.max (m_max_content_len g) (m_num_processed_tokens g)) g) ;;;
  modify (fun g => set_counters (m_num_processed_tokens g) 0 (m_max_content_len g) g).

Definition get_prompt_ids (g : t) : TokenIds := m_prompt_ids g.

End SequenceGroup.

Module GenerationResult.

Record t := {
  m_request_id : Z;
  m_generation_ids : list TokenIds;
  m_cumulative_logprob : float
}.

(** The [for] loop of [from_sequence_group], [steps] iterations from
    [sequence_id] on. *)
Fixpoint collect (sequence_group : SequenceGroup.t) (steps : nat) (sequence_id : Z)
    (generation_ids : list TokenIds) : option (list TokenIds) :=
  match steps with
  | O => Some generation_ids
  | S steps' =>
      match SequenceGroup.at_index sequence_id sequence_group with
      | Some seq =>
          collect sequence_group steps' (sequence_id + 1)
                  (generation_ids ++ [Sequence.get_generated_ids seq])
      | None => None
      end
  end.

Definition from_sequence_group (sequence_group : SequenceGroup.t) : option t :=
  match collect sequence_group
          (Z.to_nat (SequenceGroup.num_finished_seqs sequence_group)) 0 [] with
  | Some generation_ids =>
      Some {| m_request_id := SequenceGroup.get_request_id sequence_group;
              m_generation_ids := generation_ids;
              m_cumulative_logprob := fzero |}
  | None => None
  end.

End GenerationResult.

Module LLMEngine.

(** The engine: its collaborators' state, the requests, and the static
    counter of [Sequence] that the requests it creates draw from. *)
Record t {Components : Type} := {
  m_components : Components;
  m_requests : list SequenceGroup.t;
  m_counter : Z
}.
Arguments t : clear implicits.

Definition set_requests {C} (v : list SequenceGroup.t) (e : t C) : t C :=
  {| m_components := m_components e; m_requests := v; m_counter := m_counter e |}.

Definition set_counter {C} (c : Z) (e : t C) : t C :=
  {| m_components := m_components e; m_requests := m_requests e; m_counter := c |}.

(** [cache_manager.hpp], [scheduler.hpp], [model_runner.hpp] and
    [sampler.hpp] are not among the sources: the four calls that [step]
    makes into them are an interface.  Each may change the requests it is
    handed, and may throw. *)
Class Collaborators := {
  Components : Type;
  SchedulerOutput : Type;
  Logits : Type;
  Scheduler_schedule : M (t Components) SchedulerOutput;
  CacheManager_copy_blocks : SchedulerOutput -> M (t Components) unit;
  ModelRunner_step : SchedulerOutput -> M (t Components) Logits;
  Sampler_decode : Logits -> M (t Components) unit
}.

(** The state in which the implicit move assignment of [SequenceGroup]
    leaves its source: valid, but not specified. *)
Class MoveSemantics := moved_from : SequenceGroup.t -> SequenceGroup.t.

Section Engine.
Context `{Collaborators} `{MoveSemantics} `{StdSort}.

Abbreviation Engine := (t Components).

Definition _free_finished_groups : M Engine unit :=
  modify (fun e => set_requests
                     (std_remove_if moved_from SequenceGroup.has_finished (m_requests e)) e).

Definition add_request (request_id : Z) (input_ids : TokenIds)
    (sampling_params : SamplingParameters) : M Engine unit :=
  sequence_group <- zoom m_counter set_counter
                      (SequenceGroup.new request_id input_ids sampling_params) ;;
  modify (fun e => set_requests (m_requests e ++ [sequence_group]) e).

Definition add_request_tensor (request_id : Z) (input_ids : Tensor)
    (sampling_params : SamplingParameters) : M Engine unit :=
  sequence_group <- zoom m_counter set_counter
                      (SequenceGroup.new_from_tensor request_id input_ids sampling_params) ;;
  modify (fun e => set_requests (m_requests e ++ [sequence_group]) e).

Definition step : M Engine (list GenerationResult.t) :=
  scheduler_output <- Scheduler_schedule ;;
  CacheManager_copy_blocks scheduler_output ;;;
  logits <- ModelRunner_step scheduler_output ;;
  Sampler_decode logits ;;;
  requests <- gets m_requests ;;
  currently_finished_requests <-
    fold_each requests [] (fun acc sequence_group =>
      if SequenceGroup.has_finished sequence_group then
        match GenerationResult.from_sequence_group sequence_group with
        | Some r => ret (acc ++ [r])
        | None => throw
        end
      else ret acc) ;;
  _free_finished_groups ;;;
  ret currently_finished_requests.

Definition has_unfinished_requests (e : Engine) : bool :=
  existsb (fun sequence_group => negb (SequenceGroup.has_finished sequence_group))
          (m_requests e).

(** The [while] loop of [generate], cut off after [fuel] iterations. *)
Fixpoint generate_loop (fuel : nat) (results : list GenerationResult.t)
    : M Engine (list GenerationResult.t) :=
  unfinished <- gets has_unfinished_requests ;;
  if unfinished then
    match fuel with
    | O => throw
    | S fuel' =>
        partial_results <- step ;;
        generate_loop fuel' (results ++ partial_results)
    end
  else ret results.

Definition generate (fuel : nat) (prompts : list Tensor)
    (sampling_params : list SamplingParameters) : M Engine (list GenerationResult.t) :=
  OPENVINO_ASSERT (size_of prompts =? size_of sampling_params) ;;;
  for_each (seq 0 (length prompts)) (fun request_id =>
    match prompts !! request_id, sampling_params !! request_id with
    | Some prompt, Some params =>
        add_request_tensor (Z.of_nat request_id) prompt params
    | _, _ => throw
    end) ;;;
  results <- generate_loop fuel [] ;;
  ret (std_sort (fun r1 r2 =>
                   GenerationResult.m_request_id r1 <? GenerationResult.m_request_id r2)
                results).

End Engine.

End LLMEngine.

End ContinuousBatching.

(** * [llm_engine/lib/include/sequence_group.hpp]

    The parts of this header that differ from, or are cited next to, the
    library's: the identifiers, the constructors and the scheduling counters. *)

Module LlmEngineLib.

Inductive SequenceStatus := RUNNING | FINISHED.

Module Sequence.

Record t := {
  m_generated_ids : TokenIds;
  m_id : Z;
  m_status : SequenceStatus;
  m_cumulative_log_prob : float
}.

Abbreviation Ptr := nat.

Record Store := {
  m_counter : Z;
  heap : list t
}.

(** The static [m_counter] starts at 0 in this header. *)
Definition initial : Store := {| m_counter := 0; heap := [] |}.

Definition set_heap (h : list t) (st : Store) : Store :=
  {| m_counter := m_counter st; heap := h |}.

Definition _get_next_sequence_id : M Store Z :=
  fun st => Some (m_counter st,
                  {| m_counter := wrap64 (m_counter st + 1); heap := heap st |}).

Definition make_shared (obj : t) : M Store Ptr :=
  fun st => Some (length (heap st), set_heap (heap st ++ [obj]) st).

Definition call {A} (p : Ptr) (method : M t A) : M Store A :=
  zoom heap set_heap (at_ptr p method).

(** [Sequence() = default] *)
Definition new : M Store t :=
  id <- _get_next_sequence_id ;;
  ret {| m_generated_ids := [];
         m_id := id;
         m_status := RUNNING;
         m_cumulative_log_prob := fzero |}.

(** [Sequence(const Sequence&)] *)
Definition new_from (seq : t) : M Store t :=
  id <- _get_next_sequence_id ;;
  OPENVINO_ASSERT (negb (m_id seq =? id)) ;;;
  ret {| m_generated_ids := m_generated_ids seq;
         m_id := id;
         m_status := m_status seq;
         m_cumulative_log_prob := m_cumulative_log_prob seq |}.

Definition create : M Store Ptr :=
  obj <- new ;; make_shared obj.

Definition fork (sequence : Ptr) : M Store Ptr :=
  seq <- call sequence (gets (fun s => s)) ;;
  obj <- new_from seq ;;
  make_shared obj.

Definition get_id (s : t) : Z := m_id s.

End Sequence.

Module SequenceGroup.

Record t := {
  m_request_id : Z;
  m_sequences : list Sequence.Ptr;
  m_sampling_params : SamplingParameters;
  m_prompt_ids : TokenIds;
  m_num_processed_tokens : Z;
  m_num_scheduled_tokens : Z;
  m_max_content_len : Z
}.

Definition set_counters (processed scheduled max_content : Z) (g : t) : t :=
  {| m_request_id := m_request_id g;
     m_sequences := m_sequences g;
     m_sampling_params := m_sampling_params g;
     m_prompt_ids := m_prompt_ids g;
     m_num_processed_tokens := processed;
     m_num_scheduled_tokens := scheduled;
     m_max_content_len := max_content |}.

(** [SequenceGroup(uint64_t, const ov::Tensor, const SamplingParameters&)] *)
Definition new_from_tensor (request_id : Z) (input_ids : Tensor)
    (sampling_params : SamplingParameters) : M Sequence.Store t :=
  seq <- Sequence.create ;;
  ret {| m_request_id := request_id;
         m_sequences := [seq];
         m_sampling_params := sampling_params;
         m_prompt_ids := input_ids;
         m_num_processed_tokens := 0;
         m_num_scheduled_tokens := 0;
         m_max_content_len := 0 |}.

(** [SequenceGroup(uint64_t, const TokenIds&, const SamplingParameters&)] *)
Definition new (request_id : Z) (input_ids : TokenIds)
    (sampling_params : SamplingParameters) : M Sequence.Store t :=
  new_from_tensor request_id input_ids sampling_params.

Definition preempt_tokens (num_preempt_tokens : Z) : M t unit :=
  processed <- gets m_num_processed_tokens ;;
  OPENVINO_ASSERT (num_preempt_tokens <=? processed) ;;;
  modify (fun g => set_counters (wrap64 (m_num_processed_tokens g - num_preempt_tokens))
                                (m_num_scheduled_tokens g) (m_max_content_len g) g).

Definition schedule_tokens (num_tokens : Z) : M t unit :=
  modify (fun g => set_counters (m_num_processed_tokens g) num_tokens (m_max_content_len g) g).

Definition finish_iteration : M t unit :=
  modify (fun g => set_counters (wrap64 (m_num_processed_tokens g + m_num_scheduled_tokens g))
                                (m_num_scheduled_tokens g) (m_max_content_len g) g) ;;;
  modify (fun g => set_counters (m_num_processed_tokens g) (m_num_scheduled_tokens g)
                                (Z.max (m_max_content_len g) (m_num_processed_tokens g)) g) ;;;
  modify (fun g => set_counters (m_num_processed_tokens g) 0 (m_max_content_len g) g).

Definition get_prompt_ids (g : t) : TokenIds := m_prompt_ids g.

End SequenceGroup.

End LlmEngineLib.

(** * Vocabulary of the properties

    The predicates, the operation scripts and the sample data that the
    statements below are written with. *)

(** ** The library's sequence group: stores and well-formed groups *)

Module LS := Library.Sequence.
Module LG := Library.SequenceGroup.

(** The [Sequence] objects a group's environment holds, by address. *)
Definition seq_heap (e : LG.Env) : list LS.t :=
  LS.heap (Library.sequences (LG.world e)).

Definition with_heap (h : list LS.t) (e : LG.Env) : LG.Env :=
  LG.set_world
    (Library.set_sequences (LS.set_heap h (Library.sequences (LG.world e))) (LG.world e)) e.

(** What the constructors and methods of the header maintain: the counters
    are 64-bit values with [num_processed_tokens <= max_content_len], and the
    group's pointers are distinct and point to live objects. *)
Record well_formed (e : LG.Env) : Prop := {
  wf_processed :
    0 <= LG.m_num_processed_tokens (LG.self e) <= LG.m_max_content_len (LG.self e);
  wf_max_content : LG.m_max_content_len (LG.self e) < 2 ^ 64;
  wf_distinct : NoDup (LG.m_sequences (LG.self e));
  wf_live : Forall (fun p => is_Some (seq_heap e !! p)) (LG.m_sequences (LG.self e))
}.

(** [remove_tokens (min k generated_len)] on one sequence. *)
Definition trim_tail (k : Z) (s : LS.t) : LS.t :=
  {| LS.m_generated_ids :=
       take (length (LS.m_generated_ids s)
             - Z.to_nat (Z.min k (LS.get_generated_len s)))%nat (LS.m_generated_ids s);
     LS.m_parent_id := LS.m_parent_id s;
     LS.m_id := LS.m_id s;
     LS.m_status := LS.m_status s;
     LS.m_cumulative_log_prob := LS.m_cumulative_log_prob s;
     LS.m_generation_stream := LS.m_generation_stream s |}.

Definition preempt_body (k : Z) (seq : LS.Ptr) : M LG.Env unit :=
  len <- LG.seq_call seq (gets LS.get_generated_len) ;;
  LG.seq_call seq (LS.remove_tokens (Z.min k len)).

(** ** Scheduling counters *)

(** The four operations on the counters, as the scheduler issues them. *)
Inductive counter_op :=
  | op_schedule_tokens (num_tokens : Z)
  | op_finish_iteration
  | op_preempt_tokens (num_preempt_tokens : Z)
  | op_clear_scheduled_tokens.

Definition run_counter_op (op : counter_op) : M LG.Env unit :=
  match op with
  | op_schedule_tokens n => LG.schedule_tokens n
  | op_finish_iteration => LG.finish_iteration
  | op_preempt_tokens k => LG.preempt_tokens k
  | op_clear_scheduled_tokens => LG.clear_scheduled_tokens
  end.

(** The arguments are [size_t] values. *)
Definition size_t_op (op : counter_op) : Prop :=
  match op with
  | op_schedule_tokens n => 0 <= n < 2 ^ 64
  | op_preempt_tokens k => 0 <= k < 2 ^ 64
  | _ => True
  end.

Definition is_preemption (op : counter_op) : bool :=
  match op with
  | op_preempt_tokens _ => true
  | _ => false
  end.

(** The number of tokens a sequence of operations preempts. *)
Fixpoint preempted_tokens (ops : list counter_op) : Z :=
  match ops with
  | [] => 0
  | op_preempt_tokens k :: ops' => k + preempted_tokens ops'
  | _ :: ops' => preempted_tokens ops'
  end.

(** The specification's sentence that [max_content_len] never decreases, as
    a proposition. *)
Definition max_content_len_never_decreases : Prop :=
  forall (e e' : LG.Env) (ops : list counter_op),
    well_formed e -> Forall size_t_op ops ->
    for_each ops run_counter_op e = Some (tt, e') ->
    LG.m_max_content_len (LG.self e) <= LG.m_max_content_len (LG.self e').

(** Greedy parameters with the default length penalty 1.0. *)
Definition example_params : SamplingParameters :=
  {| max_new_tokens := 4; beam_width := 1; n_samples := 1;
     temperature := float_of_Z 1; top_k := 0; top_p := float_of_Z 1;
     length_penalty := float_of_Z 1; eos_token_id := 1000;
     ignore_eos := false; stop_token_ids := [] |}.

(** The environment right after [SequenceGroup(7, {5, 6, 7}, params, 16)] in
    a fresh process. *)
Definition fresh_env : LG.Env :=
  {| LG.self :=
       {| LG.m_request_id := 7; LG.m_sequences := [0%nat];
          LG.m_sampling_params := example_params; LG.m_block_size := 16;
          LG.m_prompt_ids := [5; 6; 7]; LG.m_generation_stream := 0%nat;
          LG.m_num_processed_tokens := 0; LG.m_num_scheduled_tokens := 0;
          LG.m_max_content_len := 0 |};
     LG.world :=
       {| Library.sequences :=
            {| LS.m_counter := 2;
               LS.heap := [ {| LS.m_generated_ids := []; LS.m_parent_id := 0;
                               LS.m_id := 1; LS.m_status := Library.RUNNING;
                               LS.m_cumulative_log_prob := fzero;
                               LS.m_generation_stream := 0%nat |} ] |};
          Library.streams := [Library.GenerationStream.empty] |} |}.

(** The fresh group after its three prompt tokens were scheduled and
    processed. *)
Definition processed_env : LG.Env :=
  LG.set_self (LG.set_counters 3 0 3 (LG.self fresh_env)) fresh_env.

(** ** Sequence identifiers *)

(** What a program can do to the [Sequence] objects of a process: create
    one, fork one, and call the mutating methods of the class. *)
Inductive sequence_op :=
  | op_create (generation_stream : Library.GenerationStream.Ptr)
  | op_fork (sequence : LS.Ptr) (generation_stream : Library.GenerationStream.Ptr)
  | op_set_status (p : LS.Ptr) (status : Library.SequenceStatus)
  | op_append_token (p : LS.Ptr) (token_id : Z) (log_prob : float)
  | op_remove_tokens (p : LS.Ptr) (count : Z).

Definition run_sequence_op (op : sequence_op) : M LS.Store unit :=
  match op with
  | op_create stream => LS.create stream ;;; ret tt
  | op_fork sequence stream => LS.fork sequence stream ;;; ret tt
  | op_set_status p status => LS.call p (LS.set_status status)
  | op_append_token p token_id log_prob => LS.call p (LS.append_token token_id log_prob)
  | op_remove_tokens p count => LS.call p (LS.remove_tokens count)
  end.

(** The object at address [i] carries the identifier [i + 1], and the
    counter is one past the last identifier handed out. *)
Definition ids_follow_creation (st : LS.Store) : Prop :=
  LS.m_counter st = Z.of_nat (length (LS.heap st)) + 1 /\
  forall i s, LS.heap st !! i = Some s -> LS.m_id s = Z.of_nat i + 1.

(** ** Construction *)

Module CS := ContinuousBatching.Sequence.
Module CG := ContinuousBatching.SequenceGroup.

(** ** What the operations of a group do to one sequence's tokens *)

(** A computation preserves a relation between the state before and after. *)
Definition preserves {S A} (R : S -> S -> Prop) (c : M S A) : Prop :=
  forall s a s', c s = Some (a, s') -> R s s'.

(** The sequence at address [p] keeps its generated ids and its cumulative
    log-probability. *)
Definition tokens_kept (p : LS.Ptr) (e e' : LG.Env) : Prop :=
  forall s, seq_heap e !! p = Some s ->
    exists s', seq_heap e' !! p = Some s' /\
      LS.m_generated_ids s' = LS.m_generated_ids s /\
      LS.m_cumulative_log_prob s' = LS.m_cumulative_log_prob s.

(** Every operation on a group and on its sequences that the header offers
    to the scheduler, the sampler and the engine loop. *)
Inductive group_op :=
  | gop_counter (op : counter_op)
  | gop_set_status (p : LS.Ptr) (status : Library.SequenceStatus)
  | gop_append_token (p : LS.Ptr) (token_id : Z) (log_prob : float)
  | gop_remove_tokens (p : LS.Ptr) (count : Z)
  | gop_add_sequence (p : LS.Ptr)
  | gop_fork_sequence (sequence : LS.Ptr)
  | gop_notify_handle
  | gop_finish_generation_stream.

Definition run_group_op (op : group_op) : M LG.Env unit :=
  match op with
  | gop_counter op => run_counter_op op
  | gop_set_status p status => LG.seq_call p (LS.set_status status)
  | gop_append_token p token_id log_prob => LG.seq_call p (LS.append_token token_id log_prob)
  | gop_remove_tokens p count => LG.seq_call p (LS.remove_tokens count)
  | gop_add_sequence p => LG.add_sequence p
  | gop_fork_sequence sequence => LG.fork_sequence sequence ;;; ret tt
  | gop_notify_handle => LG.notify_handle
  | gop_finish_generation_stream => LG.finish_generation_stream
  end.

(** The operations that rewrite the tokens of the sequence at [p]:
    [append_token] and [remove_tokens] on it, and [preempt_tokens], which
    calls [remove_tokens] on every sequence of the group. *)
Definition rewrites_tokens_of (p : LS.Ptr) (op : group_op) : bool :=
  match op with
  | gop_append_token q _ _ => bool_decide (q = p)
  | gop_remove_tokens q _ => bool_decide (q = p)
  | gop_counter (op_preempt_tokens _) => true
  | _ => false
  end.

(** The specification's sentence that a finished sequence is frozen, as a
    proposition. *)
Definition finished_sequences_are_frozen : Prop :=
  forall (e e' : LG.Env) (op : group_op) (p : LS.Ptr) (s : LS.t),
    seq_heap e !! p = Some s -> LS.has_finished s = true ->
    run_group_op op e = Some (tt, e') ->
    tokens_kept p e e'.

(** A group whose only sequence has finished with the token 8. *)
Definition finished_env : LG.Env :=
  with_heap [ {| LS.m_generated_ids := [8]; LS.m_parent_id := 0; LS.m_id := 1;
                 LS.m_status := Library.FINISHED;
                 LS.m_cumulative_log_prob := float_of_Z (-1);
                 LS.m_generation_stream := 0%nat |} ]
            (LG.set_self (LG.set_counters 4 0 4 (LG.self fresh_env)) fresh_env).

(** ** Notifications *)

(** What [get_last_generation_output] reports of a sequence with at least
    one generated token. *)
Definition snapshot_of (s : LS.t) : option Library.GenerationOutput :=
  match last (LS.m_generated_ids s) with
  | Some tok => Some {| Library.parent_id := LS.m_parent_id s;
                        Library.token_id := tok;
                        Library.cumulative_log_prob := LS.m_cumulative_log_prob s |}
  | None => None
  end.

(** The sequences of the group carry pairwise different identifiers. *)
Definition distinct_ids (e : LG.Env) : Prop :=
  forall q1 q2 s1 s2,
    q1 ∈ LG.m_sequences (LG.self e) -> q2 ∈ LG.m_sequences (LG.self e) ->
    seq_heap e !! q1 = Some s1 -> seq_heap e !! q2 = Some s2 ->
    LS.m_id s1 = LS.m_id s2 -> q1 = q2.

Definition stream_queue (e : LG.Env) : option (list Library.GenerationOutputs) :=
  Library.GenerationStream.m_output_queue
    <$> Library.streams (LG.world e) !! LG.m_generation_stream (LG.self e).

(** The specification's sentence that a second [notify_handle], with no
    token produced since the first, pushes nothing; as a proposition. *)
Definition notify_reports_only_new_tokens : Prop :=
  forall (e e1 e2 : LG.Env),
    well_formed e -> distinct_ids e ->
    LG.notify_handle e = Some (tt, e1) ->
    LG.notify_handle e1 = Some (tt, e2) ->
    stream_queue e2 = stream_queue e1.

(** A group in decode whose only sequence has produced the token 8. *)
Definition decoding_env : LG.Env :=
  with_heap [ {| LS.m_generated_ids := [8]; LS.m_parent_id := 0; LS.m_id := 1;
                 LS.m_status := Library.RUNNING;
                 LS.m_cumulative_log_prob := float_of_Z (-1);
                 LS.m_generation_stream := 0%nat |} ]
            (LG.set_self (LG.set_counters 3 0 3 (LG.self fresh_env)) fresh_env).

(** The same pointer stored twice in one group, as [add_sequence] permits. *)
Definition aliased_env : LG.Env :=
  with_heap [ {| LS.m_generated_ids := [8; 9; 10]; LS.m_parent_id := 0; LS.m_id := 1;
                 LS.m_status := Library.RUNNING;
                 LS.m_cumulative_log_prob := float_of_Z (-3);
                 LS.m_generation_stream := 0%nat |} ]
            (LG.set_self
               (LG.set_sequences_vec [0%nat; 0%nat]
                  (LG.set_counters 6 0 6 (LG.self fresh_env))) fresh_env).

(** The body of the loop of [notify_handle]. *)
Definition notify_body (outputs : Library.GenerationOutputs) (sequence : LS.Ptr)
    : M LG.Env Library.GenerationOutputs :=
  len <- LG.seq_call sequence (gets LS.get_generated_len) ;;
  if 0 <? len then
    id <- LG.seq_call sequence (gets LS.get_id) ;;
    out <- LG.seq_call sequence LS.get_last_generation_output ;;
    ret (emplace id out outputs)
  else ret outputs.

(** ** Comparing binary32 values *)

(** A key that orders the values that are not NaN: the class (minus
    infinity, negative, zero, positive, plus infinity), then the exponent
    and the mantissa, both reversed for a negative value. *)
Definition float_key (x : float) : Z * Z * Z :=
  match x with
  | S754_zero _ => (0, 0, 0)
  | S754_infinity false => (2, 0, 0)
  | S754_infinity true => (-2, 0, 0)
  | S754_finite false m e => (1, e, Z.pos m)
  | S754_finite true m e => (-1, - e, Z.neg m)
  | S754_nan => (0, 0, 0)
  end.

Definition key_compare (a b : Z * Z * Z) : comparison :=
  match a.1.1 ?= b.1.1 with
  | Eq => match a.1.2 ?= b.1.2 with
          | Eq => a.2 ?= b.2
          | c => c
          end
  | c => c
  end.

Definition key_lt (a b : Z * Z * Z) : Prop :=
  a.1.1 < b.1.1 \/
  (a.1.1 = b.1.1 /\ (a.1.2 < b.1.2 \/ (a.1.2 = b.1.2 /\ a.2 < b.2))).

(** ** Finished sequences and their beam-search score *)

(** The pointers of [v] whose sequence has finished, in the order of [v]. *)
Definition finished_of (e : LG.Env) (v : list LS.Ptr) : list LS.Ptr :=
  List.filter (fun q => match seq_heap e !! q with
                        | Some s => LS.has_finished s
                        | None => false
                        end) v.

(** The comparator that [get_finished_sequences] hands to [std::sort]. *)
Definition by_descending_score `{StdPow} (e : LG.Env) (s1 s2 : LS.Ptr) : bool :=
  match seq_heap e !! s1, seq_heap e !! s2 with
  | Some o1, Some o2 =>
      fgt (LS.get_beam_search_score (LG.m_sampling_params (LG.self e)) o1)
          (LS.get_beam_search_score (LG.m_sampling_params (LG.self e)) o2)
  | _, _ => false
  end.

Definition score_behind `{StdPow} (e : LG.Env) (q : LS.Ptr) : float :=
  match seq_heap e !! q with
  | Some o => LS.get_beam_search_score (LG.m_sampling_params (LG.self e)) o
  | None => S754_nan
  end.

(** ** The engine loop of [llm_engine.hpp] *)

Module GR := ContinuousBatching.GenerationResult.
Module CE := ContinuousBatching.LLMEngine.

(** What [from_sequence_group] reports of the ids of a group: the generated
    ids of its sequences, in the order of [m_sequences]. *)
Definition ids_in_group_order (g : CG.t) : list TokenIds :=
  map CS.get_generated_ids (CG.m_sequences g).

(** The vector of sequences fits the 64-bit [size_t] that counts it. *)
Definition size_fits (g : CG.t) : Prop := size_of (CG.m_sequences g) < 2 ^ 64.

(** The specification's sentence on the order of the ids in a result, as a
    proposition: the ids are those of the finished sequences, listed by
    descending score.  The score of this header is [get_beam_search_scope]. *)
Definition result_lists_by_descending_score : Prop :=
  forall (g : CG.t) (r : GR.t),
    CG.has_finished g = true -> GR.from_sequence_group g = Some r ->
    exists l,
      Permutation l (List.filter CS.has_finished (CG.m_sequences g)) /\
      StronglySorted (fun a b => fge (CS.get_beam_search_scope a)
                                     (CS.get_beam_search_scope b) = true) l /\
      GR.m_generation_ids r = map CS.get_generated_ids l.

(** The specification's sentence on the log-probability of a result, for a
    group of one sequence, as a proposition. *)
Definition result_carries_log_prob : Prop :=
  forall (g : CG.t) (s : CS.t) (r : GR.t),
    CG.m_sequences g = [s] ->
    CG.has_finished g = true -> GR.from_sequence_group g = Some r ->
    GR.m_cumulative_logprob r = CS.m_cumulative_log_prob s.

(** A finished group of two beams; the second has the better score. *)
Definition two_beams : CG.t :=
  {| CG.m_request_id := 0;
     CG.m_sequences :=
       [ {| CS.m_generated_ids := [1]; CS.m_sequence_id := 0;
            CS.m_status := ContinuousBatching.FINISHED;
            CS.m_cumulative_log_prob := float_of_Z (-2) |};
         {| CS.m_generated_ids := [2]; CS.m_sequence_id := 1;
            CS.m_status := ContinuousBatching.FINISHED;
            CS.m_cumulative_log_prob := float_of_Z (-1) |} ];
     CG.m_sampling_params := example_params;
     CG.m_prompt_ids := [];
     CG.m_num_processed_tokens := 2;
     CG.m_num_scheduled_tokens := 0;
     CG.m_max_content_len := 2 |}.

(** A finished group of one sequence with log-probability -1. *)
Definition one_beam : CG.t :=
  CG.set_sequences_vec
    [ {| CS.m_generated_ids := [2]; CS.m_sequence_id := 1;
         CS.m_status := ContinuousBatching.FINISHED;
         CS.m_cumulative_log_prob := float_of_Z (-1) |} ] two_beams.

(** The result [step] builds for a finished group. *)
Definition report (g : CG.t) : GR.t :=
  {| GR.m_request_id := CG.get_request_id g;
     GR.m_generation_ids := ids_in_group_order g;
     GR.m_cumulative_logprob := fzero |}.

Section EngineLoopVocabulary.
Context `{CE.Collaborators} `{CE.MoveSemantics}.

(** The four calls into the collaborators that open [step]. *)
Definition run_collaborators : M (CE.t CE.Components) unit :=
  scheduler_output <- CE.Scheduler_schedule ;;
  CE.CacheManager_copy_blocks scheduler_output ;;;
  logits <- CE.ModelRunner_step scheduler_output ;;
  CE.Sampler_decode logits.

(** The post-processing loop of [step]. *)
Definition report_body (acc : list GR.t) (sequence_group : CG.t)
    : M (CE.t CE.Components) (list GR.t) :=
  if CG.has_finished sequence_group then
    match GR.from_sequence_group sequence_group with
    | Some r => ret (acc ++ [r])
    | None => throw
    end
  else ret acc.

End EngineLoopVocabulary.

(** ** [generate] *)

Definition by_request_id (r1 r2 : GR.t) : bool :=
  GR.m_request_id r1 <? GR.m_request_id r2.

Section GenerateVocabulary.
Context `{CE.Collaborators} `{CE.MoveSemantics} `{StdSort}.

(** The loop of [generate] that adds the requests. *)
Definition add_requests (prompts : list Tensor) (sampling_params : list SamplingParameters)
    : M (CE.t CE.Components) unit :=
  for_each (seq 0 (length prompts)) (fun request_id =>
    match prompts !! request_id, sampling_params !! request_id with
    | Some prompt, Some params =>
        CE.add_request_tensor (Z.of_nat request_id) prompt params
    | _, _ => throw
    end).

End GenerateVocabulary.

(** ** A scheduler, model and sampler small enough to run *)

(** Runs a method that cannot throw. *)
Definition exec {S} (c : M S unit) (s : S) : S :=
  match c s with
  | Some (_, s') => s'
  | None => s
  end.

(** At tick [t] the sampler gives every sequence of a running group one
    token and the log-probability -1, and finishes the group of request [r]
    as soon as [t + r >= 1]: request 1 finishes before request 0. *)
Definition toy_sample (tick : nat) (g : CG.t) : CG.t :=
  if CG.has_finished g then g
  else
    let appended :=
      map (exec (CS.append_token (100 * CG.m_request_id g + Z.of_nat tick)
                                 (float_of_Z (-1))))
          (CG.m_sequences g) in
    exec CG.finish_iteration
      (CG.set_sequences_vec
         (if 1 <=? Z.of_nat tick + CG.m_request_id g
          then map (exec (CS.set_status ContinuousBatching.FINISHED)) appended
          else appended) g).

Definition toy_collaborators : CE.Collaborators :=
  {| CE.Components := nat;
     CE.SchedulerOutput := unit;
     CE.Logits := unit;
     CE.Scheduler_schedule :=
       modify (fun e => CE.set_requests
                          (map (exec (CG.schedule_tokens 1)) (CE.m_requests e)) e) ;;;
       ret tt;
     CE.CacheManager_copy_blocks := fun _ => ret tt;
     CE.ModelRunner_step := fun _ => ret tt;
     CE.Sampler_decode := fun _ =>
       modify (fun e => {| CE.m_components := S (CE.m_components e);
                           CE.m_requests :=
                             map (toy_sample (CE.m_components e)) (CE.m_requests e);
                           CE.m_counter := CE.m_counter e |}) |}.

(** A moved-from group as the common implementations leave it: the scalar
    members as they were, the vectors empty. *)
Definition emptied_vectors : CE.MoveSemantics :=
  fun g => {| CG.m_request_id := CG.m_request_id g;
              CG.m_sequences := [];
              CG.m_sampling_params := CG.m_sampling_params g;
              CG.m_prompt_ids := [];
              CG.m_num_processed_tokens := CG.m_num_processed_tokens g;
              CG.m_num_scheduled_tokens := CG.m_num_scheduled_tokens g;
              CG.m_max_content_len := CG.m_max_content_len g |}.

Definition toy_engine : CE.t nat :=
  {| CE.m_components := 0%nat; CE.m_requests := []; CE.m_counter := 0 |}.

Definition toy_prompts : list Tensor := [[1; 2]; [20; 21; 22]].

(** The engine after the two requests were added. *)
Definition toy_engine_loaded : CE.t nat :=
  match @add_requests toy_collaborators toy_prompts [example_params; example_params]
          toy_engine with
  | Some (_, e) => e
  | None => toy_engine
  end.

(** [std::pow] at the exponent 1.0, where it returns its base. *)
Definition pow_with_exponent_one : StdPow := fun base _ => base.

(** A group of three beams: the first finished with two tokens and
    log-probability -3, the second still running, the third finished with
    one token and log-probability -1. *)
Definition beams_env : LG.Env :=
  with_heap
    [ {| LS.m_generated_ids := [1; 2]; LS.m_parent_id := 0; LS.m_id := 1;
         LS.m_status := Library.FINISHED;
         LS.m_cumulative_log_prob := float_of_Z (-3);
         LS.m_generation_stream := 0%nat |};
      {| LS.m_generated_ids := [1; 4]; LS.m_parent_id := 1; LS.m_id := 2;
         LS.m_status := Library.RUNNING;
         LS.m_cumulative_log_prob := float_of_Z (-2);
         LS.m_generation_stream := 0%nat |};
      {| LS.m_generated_ids := [3]; LS.m_parent_id := 1; LS.m_id := 3;
         LS.m_status := Library.FINISHED;
         LS.m_cumulative_log_prob := float_of_Z (-1);
         LS.m_generation_stream := 0%nat |} ]
    (LG.set_self
       (LG.set_sequences_vec [0%nat; 1%nat; 2%nat]
          (LG.set_counters 5 0 5 (LG.self fresh_env))) fresh_env).

(** ** Forks, running sequences and well-formedness as an invariant *)

(** The child object [Sequence::fork] builds from [s] under the id [id]. *)
Definition forked_from (s : LS.t) (id : Z) (stream : Library.GenerationStream.Ptr) : LS.t :=
  {| LS.m_generated_ids := LS.m_generated_ids s;
     LS.m_parent_id := LS.m_id s;
     LS.m_id := id;
     LS.m_status := LS.m_status s;
     LS.m_cumulative_log_prob := LS.m_cumulative_log_prob s;
     LS.m_generation_stream := stream |}.

(** The pointers of [v] whose sequence is running, in the order of [v]. *)
Definition running_of (e : LG.Env) (v : list LS.Ptr) : list LS.Ptr :=
  List.filter (fun q => match seq_heap e !! q with
                        | Some s => LS.is_running s
                        | None => false
                        end) v.

(** [append_token] for each of [new], then [remove_tokens] of as many. *)
Definition append_then_remove (new : list (Z * float)) : M LS.t unit :=
  for_each new (fun '(token_id, log_prob) => LS.append_token token_id log_prob) ;;;
  LS.remove_tokens (size_of new).

(** The group itself and the number of allocated sequences are as before. *)
Definition same_shape (e e' : LG.Env) : Prop :=
  LG.self e' = LG.self e /\ length (seq_heap e') = length (seq_heap e).

(** What a caller owes an operation for the group to stay well formed: the
    counters' arguments are [size_t] values, and a pointer handed to
    [add_sequence] is live and not yet in the group. *)
Definition admissible (e : LG.Env) (op : group_op) : Prop :=
  match op with
  | gop_counter op => size_t_op op
  | gop_add_sequence p => (p ∉ LG.m_sequences (LG.self e)) /\ is_Some (seq_heap e !! p)
  | _ => True
  end.

(** ** Sample data of the two older headers *)

(** A group whose only sequence is still waiting. *)
Definition waiting_group : CG.t :=
  {| CG.m_request_id := 1;
     CG.m_sequences :=
       [ {| CS.m_generated_ids := []; CS.m_sequence_id := 2;
            CS.m_status := ContinuousBatching.WAITING;
            CS.m_cumulative_log_prob := fzero |} ];
     CG.m_sampling_params := example_params;
     CG.m_prompt_ids := [];
     CG.m_num_processed_tokens := 0;
     CG.m_num_scheduled_tokens := 0;
     CG.m_max_content_len := 0 |}.

(** An engine that holds a waiting group followed by a finished one. *)
Definition settled_engine : CE.t nat :=
  {| CE.m_components := 1%nat; CE.m_requests := [waiting_group; two_beams];
     CE.m_counter := 3 |}.

(** A group of the engine library's header with two processed tokens. *)
Definition older_group : LlmEngineLib.SequenceGroup.t :=
  {| LlmEngineLib.SequenceGroup.m_request_id := 0;
     LlmEngineLib.SequenceGroup.m_sequences := [0%nat];
     LlmEngineLib.SequenceGroup.m_sampling_params := example_params;
     LlmEngineLib.SequenceGroup.m_prompt_ids := [5; 6];
     LlmEngineLib.SequenceGroup.m_num_processed_tokens := 2;
     LlmEngineLib.SequenceGroup.m_num_scheduled_tokens := 0;
     LlmEngineLib.SequenceGroup.m_max_content_len := 2 |}.

(** * Properties *)

(** ** Machine integers and the monad *)

Lemma wrap64_small z : 0 <= z < 2 ^ 64 -> wrap64 z = z.
Proof. intros Hz. unfold wrap64. apply Z.mod_small. exact Hz. Qed.

Lemma wrap64_range z : 0 <= wrap64 z < 2 ^ 64.
Proof. unfold wrap64. apply Z.mod_pos_bound. lia. Qed.

Lemma wrap64_idemp z : wrap64 (wrap64 z) = wrap64 z.
Proof. apply wrap64_small, wrap64_range. Qed.

Lemma size_of_nonneg {A} (v : list A) : 0 <= size_of v.
Proof. unfold size_of. lia. Qed.

Lemma bind_Some {S A B} (c : M S A) (k : A -> M S B) s a s' :
  c s = Some (a, s') -> bind c k s = k a s'.
Proof. intros Hc. unfold bind. rewrite Hc. reflexivity. Qed.

Lemma bind_inv {S A B} (c : M S A) (k : A -> M S B) s r :
  bind c k s = Some r -> exists a s', c s = Some (a, s') /\ k a s' = Some r.
Proof.
  unfold bind. destruct (c s) as [[a s']|] eqn:Hc; [|discriminate].
  intros Hk. exists a, s'. split; [reflexivity|exact Hk].
Qed.

Lemma at_ptr_Some {T A} (p : nat) (c : M T A) store obj a obj' :
  store !! p = Some obj -> c obj = Some (a, obj') ->
  at_ptr p c store = Some (a, <[p := obj']> store).
Proof. intros Hp Hc. unfold at_ptr. rewrite Hp, Hc. reflexivity. Qed.

Lemma at_ptr_gets {T A} (p : nat) (f : T -> A) store obj :
  store !! p = Some obj -> at_ptr p (gets f) store = Some (f obj, store).
Proof.
  intros Hp. unfold at_ptr, gets. rewrite Hp.
  rewrite list_insert_id by exact Hp. reflexivity.
Qed.

Lemma for_each_app {S A} (v1 v2 : list A) (body : A -> M S unit) s :
  for_each (v1 ++ v2) body s =
  match for_each v1 body s with
  | Some (_, s') => for_each v2 body s'
  | None => None
  end.
Proof.
  revert s. induction v1 as [|x v1 IH]; intros s; simpl.
  - reflexivity.
  - unfold bind. destruct (body x s) as [[[] s1]|]; [apply IH|reflexivity].
Qed.

(** ** The library's sequence group: stores and well-formed groups *)

Lemma seq_heap_with_heap h e : seq_heap (with_heap h e) = h.
Proof. reflexivity. Qed.

Lemma self_with_heap h e : LG.self (with_heap h e) = LG.self e.
Proof. reflexivity. Qed.

Lemma with_heap_with_heap h h0 e : with_heap h (with_heap h0 e) = with_heap h e.
Proof. reflexivity. Qed.

Lemma with_heap_seq_heap e : with_heap (seq_heap e) e = e.
Proof. destruct e as [g [[c h] st]]. reflexivity. Qed.

Lemma seq_call_Some {A} (p : LS.Ptr) (method : M LS.t A) e s a s' :
  seq_heap e !! p = Some s -> method s = Some (a, s') ->
  LG.seq_call p method e = Some (a, with_heap (<[p := s']> (seq_heap e)) e).
Proof.
  intros Hp Hm. unfold LG.seq_call, LS.call, zoom, seq_heap in *.
  rewrite (at_ptr_Some _ _ _ _ _ _ Hp Hm). reflexivity.
Qed.

Lemma seq_call_gets {A} (p : LS.Ptr) (f : LS.t -> A) e s :
  seq_heap e !! p = Some s -> LG.seq_call p (gets f) e = Some (f s, e).
Proof.
  intros Hp. rewrite (seq_call_Some p (gets f) e s (f s) s Hp eq_refl).
  rewrite list_insert_id by exact Hp. rewrite with_heap_seq_heap. reflexivity.
Qed.

Lemma seq_call_None {A} (p : LS.Ptr) (method : M LS.t A) e :
  seq_heap e !! p = None -> LG.seq_call p method e = None.
Proof.
  intros Hp. unfold LG.seq_call, LS.call, zoom, at_ptr, seq_heap in *.
  cbv beta. rewrite Hp. reflexivity.
Qed.

(** A loop whose body rewrites the object behind each pointer rewrites every
    object of a duplicate-free vector once, and nothing else. *)
Lemma for_each_rewrites (f : LS.t -> LS.t) (body : LS.Ptr -> M LG.Env unit) :
  (forall p e s, seq_heap e !! p = Some s ->
     body p e = Some (tt, with_heap (<[p := f s]> (seq_heap e)) e)) ->
  forall (v : list LS.Ptr) e,
    NoDup v -> Forall (fun p => is_Some (seq_heap e !! p)) v ->
    exists h', for_each v body e = Some (tt, with_heap h' e) /\
      length h' = length (seq_heap e) /\
      (forall p s, p ∈ v -> seq_heap e !! p = Some s -> h' !! p = Some (f s)) /\
      (forall p, p ∉ v -> h' !! p = seq_heap e !! p).
Proof.
  intros Hbody v. induction v as [|x v IH]; intros e Hnd Hlive.
  - exists (seq_heap e). simpl. unfold ret. rewrite with_heap_seq_heap.
    repeat split; try reflexivity. intros p s Hin. inversion Hin.
  - apply NoDup_cons in Hnd as [Hx Hnd].
    apply Forall_cons in Hlive as [[s Hs] Hlive].
    specialize (Hbody x e s Hs). simpl.
    rewrite (bind_Some _ _ _ _ _ Hbody).
    set (e1 := with_heap (<[x := f s]> (seq_heap e)) e).
    destruct (IH e1 Hnd) as (h' & Hrun & Hlen & Hin & Hout).
    { eapply Forall_impl; [exact Hlive|]. intros p [sp Hsp]. unfold e1.
      rewrite seq_heap_with_heap. apply lookup_lt_is_Some.
      rewrite length_insert. eapply lookup_lt_Some. exact Hsp. }
    exists h'. unfold e1 in *. rewrite with_heap_with_heap in Hrun.
    rewrite seq_heap_with_heap in *. rewrite length_insert in Hlen.
    split; [exact Hrun|]. split; [exact Hlen|]. split.
    + intros p sp Hp Hsp. apply elem_of_cons in Hp as [->|Hp].
      * rewrite Hout by exact Hx. rewrite Hs in Hsp. inversion Hsp; subst.
        apply list_lookup_insert_eq. eapply lookup_lt_Some. exact Hs.
      * apply Hin; [exact Hp|]. rewrite list_lookup_insert_ne; [exact Hsp|].
        intros ->. contradiction.
    + intros p Hp. apply not_elem_of_cons in Hp as [Hne Hp].
      rewrite Hout by exact Hp. apply list_lookup_insert_ne. congruence.
Qed.

Lemma remove_tokens_min (k : Z) (s : LS.t) :
  0 <= k ->
  LS.remove_tokens (Z.min k (LS.get_generated_len s)) s = Some (tt, trim_tail k s).
Proof.
  intros Hk. unfold LS.remove_tokens, bind, gets, OPENVINO_ASSERT, modify, ret.
  assert (Hle : Z.min k (LS.get_generated_len s) <= LS.get_generated_len s) by lia.
  apply Z.leb_le in Hle. rewrite Hle. unfold trim_tail. do 3 f_equal.
  f_equal. unfold LS.get_generated_len, size_of. lia.
Qed.

Lemma trim_tail_removes (k : Z) (s : LS.t) :
  0 <= k ->
  exists removed,
    LS.m_generated_ids s = LS.m_generated_ids (trim_tail k s) ++ removed /\
    size_of removed = Z.min k (LS.get_generated_len s).
Proof.
  intros Hk.
  exists (drop (length (LS.m_generated_ids s)
                - Z.to_nat (Z.min k (LS.get_generated_len s)))%nat (LS.m_generated_ids s)).
  split.
  - simpl. symmetry. apply take_drop.
  - unfold size_of, LS.get_generated_len, size_of. rewrite length_drop. lia.
Qed.

Lemma preempt_body_run (k : Z) (p : LS.Ptr) (e : LG.Env) (s : LS.t) :
  0 <= k -> seq_heap e !! p = Some s ->
  preempt_body k p e = Some (tt, with_heap (<[p := trim_tail k s]> (seq_heap e)) e).
Proof.
  intros Hk Hs. unfold preempt_body.
  rewrite (bind_Some _ _ _ _ _ (seq_call_gets p LS.get_generated_len e s Hs)).
  apply (seq_call_Some p _ e s tt (trim_tail k s) Hs).
  apply remove_tokens_min. exact Hk.
Qed.

Lemma preempt_tokens_run (e : LG.Env) (k : Z) :
  well_formed e ->
  0 <= k <= LG.m_num_processed_tokens (LG.self e) ->
  exists h',
    LG.preempt_tokens k e =
      Some (tt, with_heap h'
                  (LG.set_self
                     (LG.set_counters (LG.m_num_processed_tokens (LG.self e) - k)
                        (LG.m_num_scheduled_tokens (LG.self e))
                        (LG.m_max_content_len (LG.self e) - k) (LG.self e)) e)) /\
    length h' = length (seq_heap e) /\
    (forall p s, p ∈ LG.m_sequences (LG.self e) -> seq_heap e !! p = Some s ->
       h' !! p = Some (trim_tail k s)) /\
    (forall p, p ∉ LG.m_sequences (LG.self e) -> h' !! p = seq_heap e !! p).
Proof.
  intros [[Hp0 Hpm] Hmax Hnd Hlive] [Hk0 Hkp].
  set (e1 := LG.set_self
               (LG.set_counters (LG.m_num_processed_tokens (LG.self e) - k)
                  (LG.m_num_scheduled_tokens (LG.self e))
                  (LG.m_max_content_len (LG.self e) - k) (LG.self e)) e).
  destruct (for_each_rewrites (trim_tail k) (preempt_body k)
              (fun p e0 s => preempt_body_run k p e0 s Hk0)
              (LG.m_sequences (LG.self e)) e1 Hnd Hlive)
    as (h' & Hrun & Hlen & Hin & Hout).
  exists h'. split; [|auto].
  unfold LG.preempt_tokens, LG.this, LG.update, bind, gets, modify, OPENVINO_ASSERT, ret.
  apply Z.leb_le in Hkp. rewrite Hkp.
  apply Z.leb_le in Hkp.
  rewrite !wrap64_small by lia.
  exact Hrun.
Qed.

(** C1.  For a well-formed group and [k <= num_processed_tokens],
    [preempt_tokens k] returns normally, lowers [num_processed_tokens] and
    [max_content_len] by [k], and leaves every sequence of the group with
    its generated ids cut by their last [min k generated_len] elements;
    nothing else about the sequences changes. *)
Theorem preempt_tokens_rolls_back (e : LG.Env) (k : Z) :
  well_formed e ->
  0 <= k <= LG.m_num_processed_tokens (LG.self e) ->
  exists e',
    LG.preempt_tokens k e = Some (tt, e') /\
    LG.m_num_processed_tokens (LG.self e') = LG.m_num_processed_tokens (LG.self e) - k /\
    LG.m_max_content_len (LG.self e') = LG.m_max_content_len (LG.self e) - k /\
    LG.m_sequences (LG.self e') = LG.m_sequences (LG.self e) /\
    forall p s, p ∈ LG.m_sequences (LG.self e) -> seq_heap e !! p = Some s ->
      exists s' removed,
        seq_heap e' !! p = Some s' /\
        LS.m_generated_ids s = LS.m_generated_ids s' ++ removed /\
        size_of removed = Z.min k (LS.get_generated_len s) /\
        LS.m_id s' = LS.m_id s /\
        LS.m_status s' = LS.m_status s /\
        LS.m_cumulative_log_prob s' = LS.m_cumulative_log_prob s.
Proof.
  intros Hwf Hk.
  destruct (preempt_tokens_run e k Hwf Hk) as (h' & Hrun & _ & Hin & _).
  eexists. split; [exact Hrun|].
  do 3 (split; [reflexivity|]).
  intros p s Hp Hs.
  destruct (trim_tail_removes k s (proj1 Hk)) as (removed & Hsplit & Hsize).
  exists (trim_tail k s), removed.
  rewrite seq_heap_with_heap. rewrite (Hin p s Hp Hs).
  repeat split; assumption || reflexivity.
Qed.

(** ** Scheduling counters *)

Lemma finish_iteration_run (e : LG.Env) :
  LG.finish_iteration e =
    Some (tt, LG.set_self
                (LG.set_counters
                   (wrap64 (LG.m_num_processed_tokens (LG.self e)
                            + LG.m_num_scheduled_tokens (LG.self e)))
                   0
                   (Z.max (LG.m_max_content_len (LG.self e))
                          (wrap64 (LG.m_num_processed_tokens (LG.self e)
                                   + LG.m_num_scheduled_tokens (LG.self e))))
                   (LG.self e)) e).
Proof. reflexivity. Qed.

(** C10.  [finish_iteration] always returns, clears the scheduled-token count,
    and a second call right after the first changes nothing: the three
    counters, and the whole environment, are as after one call. *)
Theorem finish_iteration_idempotent (e : LG.Env) :
  exists e1,
    LG.finish_iteration e = Some (tt, e1) /\
    LG.m_num_scheduled_tokens (LG.self e1) = 0 /\
    LG.finish_iteration e1 = Some (tt, e1) /\
    (LG.finish_iteration ;;; LG.finish_iteration) e = LG.finish_iteration e.
Proof.
  eexists. split; [apply finish_iteration_run|]. split; [reflexivity|].
  assert (Hsecond : forall e1,
            LG.finish_iteration e = Some (tt, e1) ->
            LG.finish_iteration e1 = Some (tt, e1)).
  { intros e1. rewrite !finish_iteration_run. intros [= <-].
    destruct e as [g w]. cbn [LG.self LG.set_self LG.set_counters
      LG.m_num_processed_tokens LG.m_num_scheduled_tokens LG.m_max_content_len
      LG.world LG.m_request_id LG.m_sequences LG.m_sampling_params LG.m_block_size
      LG.m_prompt_ids LG.m_generation_stream].
    rewrite Z.add_0_r, wrap64_idemp.
    rewrite (Z.max_l (Z.max _ _) _) by lia. reflexivity. }
  split.
  - apply Hsecond, finish_iteration_run.
  - rewrite (bind_Some _ _ _ _ _ (finish_iteration_run e)).
    rewrite (Hsecond _ (finish_iteration_run e)).
    symmetry. apply finish_iteration_run.
Qed.

Example fresh_env_constructed :
  LG.new 7 [5; 6; 7] example_params 16 Library.initial_world
  = Some (LG.self fresh_env, LG.world fresh_env).
Proof. reflexivity. Qed.

Lemma fresh_env_well_formed : well_formed fresh_env.
Proof.
  split; simpl.
  - lia.
  - lia.
  - apply NoDup_singleton.
  - apply Forall_singleton. eexists. reflexivity.
Defined.

Lemma well_formed_with_heap h g e :
  well_formed e ->
  length h = length (seq_heap e) ->
  LG.m_sequences g = LG.m_sequences (LG.self e) ->
  0 <= LG.m_num_processed_tokens g <= LG.m_max_content_len g ->
  LG.m_max_content_len g < 2 ^ 64 ->
  well_formed (with_heap h (LG.set_self g e)).
Proof.
  intros [Hp Hm Hnd Hlive] Hlen Hseqs Hp' Hm'. split.
  - exact Hp'.
  - exact Hm'.
  - cbn. rewrite Hseqs. exact Hnd.
  - cbn. rewrite Hseqs. eapply Forall_impl; [exact Hlive|].
    intros p Hsome. apply lookup_lt_is_Some. rewrite Hlen.
    apply lookup_lt_is_Some. exact Hsome.
Qed.

Lemma well_formed_set_self g e :
  well_formed e ->
  LG.m_sequences g = LG.m_sequences (LG.self e) ->
  0 <= LG.m_num_processed_tokens g <= LG.m_max_content_len g ->
  LG.m_max_content_len g < 2 ^ 64 ->
  well_formed (LG.set_self g e).
Proof.
  intros [Hp Hm Hnd Hlive] Hseqs Hp' Hm'. split.
  - exact Hp'.
  - exact Hm'.
  - cbn. rewrite Hseqs. exact Hnd.
  - cbn. rewrite Hseqs. exact Hlive.
Qed.

Lemma run_counter_op_step (op : counter_op) (e e' : LG.Env) :
  well_formed e -> size_t_op op ->
  run_counter_op op e = Some (tt, e') ->
  well_formed e' /\
  LG.m_max_content_len (LG.self e') =
    if is_preemption op
    then LG.m_max_content_len (LG.self e) - preempted_tokens [op]
    else Z.max (LG.m_max_content_len (LG.self e)) (LG.m_max_content_len (LG.self e')).
Proof.
  intros Hwf Hsz Hrun. pose proof Hwf as [Hp Hm Hnd Hlive].
  destruct op as [n| |k|]; simpl in Hrun |- *.
  - inversion Hrun; subst e'; clear Hrun. split; [|cbn; lia].
    apply (well_formed_set_self _ e Hwf); cbn; try reflexivity; lia.
  - rewrite finish_iteration_run in Hrun. inversion Hrun; subst e'; clear Hrun.
    pose proof (wrap64_range (LG.m_num_processed_tokens (LG.self e)
                              + LG.m_num_scheduled_tokens (LG.self e))).
    split; [|cbn; lia].
    apply (well_formed_set_self _ e Hwf); cbn; try reflexivity; lia.
  - assert (Hk : 0 <= k <= LG.m_num_processed_tokens (LG.self e)).
    { split; [apply Hsz|].
      unfold LG.preempt_tokens, LG.this, bind, gets, OPENVINO_ASSERT in Hrun.
      destruct (k <=? LG.m_num_processed_tokens (LG.self e)) eqn:Hle;
        [apply Z.leb_le; exact Hle|discriminate]. }
    destruct (preempt_tokens_run e k Hwf Hk) as (h' & Hrun' & Hlen & _ & _).
    rewrite Hrun' in Hrun. inversion Hrun; subst e'; clear Hrun.
    split; [|cbn; lia].
    apply (well_formed_with_heap h' _ e Hwf); cbn; try reflexivity; try assumption; lia.
  - inversion Hrun; subst e'; clear Hrun. split; [|cbn; lia].
    apply (well_formed_set_self _ e Hwf); cbn; try reflexivity; lia.
Qed.

(** C4, as the code has it.  Over any sequence of [schedule_tokens],
    [finish_iteration], [preempt_tokens] and [clear_scheduled_tokens] that
    returns normally, [max_content_len] plus the number of preempted tokens
    does not decrease; in particular [max_content_len] does not decrease
    over a sequence without [preempt_tokens]. *)
Theorem max_content_len_monotone_up_to_preemption
    (e e' : LG.Env) (ops : list counter_op) :
  well_formed e -> Forall size_t_op ops ->
  for_each ops run_counter_op e = Some (tt, e') ->
  LG.m_max_content_len (LG.self e)
    <= LG.m_max_content_len (LG.self e') + preempted_tokens ops /\
  (forallb (fun op => negb (is_preemption op)) ops = true ->
   LG.m_max_content_len (LG.self e) <= LG.m_max_content_len (LG.self e')).
Proof.
  revert e. induction ops as [|op ops IH]; intros e Hwf Hsz Hrun.
  - inversion Hrun; subst. simpl. split; [lia|intros _; lia].
  - apply Forall_cons in Hsz as [Hop Hsz]. simpl in Hrun.
    apply bind_inv in Hrun as ([] & e1 & Hstep & Hrest).
    destruct (run_counter_op_step op e e1 Hwf Hop Hstep) as [Hwf1 Hmax].
    destruct (IH e1 Hwf1 Hsz Hrest) as [Hall Hnone].
    split.
    + destruct op; simpl in *; lia.
    + simpl. intros Hno. apply andb_true_iff in Hno as [H1 H2].
      specialize (Hnone H2). destruct op; simpl in *; try discriminate; lia.
Qed.

Example processed_env_reached :
  for_each [op_schedule_tokens 3; op_finish_iteration] run_counter_op fresh_env
  = Some (tt, processed_env).
Proof. vm_compute. reflexivity. Qed.

Lemma processed_env_well_formed : well_formed processed_env.
Proof.
  split; simpl.
  - lia.
  - lia.
  - apply NoDup_singleton.
  - apply Forall_singleton. eexists. reflexivity.
Defined.

(** C4, as stated, fails: after three tokens are processed, preempting two
    of them lowers [max_content_len] from 3 to 1. *)
Lemma max_content_len_decreases_on_preemption : ~ max_content_len_never_decreases.
Proof.
  intros Hclaim.
  assert (Hsz : Forall size_t_op [op_preempt_tokens 2]).
  { repeat constructor; simpl; lia. }
  destruct (for_each [op_preempt_tokens 2] run_counter_op processed_env)
    as [[[] e2]|] eqn:Hrun; [|vm_compute in Hrun; discriminate].
  specialize (Hclaim processed_env e2 _ processed_env_well_formed Hsz Hrun).
  vm_compute in Hrun. inversion Hrun; subst e2.
  simpl in Hclaim. lia.
Qed.

(** ** Sequence identifiers *)

Lemma call_inv {A} (p : LS.Ptr) (method : M LS.t A) st a st' :
  LS.call p method st = Some (a, st') ->
  exists s s', LS.heap st !! p = Some s /\ method s = Some (a, s') /\
               st' = LS.set_heap (<[p := s']> (LS.heap st)) st.
Proof.
  unfold LS.call, zoom, at_ptr.
  destruct (LS.heap st !! p) as [s|] eqn:Hp; [|discriminate].
  destruct (method s) as [[a' s']|] eqn:Hm; [|discriminate].
  intros [= <- <-]. exists s, s'. auto.
Qed.

Lemma ids_follow_creation_update (p : LS.Ptr) (s s' : LS.t) st :
  ids_follow_creation st -> LS.heap st !! p = Some s -> LS.m_id s' = LS.m_id s ->
  ids_follow_creation (LS.set_heap (<[p := s']> (LS.heap st)) st).
Proof.
  intros [Hc Hids] Hp Hid. split; cbn.
  - rewrite length_insert. exact Hc.
  - intros i si Hi. destruct (decide (i = p)) as [->|Hne].
    + rewrite list_lookup_insert_eq in Hi by (eapply lookup_lt_Some; exact Hp).
      inversion Hi; subst si. rewrite Hid. apply (Hids p s Hp).
    + rewrite list_lookup_insert_ne in Hi by congruence. apply (Hids i si Hi).
Qed.

Lemma ids_follow_creation_alloc (obj : LS.t) st :
  ids_follow_creation st ->
  Z.of_nat (length (LS.heap st)) + 1 < 2 ^ 64 - 1 ->
  LS.m_id obj = LS.m_counter st ->
  ids_follow_creation
    {| LS.m_counter := wrap64 (LS.m_counter st + 1); LS.heap := LS.heap st ++ [obj] |}.
Proof.
  intros [Hc Hids] Hbound Hid. split; cbn.
  - rewrite length_app. cbn. rewrite Hc. rewrite wrap64_small by lia. lia.
  - intros i si Hi. apply lookup_app_Some in Hi as [Hi|[Hge Hi]].
    + apply (Hids i si Hi).
    + destruct (i - length (LS.heap st))%nat as [|n] eqn:Hn; [|discriminate].
      inversion Hi; subst si. rewrite Hid, Hc. lia.
Qed.

Lemma run_sequence_op_grows (op : sequence_op) st st' :
  run_sequence_op op st = Some (tt, st') ->
  (length (LS.heap st) <= length (LS.heap st'))%nat.
Proof.
  destruct op as [stream|src stream|p status|p tok lp|p n]; simpl; intros Hrun.
  - inversion Hrun; subst st'. cbn. rewrite length_app. lia.
  - apply bind_inv in Hrun as (child & st1 & Hfork & Hret). inversion Hret; subst st1.
    unfold LS.fork in Hfork.
    apply bind_inv in Hfork as (seq & st1 & Hcall & Hfork).
    apply call_inv in Hcall as (s & s' & Hp & Hm & ->). inversion Hm; subst seq s'.
    apply bind_inv in Hfork as (obj & st2 & Hnew & Hmk).
    unfold LS.new_from in Hnew.
    apply bind_inv in Hnew as (id & st3 & Hid & Hnew). inversion Hid; subst id st3.
    apply bind_inv in Hnew as ([] & st4 & Hassert & Hnew).
    unfold OPENVINO_ASSERT in Hassert.
    destruct (negb _); [|discriminate]. inversion Hassert; subst st4.
    inversion Hnew; subst obj st2. inversion Hmk; subst st'. cbn.
    rewrite length_app, length_insert. lia.
  - apply call_inv in Hrun as (s & s' & _ & _ & ->). cbn. rewrite length_insert. lia.
  - apply call_inv in Hrun as (s & s' & _ & _ & ->). cbn. rewrite length_insert. lia.
  - apply call_inv in Hrun as (s & s' & _ & _ & ->). cbn. rewrite length_insert. lia.
Qed.

Lemma run_sequence_ops_grow (ops : list sequence_op) st st' :
  for_each ops run_sequence_op st = Some (tt, st') ->
  (length (LS.heap st) <= length (LS.heap st'))%nat.
Proof.
  revert st. induction ops as [|op ops IH]; intros st Hrun.
  - inversion Hrun; subst. lia.
  - simpl in Hrun. apply bind_inv in Hrun as ([] & st1 & Hstep & Hrest).
    apply run_sequence_op_grows in Hstep. apply IH in Hrest. lia.
Qed.

Lemma run_sequence_op_ids (op : sequence_op) st st' :
  ids_follow_creation st ->
  run_sequence_op op st = Some (tt, st') ->
  Z.of_nat (length (LS.heap st')) < 2 ^ 64 - 1 ->
  ids_follow_creation st'.
Proof.
  intros Hinv Hrun Hbound.
  destruct op as [stream|src stream|p status|p tok lp|p n]; simpl in Hrun.
  - inversion Hrun; subst st'. cbn in Hbound. rewrite length_app in Hbound. cbn in Hbound.
    apply (ids_follow_creation_alloc _ st Hinv); [lia|reflexivity].
  - apply bind_inv in Hrun as (child & st1 & Hfork & Hret). inversion Hret; subst st1.
    unfold LS.fork in Hfork.
    apply bind_inv in Hfork as (seq & st1 & Hcall & Hfork).
    apply call_inv in Hcall as (s & s' & Hp & Hm & ->). inversion Hm; subst seq s'.
    rewrite list_insert_id in Hfork by exact Hp.
    replace (LS.set_heap (LS.heap st) st) with st in Hfork by (destruct st; reflexivity).
    apply bind_inv in Hfork as (obj & st2 & Hnew & Hmk).
    unfold LS.new_from in Hnew.
    apply bind_inv in Hnew as (id & st3 & Hid & Hnew). inversion Hid; subst id st3.
    apply bind_inv in Hnew as ([] & st4 & Hassert & Hnew).
    unfold OPENVINO_ASSERT in Hassert.
    destruct (negb _); [|discriminate]. inversion Hassert; subst st4.
    inversion Hnew; subst obj st2. inversion Hmk; subst st'.
    cbn in Hbound |- *. rewrite length_app in Hbound. cbn in Hbound.
    apply (ids_follow_creation_alloc _ st Hinv); [lia|reflexivity].
  - apply call_inv in Hrun as (s & s' & Hp & Hm & ->). inversion Hm; subst s'.
    apply (ids_follow_creation_update p s _ st Hinv Hp). reflexivity.
  - apply call_inv in Hrun as (s & s' & Hp & Hm & ->). inversion Hm; subst s'.
    apply (ids_follow_creation_update p s _ st Hinv Hp). reflexivity.
  - apply call_inv in Hrun as (s & s' & Hp & Hm & ->).
    unfold LS.remove_tokens, bind, gets, OPENVINO_ASSERT, modify in Hm.
    destruct (n <=? LS.get_generated_len s); [|discriminate]. inversion Hm; subst s'.
    apply (ids_follow_creation_update p s _ st Hinv Hp). reflexivity.
Qed.

Lemma run_sequence_ops_ids (ops : list sequence_op) st st' :
  ids_follow_creation st ->
  for_each ops run_sequence_op st = Some (tt, st') ->
  Z.of_nat (length (LS.heap st')) < 2 ^ 64 - 1 ->
  ids_follow_creation st'.
Proof.
  revert st. induction ops as [|op ops IH]; intros st Hinv Hrun Hbound.
  - inversion Hrun; subst. exact Hinv.
  - simpl in Hrun. apply bind_inv in Hrun as ([] & st1 & Hstep & Hrest).
    apply (IH st1); [|exact Hrest|exact Hbound].
    apply (run_sequence_op_ids op st st1 Hinv Hstep).
    apply run_sequence_ops_grow in Hrest. lia.
Qed.

Lemma initial_ids_follow_creation : ids_follow_creation LS.initial.
Proof. split; [reflexivity|]. intros i s Hi. inversion Hi. Qed.

(** C6.  In a process that has created fewer than [2^64 - 1] sequences, by
    [create] or by [fork], no sequence has identifier 0, a sequence created
    later has a strictly larger identifier, and no two sequences share one. *)
Theorem sequence_ids_unique_increasing_nonzero (ops : list sequence_op) (st : LS.Store) :
  for_each ops run_sequence_op LS.initial = Some (tt, st) ->
  Z.of_nat (length (LS.heap st)) < 2 ^ 64 - 1 ->
  (forall i s, LS.heap st !! i = Some s -> LS.get_id s <> 0) /\
  (forall i j si sj, LS.heap st !! i = Some si -> LS.heap st !! j = Some sj ->
     (i < j)%nat -> LS.get_id si < LS.get_id sj) /\
  (forall i j si sj, LS.heap st !! i = Some si -> LS.heap st !! j = Some sj ->
     LS.get_id si = LS.get_id sj -> i = j).
Proof.
  intros Hrun Hbound.
  destruct (run_sequence_ops_ids ops _ st initial_ids_follow_creation Hrun Hbound)
    as [_ Hids].
  unfold LS.get_id. repeat split.
  - intros i s Hi. rewrite (Hids i s Hi). lia.
  - intros i j si sj Hi Hj Hlt. rewrite (Hids i si Hi), (Hids j sj Hj). lia.
  - intros i j si sj Hi Hj Heq. rewrite (Hids i si Hi), (Hids j sj Hj) in Heq. lia.
Qed.

(** [create] always returns, and so does [fork] of a live sequence while
    identifiers have not wrapped around. *)
Lemma create_returns (stream : Library.GenerationStream.Ptr) (st : LS.Store) :
  exists st', LS.create stream st = Some (length (LS.heap st), st') /\
              length (LS.heap st') = S (length (LS.heap st)).
Proof.
  eexists. split; [reflexivity|]. cbn. rewrite length_app. cbn. lia.
Qed.

Lemma fork_returns (src : LS.Ptr) (stream : Library.GenerationStream.Ptr) (st : LS.Store) :
  ids_follow_creation st -> is_Some (LS.heap st !! src) ->
  exists st', LS.fork src stream st = Some (length (LS.heap st), st').
Proof.
  intros [Hc Hids] [s Hs]. unfold LS.fork.
  assert (Hcall : LS.call src (gets (fun s => s)) st = Some (s, st)).
  { unfold LS.call, zoom. rewrite (at_ptr_gets _ _ _ _ Hs). destruct st; reflexivity. }
  rewrite (bind_Some _ _ _ _ _ Hcall).
  unfold LS.new_from, LS._get_next_sequence_id, bind, OPENVINO_ASSERT, ret, throw.
  assert (Hne : (LS.m_id s =? LS.m_counter st) = false).
  { apply Z.eqb_neq. rewrite (Hids src s Hs), Hc.
    apply lookup_lt_Some in Hs. lia. }
  rewrite Hne. cbn. eexists. reflexivity.
Qed.

(** In the two older headers the counter starts at 0, so the first sequence
    of a process has identifier 0. *)
Example older_headers_first_id_is_zero :
  (exists s c, ContinuousBatching.Sequence.new
                 ContinuousBatching.Sequence.initial_counter = Some (s, c) /\
               ContinuousBatching.Sequence.get_id s = 0) /\
  (exists p st s, LlmEngineLib.Sequence.create LlmEngineLib.Sequence.initial = Some (p, st) /\
                  LlmEngineLib.Sequence.heap st !! p = Some s /\
                  LlmEngineLib.Sequence.get_id s = 0).
Proof.
  split.
  - eexists _, _. split; reflexivity.
  - eexists _, _, _. repeat split; reflexivity.
Qed.

(** In the two older headers [preempt_tokens] keeps [max_content_len] and
    does not touch the sequences. *)
Lemma older_headers_preempt_keeps_max_content_len :
  (forall k g g', ContinuousBatching.SequenceGroup.preempt_tokens k g = Some (tt, g') ->
     ContinuousBatching.SequenceGroup.m_max_content_len g'
       = ContinuousBatching.SequenceGroup.m_max_content_len g /\
     ContinuousBatching.SequenceGroup.m_sequences g'
       = ContinuousBatching.SequenceGroup.m_sequences g) /\
  (forall k g g', LlmEngineLib.SequenceGroup.preempt_tokens k g = Some (tt, g') ->
     LlmEngineLib.SequenceGroup.m_max_content_len g'
       = LlmEngineLib.SequenceGroup.m_max_content_len g).
Proof.
  split; intros k g g' Hrun.
  - unfold ContinuousBatching.SequenceGroup.preempt_tokens, bind, gets,
      OPENVINO_ASSERT, modify in Hrun.
    destruct (k <=? _); [|discriminate]. inversion Hrun; subst g'. split; reflexivity.
  - unfold LlmEngineLib.SequenceGroup.preempt_tokens, bind, gets,
      OPENVINO_ASSERT, modify in Hrun.
    destruct (k <=? _); [|discriminate]. inversion Hrun; subst g'. reflexivity.
Qed.

(** ** Construction *)

(** X21.  The library's constructor always returns: the group holds the
    request id and the prompt as given, zero counters, and one new running
    sequence with no parent and no generated ids. *)
Lemma library_constructor_stores_prompt
    (request_id : Z) (input_ids : TokenIds) (sampling_params : GenerationConfig)
    (block_size : Z) (w : Library.World) :
  exists g w' p s,
    LG.new request_id input_ids sampling_params block_size w = Some (g, w') /\
    LG.get_request_id g = request_id /\
    LG.get_prompt_ids g = input_ids /\
    LG.m_sequences g = [p] /\
    LS.heap (Library.sequences w') !! p = Some s /\
    LS.m_parent_id s = 0 /\
    LS.m_generated_ids s = [] /\
    LS.m_status s = Library.RUNNING /\
    LG.m_num_processed_tokens g = 0 /\
    LG.m_num_scheduled_tokens g = 0 /\
    LG.m_max_content_len g = 0.
Proof.
  eexists _, _, (length (LS.heap (Library.sequences w))), _.
  split; [reflexivity|]. cbn.
  repeat split; try reflexivity.
  - rewrite lookup_app_r by lia. rewrite Nat.sub_diag. reflexivity.
  - reflexivity.
  - reflexivity.
  - reflexivity.
Qed.

(** The constructor builds a well-formed group, in whatever world it runs,
    and [fork_sequence] keeps a group well formed: the pointer it adds is
    fresh. *)
Lemma constructor_well_formed
    (request_id : Z) (input_ids : TokenIds) (sampling_params : GenerationConfig)
    (block_size : Z) (w w' : Library.World) (g : LG.t) :
  LG.new request_id input_ids sampling_params block_size w = Some (g, w') ->
  well_formed {| LG.self := g; LG.world := w' |}.
Proof.
  intros Hnew. inversion Hnew; subst g w'; clear Hnew. split; cbn.
  - lia.
  - lia.
  - apply NoDup_singleton.
  - apply Forall_singleton. unfold seq_heap. cbn.
    apply lookup_lt_is_Some. rewrite length_app. cbn. lia.
Qed.

Lemma fork_sequence_well_formed (src child : LS.Ptr) (e e' : LG.Env) :
  well_formed e ->
  LG.fork_sequence src e = Some (child, e') ->
  well_formed e' /\
  LG.m_sequences (LG.self e') = LG.m_sequences (LG.self e) ++ [child] /\
  child = length (seq_heap e).
Proof.
  intros [Hp Hm Hnd Hlive] Hrun. unfold LG.fork_sequence in Hrun.
  apply bind_inv in Hrun as (stream & e0 & Hthis & Hrun).
  inversion Hthis; subst stream e0; clear Hthis.
  apply bind_inv in Hrun as (c & e1 & Hfork & Hrun).
  unfold LG.in_sequences, zoom in Hfork.
  destruct (LS.fork src _ (Library.sequences (LG.world e))) as [[c' st]|] eqn:Hf;
    [|discriminate].
  inversion Hfork; subst c' e1; clear Hfork.
  unfold LS.fork in Hf.
  apply bind_inv in Hf as (seq & st1 & Hcall & Hf).
  apply call_inv in Hcall as (s & s' & Hsrc & Hget & ->). inversion Hget; subst seq s'.
  rewrite list_insert_id in Hf by exact Hsrc.
  apply bind_inv in Hf as (obj & st2 & Hnew & Hmk).
  unfold LS.new_from in Hnew.
  apply bind_inv in Hnew as (id & st3 & Hid & Hnew). inversion Hid; subst id st3.
  apply bind_inv in Hnew as ([] & st4 & Hassert & Hnew).
  unfold OPENVINO_ASSERT in Hassert.
  destruct (negb _); [|discriminate]. inversion Hassert; subst st4.
  inversion Hnew; subst obj st2. inversion Hmk; subst c st.
  inversion Hrun; subst child e'; clear Hrun.
  cbn. split; [|split; reflexivity]. split; cbn.
  - exact Hp.
  - exact Hm.
  - apply NoDup_app. split; [exact Hnd|]. split; [|apply NoDup_singleton].
    intros q Hq Hq'. apply list_elem_of_singleton in Hq'. subst q.
    rewrite Forall_forall in Hlive. apply Hlive in Hq.
    apply lookup_lt_is_Some in Hq. unfold seq_heap in Hq. lia.
  - apply Forall_app. split.
    + eapply Forall_impl; [exact Hlive|]. intros q Hq. unfold seq_heap in *. cbn.
      apply lookup_lt_is_Some. apply lookup_lt_is_Some in Hq.
      rewrite length_app. lia.
    + apply Forall_singleton. unfold seq_heap. cbn.
      apply lookup_lt_is_Some. rewrite length_app. cbn. lia.
Qed.

(** The same holds of [llm_engine/lib/include/sequence_group.hpp], which has
    no parent ids. *)
Lemma llm_engine_lib_constructor_stores_prompt
    (request_id : Z) (input_ids : TokenIds) (sampling_params : SamplingParameters)
    (st : LlmEngineLib.Sequence.Store) :
  exists g st' p s,
    LlmEngineLib.SequenceGroup.new request_id input_ids sampling_params st = Some (g, st') /\
    LlmEngineLib.SequenceGroup.get_prompt_ids g = input_ids /\
    LlmEngineLib.SequenceGroup.m_sequences g = [p] /\
    LlmEngineLib.Sequence.heap st' !! p = Some s /\
    LlmEngineLib.Sequence.m_generated_ids s = [].
Proof.
  eexists _, _, (length (LlmEngineLib.Sequence.heap st)), _.
  split; [reflexivity|]. cbn.
  repeat split; try reflexivity.
  - rewrite lookup_app_r by lia. rewrite Nat.sub_diag. reflexivity.
  - reflexivity.
Qed.

(** C7 on [continuous_batching/sequence_group.hpp], the header the engine's
    [add_request] instantiates: both public constructors create the one
    sequence with no generated ids but never read [input_ids], so the group
    built from the prompt [5, 6, 7] stores an empty prompt. *)
Theorem continuous_batching_constructor_drops_prompt :
  (forall request_id input_ids sampling_params counter,
     exists g counter' s,
       CG.new request_id input_ids sampling_params counter = Some (g, counter') /\
       CG.new_from_tensor request_id input_ids sampling_params counter = Some (g, counter') /\
       CG.m_sequences g = [s] /\ CS.m_generated_ids s = [] /\
       CG.get_prompt_ids g = []) /\
  (exists g counter',
     CG.new 0 [5; 6; 7] example_params CS.initial_counter = Some (g, counter') /\
     CG.get_prompt_ids g <> [5; 6; 7]).
Proof.
  split.
  - intros. eexists _, _, _. repeat split; reflexivity.
  - eexists _, _. split; [reflexivity|]. cbn. discriminate.
Qed.

(** ** What the operations of a group do to one sequence's tokens *)

Section Preserves.
Context {S : Type} (R : S -> S -> Prop).
Hypothesis R_refl : forall s, R s s.
Hypothesis R_trans : forall s1 s2 s3, R s1 s2 -> R s2 s3 -> R s1 s3.

Lemma preserves_ret {A} (a : A) : preserves R (ret a).
Proof using R_refl. intros s a' s' [= <- <-]. apply R_refl. Qed.

Lemma preserves_throw {A} : preserves R (@throw S A).
Proof. intros s a s' Hrun. discriminate. Qed.

Lemma preserves_gets {A} (f : S -> A) : preserves R (gets f).
Proof using R_refl. intros s a s' [= <- <-]. apply R_refl. Qed.

Lemma preserves_assert (cond : bool) : preserves R (OPENVINO_ASSERT cond).
Proof using R_refl.
  destruct cond; [apply preserves_ret|apply preserves_throw].
Qed.

Lemma preserves_bind {A B} (c : M S A) (k : A -> M S B) :
  preserves R c -> (forall a, preserves R (k a)) -> preserves R (bind c k).
Proof using R_trans.
  intros Hc Hk s b s' Hrun.
  apply bind_inv in Hrun as (a & s1 & Hrun1 & Hrun2).
  eapply R_trans; [eapply Hc|eapply Hk]; eassumption.
Qed.

Lemma preserves_fold_each {A B} (v : list A) (body : B -> A -> M S B) :
  (forall acc x, preserves R (body acc x)) ->
  forall acc, preserves R (fold_each v acc body).
Proof using R_refl R_trans.
  intros Hbody. induction v as [|x v IH]; intros acc; simpl.
  - apply preserves_ret.
  - apply preserves_bind; [apply Hbody|]. intros acc'. apply IH.
Qed.

Lemma preserves_for_each {A} (v : list A) (body : A -> M S unit) :
  (forall x, preserves R (body x)) -> preserves R (for_each v body).
Proof using R_refl R_trans.
  intros Hbody. induction v as [|x v IH]; simpl.
  - apply preserves_ret.
  - apply preserves_bind; [apply Hbody|]. intros _. apply IH.
Qed.
End Preserves.

Lemma tokens_kept_refl p e : tokens_kept p e e.
Proof. intros s Hs. exists s. auto. Qed.

Lemma tokens_kept_trans p e1 e2 e3 :
  tokens_kept p e1 e2 -> tokens_kept p e2 e3 -> tokens_kept p e1 e3.
Proof.
  intros H12 H23 s Hs. destruct (H12 s Hs) as (s2 & Hs2 & Hids2 & Hcum2).
  destruct (H23 s2 Hs2) as (s3 & Hs3 & Hids3 & Hcum3).
  exists s3. split; [exact Hs3|]. split; congruence.
Qed.

Lemma tokens_kept_same_heap p e e' :
  seq_heap e' = seq_heap e -> tokens_kept p e e'.
Proof. intros Heq s Hs. exists s. rewrite Heq. auto. Qed.

Lemma seq_call_inv {A} (q : LS.Ptr) (method : M LS.t A) e a e' :
  LG.seq_call q method e = Some (a, e') ->
  exists s s', seq_heap e !! q = Some s /\ method s = Some (a, s') /\
               e' = with_heap (<[q := s']> (seq_heap e)) e.
Proof.
  intros Hrun. destruct (seq_heap e !! q) as [s|] eqn:Hq.
  - destruct (method s) as [[a' s']|] eqn:Hm.
    + rewrite (seq_call_Some q method e s a' s' Hq Hm) in Hrun.
      inversion Hrun; subst. exists s, s'. auto.
    + unfold LG.seq_call, LS.call, zoom, at_ptr, seq_heap in *. cbv beta in Hrun.
      rewrite Hq, Hm in Hrun. discriminate.
  - rewrite (seq_call_None q method e Hq) in Hrun. discriminate.
Qed.

Lemma preserves_seq_call {A} (p q : LS.Ptr) (method : M LS.t A) :
  (q <> p \/
   forall s a s', method s = Some (a, s') ->
     LS.m_generated_ids s' = LS.m_generated_ids s /\
     LS.m_cumulative_log_prob s' = LS.m_cumulative_log_prob s) ->
  preserves (tokens_kept p) (LG.seq_call q method).
Proof.
  intros Hcases e a e' Hrun.
  apply seq_call_inv in Hrun as (s & s' & Hq & Hm & ->).
  intros sp Hp. rewrite seq_heap_with_heap.
  destruct (decide (q = p)) as [->|Hne].
  - destruct Hcases as [Hne|Hkeep]; [contradiction|].
    rewrite Hq in Hp. inversion Hp; subst sp. exists s'.
    split; [|exact (Hkeep s a s' Hm)].
    apply list_lookup_insert_eq. eapply lookup_lt_Some. exact Hq.
  - exists sp. rewrite list_lookup_insert_ne by exact Hne. auto.
Qed.

Lemma preserves_this {A} p (f : LG.t -> A) : preserves (tokens_kept p) (LG.this f).
Proof. apply preserves_gets, tokens_kept_refl. Qed.

Lemma preserves_update p (f : LG.t -> LG.t) : preserves (tokens_kept p) (LG.update f).
Proof. intros e a e' [= <- <-]. apply tokens_kept_same_heap. reflexivity. Qed.

Lemma preserves_stream_call {A} p (stream : Library.GenerationStream.Ptr)
    (method : M Library.GenerationStream.t A) :
  preserves (tokens_kept p) (LG.stream_call stream method).
Proof.
  intros e a e' Hrun. apply tokens_kept_same_heap.
  unfold LG.stream_call, zoom in Hrun.
  destruct (at_ptr stream method (Library.streams (LG.world e))) as [[a' st]|];
    [|discriminate].
  inversion Hrun; subst. reflexivity.
Qed.

Lemma preserves_fork p (src : LS.Ptr) (stream : Library.GenerationStream.Ptr) :
  preserves (tokens_kept p) (LG.in_sequences (LS.fork src stream)).
Proof.
  intros e child e' Hrun. unfold LG.in_sequences, zoom in Hrun.
  destruct (LS.fork src stream (Library.sequences (LG.world e))) as [[c st]|] eqn:Hfork;
    [|discriminate].
  inversion Hrun; subst child e'; clear Hrun.
  unfold LS.fork in Hfork.
  apply bind_inv in Hfork as (seq & st1 & Hcall & Hfork).
  apply call_inv in Hcall as (s & s' & Hsrc & Hm & ->). inversion Hm; subst seq s'.
  rewrite list_insert_id in Hfork by exact Hsrc.
  apply bind_inv in Hfork as (obj & st2 & Hnew & Hmk).
  unfold LS.new_from in Hnew.
  apply bind_inv in Hnew as (id & st3 & Hid & Hnew). inversion Hid; subst id st3.
  apply bind_inv in Hnew as ([] & st4 & Hassert & Hnew).
  unfold OPENVINO_ASSERT in Hassert.
  destruct (negb _); [|discriminate]. inversion Hassert; subst st4.
  inversion Hnew; subst obj st2. inversion Hmk; subst st.
  intros sp Hp. exists sp. split; [|auto].
  unfold seq_heap in *. cbn. apply lookup_app_l_Some. exact Hp.
Qed.

Ltac keep_tokens p :=
  repeat first
    [ apply (preserves_bind _ (tokens_kept_trans p)); [|intros ?]
    | apply (preserves_ret _ (tokens_kept_refl p))
    | apply (preserves_assert _ (tokens_kept_refl p))
    | apply preserves_this
    | apply preserves_update
    | apply preserves_stream_call
    | apply preserves_fork
    | apply (preserves_fold_each _ (tokens_kept_refl p) (tokens_kept_trans p)); intros ? ?
    | match goal with |- preserves _ (if ?b then _ else _) => destruct b end ].

Lemma preserves_read {A} p q (f : LS.t -> A) :
  preserves (tokens_kept p) (LG.seq_call q (gets f)).
Proof. apply preserves_seq_call. right. intros s a s' [= <- <-]. auto. Qed.

Lemma preserves_get_last_generation_output p q :
  preserves (tokens_kept p) (LG.seq_call q LS.get_last_generation_output).
Proof.
  apply preserves_seq_call. right. intros s a s' Hm.
  unfold LS.get_last_generation_output in Hm.
  destruct (last (LS.m_generated_ids s)); [|discriminate].
  inversion Hm; subst. auto.
Qed.

Lemma preserves_notify_handle p : preserves (tokens_kept p) LG.notify_handle.
Proof.
  unfold LG.notify_handle.
  keep_tokens p;
    first [apply preserves_read | apply preserves_get_last_generation_output].
Qed.

Lemma append_token_run (token_id : Z) (log_prob : float) (s : LS.t) :
  exists s', LS.append_token token_id log_prob s = Some (tt, s') /\
    LS.m_generated_ids s' = LS.m_generated_ids s ++ [token_id] /\
    LS.m_cumulative_log_prob s' = fadd (LS.m_cumulative_log_prob s) log_prob /\
    LS.m_status s' = LS.m_status s.
Proof. eexists. split; [reflexivity|]. repeat split. Qed.

Lemma remove_tokens_run (count : Z) (s : LS.t) :
  0 <= count <= LS.get_generated_len s ->
  exists s' removed, LS.remove_tokens count s = Some (tt, s') /\
    LS.m_generated_ids s = LS.m_generated_ids s' ++ removed /\
    size_of removed = count /\
    LS.m_cumulative_log_prob s' = LS.m_cumulative_log_prob s /\
    LS.m_status s' = LS.m_status s.
Proof.
  intros [H0 Hle]. unfold LS.remove_tokens, bind, gets, OPENVINO_ASSERT, modify, ret.
  apply Z.leb_le in Hle. rewrite Hle. apply Z.leb_le in Hle.
  eexists _, (drop (Z.to_nat (LS.get_generated_len s - count)) (LS.m_generated_ids s)).
  split; [reflexivity|]. cbn. split; [symmetry; apply take_drop|].
  split; [|split; reflexivity].
  unfold size_of, LS.get_generated_len, size_of in *. rewrite length_drop. lia.
Qed.

Lemma other_operations_keep_tokens (p : LS.Ptr) (op : group_op) :
  rewrites_tokens_of p op = false -> preserves (tokens_kept p) (run_group_op op).
Proof.
  intros Hother.
  destruct op as [[n| |k|]|q st|q tok lp|q n| q|src| |]; simpl in Hother |- *;
    try discriminate.
  - apply preserves_update.
  - unfold LG.finish_iteration, LG.clear_scheduled_tokens. keep_tokens p.
  - apply preserves_update.
  - apply preserves_seq_call. right. intros s0 a s0' [= <- <-]. auto.
  - apply preserves_seq_call. left. apply bool_decide_eq_false in Hother. exact Hother.
  - apply preserves_seq_call. left. apply bool_decide_eq_false in Hother. exact Hother.
  - apply preserves_update.
  - unfold LG.fork_sequence, LG.add_sequence. keep_tokens p.
  - apply preserves_notify_handle.
  - unfold LG.finish_generation_stream. keep_tokens p.
Qed.

(** C8, as the code has it.  The generated ids and the cumulative
    log-probability of a finished sequence are left alone by every operation
    except [append_token] and [remove_tokens] on that sequence and
    [preempt_tokens] on its group; these are not guarded by the status:
    [append_token] appends and adds, and [remove_tokens] trims, a finished
    sequence as any other. *)
Theorem finished_tokens_change_only_by_append_and_remove
    (e e' : LG.Env) (op : group_op) (p : LS.Ptr) (s : LS.t) :
  seq_heap e !! p = Some s -> LS.has_finished s = true ->
  (rewrites_tokens_of p op = false ->
   run_group_op op e = Some (tt, e') -> tokens_kept p e e') /\
  (forall token_id log_prob,
     exists s', LS.append_token token_id log_prob s = Some (tt, s') /\
       LS.m_generated_ids s' = LS.m_generated_ids s ++ [token_id] /\
       LS.m_cumulative_log_prob s' = fadd (LS.m_cumulative_log_prob s) log_prob) /\
  (forall count, 0 <= count <= LS.get_generated_len s ->
     exists s' removed, LS.remove_tokens count s = Some (tt, s') /\
       LS.m_generated_ids s = LS.m_generated_ids s' ++ removed /\
       size_of removed = count).
Proof.
  intros Hs Hfin. split; [|split].
  - intros Hother Hrun. exact (other_operations_keep_tokens p op Hother e tt e' Hrun).
  - intros tok lp. destruct (append_token_run tok lp s) as (s' & Hrun & Hids & Hcum & _).
    exists s'. auto.
  - intros count Hcount.
    destruct (remove_tokens_run count s Hcount) as (s' & removed & Hrun & Hids & Hsz & _).
    exists s', removed. auto.
Qed.

(** C8, as stated, fails: [append_token] on the finished sequence of
    [finished_env] turns its generated ids [8] into [8, 9]. *)
Lemma finished_sequence_accepts_append : ~ finished_sequences_are_frozen.
Proof.
  intros Hclaim.
  destruct (run_group_op (gop_append_token 0%nat 9 (float_of_Z (-1))) finished_env)
    as [[[] e']|] eqn:Hrun; [|vm_compute in Hrun; discriminate].
  destruct (Hclaim finished_env e' _ 0%nat _ eq_refl eq_refl Hrun _ eq_refl)
    as (s' & Hs' & Hids & _).
  vm_compute in Hrun. inversion Hrun; subst e'.
  vm_compute in Hs'. inversion Hs'; subst s'.
  discriminate Hids.
Qed.

(** ** Notifications *)

Lemma snapshot_of_None (s : LS.t) :
  snapshot_of s = None <-> (0 <? LS.get_generated_len s) = false.
Proof.
  unfold snapshot_of, LS.get_generated_len, size_of.
  destruct (LS.m_generated_ids s) as [|x l] using rev_ind.
  - simpl. split; reflexivity.
  - rewrite last_snoc, length_app. simpl. split; [discriminate|].
    intros H. apply Z.ltb_ge in H. lia.
Qed.

Lemma notify_body_run (outputs : Library.GenerationOutputs) (q : LS.Ptr) (e : LG.Env)
    (s : LS.t) :
  seq_heap e !! q = Some s ->
  notify_body outputs q e =
    Some (match snapshot_of s with
          | Some out => emplace (LS.m_id s) out outputs
          | None => outputs
          end, e).
Proof.
  intros Hq. unfold notify_body.
  rewrite (bind_Some _ _ _ _ _ (seq_call_gets q LS.get_generated_len e s Hq)).
  destruct (snapshot_of s) as [out|] eqn:Hsnap.
  - destruct (0 <? LS.get_generated_len s) eqn:Hlen.
    + rewrite (bind_Some _ _ _ _ _ (seq_call_gets q LS.get_id e s Hq)).
      assert (Hlast : LS.get_last_generation_output s = Some (out, s)).
      { unfold LS.get_last_generation_output. unfold snapshot_of in Hsnap.
        destruct (last (LS.m_generated_ids s)); [|discriminate].
        inversion Hsnap; subst. reflexivity. }
      rewrite (bind_Some _ _ _ _ _ (seq_call_Some q _ e s out s Hq Hlast)).
      rewrite list_insert_id by exact Hq. rewrite with_heap_seq_heap. reflexivity.
    + apply snapshot_of_None in Hlen. congruence.
  - apply snapshot_of_None in Hsnap. rewrite Hsnap. reflexivity.
Qed.

Lemma lookup_emplace {V} (k k' : Z) (v : V) (m : gmap Z V) :
  emplace k v m !! k' =
    match m !! k' with
    | Some x => Some x
    | None => if decide (k = k') then Some v else None
    end.
Proof.
  unfold emplace. destruct (m !! k) as [x|] eqn:Hk.
  - destruct (m !! k') as [x'|] eqn:Hk'; [reflexivity|].
    destruct (decide (k = k')) as [->|]; [congruence|reflexivity].
  - destruct (decide (k = k')) as [->|Hne].
    + rewrite lookup_insert_eq, Hk. reflexivity.
    + rewrite lookup_insert_ne by exact Hne. destruct (m !! k'); reflexivity.
Qed.

(** The loop of [notify_handle] leaves the environment as it is and adds to
    [outputs], for every identifier not yet in it, the snapshot of the
    sequence that carries it. *)
Lemma notify_loop_run (e : LG.Env) (v : list LS.Ptr) :
  Forall (fun p => is_Some (seq_heap e !! p)) v ->
  (forall q1 q2 s1 s2, q1 ∈ v -> q2 ∈ v ->
     seq_heap e !! q1 = Some s1 -> seq_heap e !! q2 = Some s2 ->
     LS.m_id s1 = LS.m_id s2 -> q1 = q2) ->
  forall outputs, exists outputs',
    fold_each v outputs notify_body e = Some (outputs', e) /\
    forall k out, outputs' !! k = Some out <->
      outputs !! k = Some out \/
      (outputs !! k = None /\
       exists q s, q ∈ v /\ seq_heap e !! q = Some s /\
                   LS.m_id s = k /\ snapshot_of s = Some out).
Proof.
  induction v as [|x v IH]; intros Hlive Hids outputs.
  - exists outputs. split; [reflexivity|]. intros k out. split; [auto|].
    intros [H|(_ & q & s & Hin & _)]; [exact H|]. inversion Hin.
  - apply Forall_cons in Hlive as [[sx Hx] Hlive]. simpl.
    rewrite (bind_Some _ _ _ _ _ (notify_body_run outputs x e sx Hx)).
    destruct (IH Hlive) with
      (outputs := match snapshot_of sx with
                  | Some out => emplace (LS.m_id sx) out outputs
                  | None => outputs
                  end) as (outputs' & Hrun & Hspec).
    { intros q1 q2 s1 s2 H1 H2. apply Hids; apply elem_of_cons; auto. }
    exists outputs'. split; [exact Hrun|]. intros k out. rewrite Hspec. clear Hspec Hrun.
    destruct (snapshot_of sx) as [ox|] eqn:Hsnap.
    + rewrite lookup_emplace. destruct (outputs !! k) as [o0|] eqn:Hk.
      * split; intros [H|[H _]]; auto; discriminate.
      * destruct (decide (LS.m_id sx = k)) as [Hid|Hne].
        -- split.
           ++ intros [H|[H _]]; [|discriminate]. inversion H; subst out.
              right. split; [reflexivity|]. exists x, sx.
              split; [apply elem_of_cons; auto|auto].
           ++ intros [H|(_ & q & s & Hin & Hq & Hidq & Hout)]; [discriminate|].
              left. assert (q = x) as ->.
              { apply (Hids q x s sx); auto; try (apply elem_of_cons; auto).
                congruence. }
              rewrite Hx in Hq. inversion Hq; subst s. congruence.
        -- split.
           ++ intros [H|(_ & q & s & Hin & Hrest)]; [discriminate|].
              right. split; [reflexivity|]. exists q, s.
              split; [apply elem_of_cons; auto|exact Hrest].
           ++ intros [H|(_ & q & s & Hin & Hq & Hidq & Hout)]; [discriminate|].
              right. split; [reflexivity|]. exists q, s.
              apply elem_of_cons in Hin as [->|Hin].
              ** rewrite Hx in Hq. inversion Hq; subst s. contradiction.
              ** auto.
    + split.
      * intros [H|(Hnone & q & s & Hin & Hrest)]; [auto|].
        right. split; [exact Hnone|]. exists q, s.
        split; [apply elem_of_cons; auto|exact Hrest].
      * intros [H|(Hnone & q & s & Hin & Hq & Hidq & Hout)]; [auto|].
        right. split; [exact Hnone|]. exists q, s.
        apply elem_of_cons in Hin as [->|Hin]; [|auto].
        rewrite Hx in Hq. inversion Hq; subst s. congruence.
Qed.

Lemma stream_push_run (e : LG.Env) (outputs : Library.GenerationOutputs)
    (st : Library.GenerationStream.t) :
  Library.streams (LG.world e) !! LG.m_generation_stream (LG.self e) = Some st ->
  LG.stream_call (LG.m_generation_stream (LG.self e))
     (Library.GenerationStream.push outputs) e =
  Some (tt, LG.set_world
              (Library.set_streams
                 (<[LG.m_generation_stream (LG.self e) :=
                      {| Library.GenerationStream.m_output_queue :=
                           Library.GenerationStream.m_output_queue st ++ [outputs];
                         Library.GenerationStream.m_finished :=
                           Library.GenerationStream.m_finished st |}]>
                    (Library.streams (LG.world e)))
                 (LG.world e)) e).
Proof.
  intros Hst. unfold LG.stream_call, zoom.
  rewrite (at_ptr_Some _ _ _ _ _ _ Hst eq_refl). reflexivity.
Qed.

(** In a process whose identifiers follow creation, the distinct pointers of
    a well-formed group carry distinct identifiers. *)
Lemma well_formed_distinct_ids (e : LG.Env) :
  well_formed e -> ids_follow_creation (Library.sequences (LG.world e)) ->
  distinct_ids e.
Proof.
  intros _ [_ Hids] q1 q2 s1 s2 _ _ H1 H2 Heq.
  unfold seq_heap in H1, H2.
  rewrite (Hids q1 s1 H1), (Hids q2 s2 H2) in Heq. lia.
Qed.

(** C5, as the code has it.  For a group whose pointers are live, whose
    sequences carry distinct identifiers and whose stream exists,
    [notify_handle] returns and leaves the group and its sequences as they
    are.  The map it builds has, for every sequence of the group with at
    least one generated token, one entry under the sequence's identifier
    holding its parent id, its last generated token and its cumulative
    log-probability, and no other entry.  If the map is not empty it is
    appended to the group's stream; otherwise nothing changes. *)
Theorem notify_handle_pushes_latest_snapshots (e : LG.Env) (st : Library.GenerationStream.t) :
  Forall (fun p => is_Some (seq_heap e !! p)) (LG.m_sequences (LG.self e)) ->
  distinct_ids e ->
  Library.streams (LG.world e) !! LG.m_generation_stream (LG.self e) = Some st ->
  exists (outputs : Library.GenerationOutputs) (e' : LG.Env),
    LG.notify_handle e = Some (tt, e') /\
    LG.self e' = LG.self e /\
    Library.sequences (LG.world e') = Library.sequences (LG.world e) /\
    (forall k out, outputs !! k = Some out <->
       exists q s, q ∈ LG.m_sequences (LG.self e) /\ seq_heap e !! q = Some s /\
                   LS.get_id s = k /\
                   last (LS.get_generated_ids s) = Some (Library.token_id out) /\
                   Library.parent_id out = LS.m_parent_id s /\
                   Library.cumulative_log_prob out = LS.get_cumulative_log_probs s) /\
    (outputs = ∅ -> e' = e) /\
    (outputs <> ∅ ->
       stream_queue e' = Some (Library.GenerationStream.m_output_queue st ++ [outputs])).
Proof.
  intros Hlive Hids Hst.
  destruct (notify_loop_run e (LG.m_sequences (LG.self e)) Hlive Hids ∅)
    as (outputs & Hloop & Hspec).
  assert (Hentries : forall k out, outputs !! k = Some out <->
       exists q s, q ∈ LG.m_sequences (LG.self e) /\ seq_heap e !! q = Some s /\
                   LS.get_id s = k /\
                   last (LS.get_generated_ids s) = Some (Library.token_id out) /\
                   Library.parent_id out = LS.m_parent_id s /\
                   Library.cumulative_log_prob out = LS.get_cumulative_log_probs s).
  { intros k out. rewrite Hspec. rewrite lookup_empty. split.
    - intros [H|(_ & q & s & Hin & Hq & Hid & Hsnap)]; [discriminate|].
      exists q, s. unfold snapshot_of in Hsnap.
      unfold LS.get_generated_ids.
      destruct (last (LS.m_generated_ids s)) as [tok|]; [|discriminate].
      inversion Hsnap; subst out. repeat split; assumption || reflexivity.
    - intros (q & s & Hin & Hq & Hid & Hlast & Hparent & Hcum).
      right. split; [reflexivity|]. exists q, s.
      split; [exact Hin|]. split; [exact Hq|]. split; [exact Hid|].
      unfold snapshot_of. unfold LS.get_generated_ids in Hlast. rewrite Hlast.
      destruct out as [par tok cum]. simpl in *. subst. reflexivity. }
  assert (Hhead : forall (k : Library.GenerationOutputs -> M LG.Env unit),
            (v <- LG.this LG.m_sequences ;;
             outputs <- fold_each v ∅ notify_body ;; k outputs) e = k outputs e).
  { intros k. unfold LG.this. unfold bind at 1. unfold gets.
    rewrite (bind_Some _ _ _ _ _ Hloop). reflexivity. }
  destruct (decide (size outputs = 0%nat)) as [Hempty|Hnonempty].
  - exists outputs, e. unfold LG.notify_handle.
    change (fun outputs0 sequence => _) with notify_body.
    rewrite Hhead. apply Nat.eqb_eq in Hempty. rewrite Hempty. simpl.
    apply Nat.eqb_eq in Hempty. apply map_size_empty_iff in Hempty.
    repeat split; try reflexivity; try apply Hentries; try tauto.
  - exists outputs. eexists. unfold LG.notify_handle.
    change (fun outputs0 sequence => _) with notify_body.
    rewrite Hhead. apply Nat.eqb_neq in Hnonempty. rewrite Hnonempty. simpl.
    unfold LG.this. unfold bind, gets.
    split; [apply (stream_push_run e outputs st Hst)|].
    repeat split; try reflexivity; try apply Hentries.
    + intros ->. apply Nat.eqb_neq in Hnonempty. rewrite map_size_empty in Hnonempty.
      contradiction.
    + intros _. unfold stream_queue. cbn.
      rewrite list_lookup_insert_eq by (eapply lookup_lt_Some; exact Hst). reflexivity.
Qed.

(** C5, as stated, fails: the loop looks at the sequence's length, not at
    what was produced since the last call, so two calls in a row push the
    same snapshot twice. *)
Lemma notify_handle_repeats_old_tokens : ~ notify_reports_only_new_tokens.
Proof.
  intros Hclaim.
  assert (Hwf : well_formed decoding_env).
  { split; simpl; [lia|lia|apply NoDup_singleton|].
    apply Forall_singleton. eexists. reflexivity. }
  assert (Hids : distinct_ids decoding_env).
  { intros q1 q2 s1 s2 H1 H2 _ _ _. simpl in H1, H2.
    apply list_elem_of_singleton in H1, H2. congruence. }
  destruct (LG.notify_handle decoding_env) as [[[] e1]|] eqn:Hrun1;
    [|vm_compute in Hrun1; discriminate].
  destruct (LG.notify_handle e1) as [[[] e2]|] eqn:Hrun2.
  - specialize (Hclaim decoding_env e1 e2 Hwf Hids Hrun1 Hrun2).
    vm_compute in Hrun1. inversion Hrun1; subst e1; clear Hrun1.
    vm_compute in Hrun2. inversion Hrun2; subst e2; clear Hrun2.
    apply (f_equal (fmap length)) in Hclaim. vm_compute in Hclaim. discriminate.
  - vm_compute in Hrun1. inversion Hrun1; subst e1; clear Hrun1.
    vm_compute in Hrun2. discriminate.
Qed.

(** ** Comparing binary32 values *)

Lemma key_compare_Lt a b : key_compare a b = Lt <-> key_lt a b.
Proof.
  unfold key_compare, key_lt.
  destruct (Z.compare_spec a.1.1 b.1.1); destruct (Z.compare_spec a.1.2 b.1.2);
    destruct (Z.compare_spec a.2 b.2); split; intros; try discriminate; try lia;
    reflexivity || (exfalso; lia).
Qed.

Lemma key_compare_Gt a b : key_compare a b = Gt <-> key_lt b a.
Proof.
  unfold key_compare, key_lt.
  destruct (Z.compare_spec a.1.1 b.1.1); destruct (Z.compare_spec a.1.2 b.1.2);
    destruct (Z.compare_spec a.2 b.2); split; intros; try discriminate; try lia;
    reflexivity || (exfalso; lia).
Qed.

Lemma SFcompare_key (x y : float) :
  is_nan x = false -> is_nan y = false ->
  SFcompare x y = Some (key_compare (float_key x) (float_key y)).
Proof.
  intros Hx Hy.
  destruct x as [sx|sx| |sx mx ex], y as [sy|sy| |sy my ey]; try discriminate;
    try (destruct sx); try (destruct sy); try reflexivity.
  - unfold SFcompare, key_compare, float_key. cbn [fst snd].
    rewrite Z.compare_opp. rewrite (Z.compare_antisym ey ex).
    destruct (ey ?= ex) eqn:He; cbn; reflexivity.
Qed.

Lemma fgt_key (x y : float) :
  is_nan x = false -> is_nan y = false ->
  fgt x y = true <-> key_lt (float_key y) (float_key x).
Proof.
  intros Hx Hy. unfold fgt, SFltb. rewrite (SFcompare_key y x Hy Hx).
  rewrite <- key_compare_Lt. destruct (key_compare _ _); split; congruence.
Qed.

Lemma not_fgt_fge (x y : float) :
  is_nan x = false -> is_nan y = false ->
  fgt x y = false -> fge y x = true.
Proof.
  intros Hx Hy. unfold fgt, fge, SFltb, SFleb.
  rewrite (SFcompare_key y x Hy Hx), (SFcompare_key x y Hx Hy).
  destruct (key_compare (float_key y) (float_key x)) eqn:Hyx.
  - intros _. destruct (key_compare (float_key x) (float_key y)) eqn:Hxy; try reflexivity.
    apply key_compare_Gt in Hxy.
    assert (key_compare (float_key y) (float_key x) = Lt) by (apply key_compare_Lt; exact Hxy).
    congruence.
  - discriminate.
  - intros _. apply key_compare_Gt in Hyx. apply key_compare_Lt in Hyx.
    rewrite Hyx. reflexivity.
Qed.

(** On values that are not NaN, [>] is a strict weak ordering. *)
Lemma fgt_strict_weak_order {A} (score : A -> float) (l : list A) :
  (forall a, In a l -> is_nan (score a) = false) ->
  strict_weak_order_on (fun a b => fgt (score a) (score b)) l.
Proof.
  intros Hnan.
  assert (Hlt : forall a b, In a l -> In b l ->
            (fgt (score a) (score b) = true <->
             key_lt (float_key (score b)) (float_key (score a)))).
  { intros a b Ha Hb. apply fgt_key; apply Hnan; assumption. }
  assert (Hnlt : forall a b, In a l -> In b l ->
            (fgt (score a) (score b) = false <->
             ~ key_lt (float_key (score b)) (float_key (score a)))).
  { intros a b Ha Hb. rewrite <- (Hlt a b Ha Hb).
    destruct (fgt (score a) (score b)); split; congruence. }
  split.
  - intros x Hx. apply (Hnlt x x Hx Hx). unfold key_lt. lia.
  - intros x y z Hx Hy Hz Hxy Hyz.
    apply (Hlt x y Hx Hy) in Hxy. apply (Hlt y z Hy Hz) in Hyz.
    apply (Hlt x z Hx Hz). unfold key_lt in *. lia.
  - intros x y z Hx Hy Hz Hxy Hyx Hyz Hzy.
    apply (Hnlt x y Hx Hy) in Hxy. apply (Hnlt y x Hy Hx) in Hyx.
    apply (Hnlt y z Hy Hz) in Hyz. apply (Hnlt z y Hz Hy) in Hzy.
    split; [apply (Hnlt x z Hx Hz)|apply (Hnlt z x Hz Hx)];
      unfold key_lt in *; lia.
Qed.

(** ** Sorting *)

Lemma insert_sorted_Permutation {A} (comp : A -> A -> bool) (x : A) (l : list A) :
  Permutation (insert_sorted comp x l) (x :: l).
Proof.
  induction l as [|y l IH]; simpl.
  - reflexivity.
  - destruct (comp x y); [reflexivity|].
    rewrite IH. apply perm_swap.
Qed.

Lemma insertion_sort_Permutation {A} (comp : A -> A -> bool) (l : list A) :
  Permutation (insertion_sort comp l) l.
Proof.
  induction l as [|x l IH]; simpl.
  - reflexivity.
  - rewrite insert_sorted_Permutation. apply perm_skip. exact IH.
Qed.

Lemma strict_weak_order_on_incl {A} (comp : A -> A -> bool) (l l' : list A) :
  (forall a, In a l' -> In a l) ->
  strict_weak_order_on comp l -> strict_weak_order_on comp l'.
Proof.
  intros Hincl [Hirr Htr Hinc]. split.
  - intros x Hx. apply Hirr, Hincl, Hx.
  - intros x y z Hx Hy Hz. apply Htr; apply Hincl; assumption.
  - intros x y z Hx Hy Hz. apply Hinc; apply Hincl; assumption.
Qed.

Lemma insert_sorted_StronglySorted {A} (comp : A -> A -> bool) (x : A) (l : list A) :
  strict_weak_order_on comp (x :: l) ->
  StronglySorted (fun a b => comp b a = false) l ->
  StronglySorted (fun a b => comp b a = false) (insert_sorted comp x l).
Proof.
  intros Hswo. induction l as [|y l IH]; intros Hsorted; simpl.
  - repeat constructor.
  - apply StronglySorted_inv in Hsorted as [Hsorted Hy].
    destruct (comp x y) eqn:Hxy.
    + constructor; [constructor; assumption|].
      constructor.
      * destruct (comp y x) eqn:Hyx; [|reflexivity].
        assert (comp x x = true).
        { apply (swo_trans _ _ Hswo x y x); simpl; auto. }
        rewrite (swo_irrefl _ _ Hswo x) in H; [discriminate|simpl; auto].
      * rewrite Forall_forall in Hy |- *. intros z Hz.
        destruct (comp z x) eqn:Hzx; [|reflexivity].
        assert (comp z y = true).
        { apply (swo_trans _ _ Hswo z x y); simpl; auto.
          right. right. apply list_elem_of_In. exact Hz. }
        rewrite (Hy z Hz) in H. discriminate.
    + constructor.
      * apply IH; [|exact Hsorted].
        apply (strict_weak_order_on_incl comp (x :: y :: l)); [|exact Hswo].
        simpl. tauto.
      * eapply Permutation_Forall; [symmetry; apply insert_sorted_Permutation|].
        constructor; assumption.
Qed.

Lemma insertion_sort_StronglySorted {A} (comp : A -> A -> bool) (l : list A) :
  strict_weak_order_on comp l ->
  StronglySorted (fun a b => comp b a = false) (insertion_sort comp l).
Proof.
  induction l as [|x l IH]; intros Hswo; simpl.
  - constructor.
  - apply insert_sorted_StronglySorted.
    + apply (strict_weak_order_on_incl comp (x :: l)); [|exact Hswo].
      intros a [->|Ha]; [left; reflexivity|right].
      eapply Permutation_in; [apply insertion_sort_Permutation|exact Ha].
    + apply IH. apply (strict_weak_order_on_incl comp (x :: l)); [|exact Hswo].
      simpl. tauto.
Qed.

(** Insertion sort keeps the promise of [std::sort]. *)
Lemma insertion_StdSort : StdSort.
Proof.
  exact {| std_sort := @insertion_sort;
           std_sort_Permutation := fun A comp l _ => insertion_sort_Permutation comp l;
           std_sort_sorted := @insertion_sort_StronglySorted |}.
Defined.

Lemma StronglySorted_impl_In {A} (R R' : A -> A -> Prop) (l : list A) :
  (forall a b, In a l -> In b l -> R a b -> R' a b) ->
  StronglySorted R l -> StronglySorted R' l.
Proof.
  induction l as [|x l IH]; intros Himpl Hsorted.
  - constructor.
  - apply StronglySorted_inv in Hsorted as [Hsorted Hx]. constructor.
    + apply IH; [|exact Hsorted]. intros a b Ha Hb. apply Himpl; right; assumption.
    + rewrite Forall_forall in Hx |- *. intros b Hb. apply Himpl.
      * left. reflexivity.
      * right. apply list_elem_of_In. exact Hb.
      * apply Hx. exact Hb.
Qed.

(** ** Finished sequences and their beam-search score *)

Lemma strict_weak_order_on_ext {A} (comp comp' : A -> A -> bool) (l : list A) :
  (forall a b, comp a b = comp' a b) ->
  strict_weak_order_on comp' l -> strict_weak_order_on comp l.
Proof.
  intros Hext [Hirr Htr Hinc]. split.
  - intros x Hx. rewrite Hext. apply Hirr, Hx.
  - intros x y z Hx Hy Hz. rewrite !Hext. apply Htr; assumption.
  - intros x y z Hx Hy Hz. rewrite !Hext. apply Hinc; assumption.
Qed.

Lemma by_descending_score_fgt `{StdPow} (e : LG.Env) (a b : LS.Ptr) :
  by_descending_score e a b = fgt (score_behind e a) (score_behind e b).
Proof.
  unfold by_descending_score, score_behind.
  destruct (seq_heap e !! a) as [oa|], (seq_heap e !! b) as [ob|]; try reflexivity.
  unfold fgt, SFltb, SFcompare. destruct (LS.get_beam_search_score _ _); reflexivity.
Qed.

Lemma collect_finished_run (e : LG.Env) (v acc : list LS.Ptr) :
  Forall (fun p => is_Some (seq_heap e !! p)) v ->
  fold_each v acc (fun acc seq =>
      fin <- LG.seq_call seq (gets LS.has_finished) ;;
      ret (if fin then acc ++ [seq] else acc)) e
  = Some (acc ++ finished_of e v, e).
Proof.
  revert acc. induction v as [|x v IH]; intros acc Hlive; simpl.
  - unfold ret. rewrite app_nil_r. reflexivity.
  - apply Forall_cons in Hlive as [[s Hs] Hlive].
    unfold bind at 1. unfold bind at 1.
    rewrite (seq_call_gets x LS.has_finished e s Hs). unfold ret at 1.
    rewrite (IH _ Hlive). rewrite Hs.
    destruct (LS.has_finished s); [rewrite <- app_assoc|]; reflexivity.
Qed.

Lemma get_finished_sequences_run `{StdPow} `{StdSort} (e : LG.Env) :
  Forall (fun p => is_Some (seq_heap e !! p)) (LG.m_sequences (LG.self e)) ->
  LG.get_finished_sequences e
  = Some (std_sort (by_descending_score e) (finished_of e (LG.m_sequences (LG.self e))), e).
Proof.
  intros Hlive. unfold LG.get_finished_sequences, LG.this.
  unfold bind at 1. unfold gets at 1.
  rewrite (bind_Some _ _ _ _ _ (collect_finished_run e _ [] Hlive)).
  reflexivity.
Qed.

Lemma elem_of_finished_of (e : LG.Env) (v : list LS.Ptr) (q : LS.Ptr) :
  In q (finished_of e v) <->
  q ∈ v /\ exists s, seq_heap e !! q = Some s /\ LS.has_finished s = true.
Proof.
  unfold finished_of. rewrite filter_In, list_elem_of_In.
  destruct (seq_heap e !! q) as [s|].
  - split.
    + intros [Hin Hfin]. split; [exact Hin|]. exists s. auto.
    + intros [Hin (s' & Hs' & Hfin)]. inversion Hs'; subst. auto.
  - split.
    + intros [_ Hfalse]. discriminate.
    + intros [_ (s' & Hs' & _)]. discriminate.
Qed.

(** C9.  [get_beam_search_score] is the cumulative log-probability divided
    by the generated length raised to the length penalty, in binary32.  For
    a group with live pointers in which no finished sequence has a NaN
    score, [get_finished_sequences] returns, whatever [std::sort] the
    implementation provides, a rearrangement of exactly the group's finished
    sequences in which every sequence has a score greater than or equal to
    the score of each sequence after it. *)
Theorem finished_sequences_by_descending_score `{StdPow} `{StdSort} (e : LG.Env) :
  Forall (fun p => is_Some (seq_heap e !! p)) (LG.m_sequences (LG.self e)) ->
  (forall q s, q ∈ LG.m_sequences (LG.self e) -> seq_heap e !! q = Some s ->
     LS.has_finished s = true ->
     is_nan (LS.get_beam_search_score (LG.m_sampling_params (LG.self e)) s) = false) ->
  (forall params s,
     LS.get_beam_search_score params s
     = fdiv (LS.get_cumulative_log_probs s)
            (std_pow (float_of_Z (LS.get_generated_len s)) (length_penalty params))) /\
  exists result,
    LG.get_finished_sequences e = Some (result, e) /\
    Permutation result (finished_of e (LG.m_sequences (LG.self e))) /\
    (forall q, q ∈ result <->
       q ∈ LG.m_sequences (LG.self e) /\
       exists s, seq_heap e !! q = Some s /\ LS.has_finished s = true) /\
    StronglySorted
      (fun q1 q2 => exists s1 s2,
         seq_heap e !! q1 = Some s1 /\ seq_heap e !! q2 = Some s2 /\
         fge (LS.get_beam_search_score (LG.m_sampling_params (LG.self e)) s1)
             (LS.get_beam_search_score (LG.m_sampling_params (LG.self e)) s2) = true)
      result.
Proof.
  intros Hlive Hnan. split; [reflexivity|].
  set (fin := finished_of e (LG.m_sequences (LG.self e))).
  assert (Hscore : forall q, In q fin -> is_nan (score_behind e q) = false).
  { intros q Hq. apply elem_of_finished_of in Hq as [Hin (s & Hs & Hfin)].
    unfold score_behind. rewrite Hs. apply (Hnan q s Hin Hs Hfin). }
  assert (Hswo : strict_weak_order_on (by_descending_score e) fin).
  { apply (strict_weak_order_on_ext _ (fun a b => fgt (score_behind e a) (score_behind e b))).
    - apply by_descending_score_fgt.
    - apply fgt_strict_weak_order. exact Hscore. }
  pose proof (std_sort_Permutation _ _ _ Hswo) as Hperm.
  pose proof (std_sort_sorted _ _ _ Hswo) as Hsorted.
  exists (std_sort (by_descending_score e) fin).
  split; [apply get_finished_sequences_run; exact Hlive|].
  split; [exact Hperm|]. split.
  - intros q. rewrite <- (elem_of_finished_of e (LG.m_sequences (LG.self e)) q).
    rewrite list_elem_of_In. split; apply Permutation_in; [|symmetry]; exact Hperm.
  - eapply StronglySorted_impl_In; [|exact Hsorted].
    intros a b Ha Hb Hcomp. cbv beta in Hcomp.
    apply (Permutation_in _ Hperm) in Ha, Hb.
    pose proof (Hscore a Ha) as Hna. pose proof (Hscore b Hb) as Hnb.
    apply elem_of_finished_of in Ha as [_ (sa & Hsa & _)].
    apply elem_of_finished_of in Hb as [_ (sb & Hsb & _)].
    exists sa, sb. split; [exact Hsa|]. split; [exact Hsb|].
    rewrite by_descending_score_fgt in Hcomp.
    unfold score_behind in Hcomp, Hna, Hnb. rewrite Hsa, Hsb in Hcomp.
    rewrite Hsa in Hna. rewrite Hsb in Hnb.
    apply not_fgt_fge; assumption.
Qed.

(** ** The engine loop of [llm_engine.hpp] *)

Lemma collect_run (g : CG.t) (steps : nat) (i : nat) (acc : list TokenIds) :
  size_fits g ->
  (i + steps <= length (CG.m_sequences g))%nat ->
  GR.collect g steps (Z.of_nat i) acc
  = Some (acc ++ map CS.get_generated_ids (take steps (drop i (CG.m_sequences g)))).
Proof.
  intros Hfit. revert i acc. induction steps as [|steps IH]; intros i acc Hle; simpl.
  - rewrite app_nil_r. reflexivity.
  - unfold CG.at_index. unfold size_of.
    assert (Hlt : (Z.of_nat i <? Z.of_nat (length (CG.m_sequences g))) = true).
    { apply Z.ltb_lt. lia. }
    rewrite Hlt. rewrite Nat2Z.id.
    destruct (CG.m_sequences g !! i) as [s|] eqn:Hs.
    + replace (Z.of_nat i + 1) with (Z.of_nat (S i)) by lia.
      rewrite IH by lia. rewrite <- app_assoc. simpl.
      rewrite (drop_S _ _ _ Hs). reflexivity.
    + apply lookup_ge_None in Hs. lia.
Qed.

Lemma num_finished_le_total (g : CG.t) :
  0 <= CG.num_finished_seqs g <= CG.num_total_seqs g.
Proof.
  unfold CG.num_finished_seqs, CG.num_total_seqs, size_of.
  pose proof (List.filter_length_le CS.has_finished (CG.m_sequences g)). lia.
Qed.

Lemma has_finished_all (g : CG.t) :
  size_fits g -> CG.has_finished g = true ->
  CG.num_finished_seqs g = CG.num_total_seqs g.
Proof.
  intros Hfit Hfin. unfold CG.has_finished, CG.num_running_seqs in Hfin.
  apply Z.eqb_eq in Hfin. pose proof (num_finished_le_total g) as Hle.
  unfold size_fits in Hfit. unfold CG.num_total_seqs in *.
  rewrite wrap64_small in Hfin by lia. lia.
Qed.

(** The result built for a finished group. *)
Lemma from_sequence_group_run (g : CG.t) :
  size_fits g -> CG.has_finished g = true ->
  GR.from_sequence_group g
  = Some {| GR.m_request_id := CG.get_request_id g;
            GR.m_generation_ids := ids_in_group_order g;
            GR.m_cumulative_logprob := fzero |}.
Proof.
  intros Hfit Hfin. unfold GR.from_sequence_group.
  rewrite (has_finished_all g Hfit Hfin). unfold CG.num_total_seqs, size_of.
  rewrite Nat2Z.id.
  pose proof (collect_run g (length (CG.m_sequences g)) 0 [] Hfit ltac:(lia)) as Hrun.
  change (Z.of_nat 0) with 0 in Hrun. rewrite Hrun.
  rewrite drop_0, firstn_all. reflexivity.
Qed.

(** [_free_finished_groups] calls [std::remove_if] and never erases: the
    vector of requests keeps its size. *)
Lemma remove_if_loop_length {A} (moved_from : A -> A) (pred : A -> bool)
    (steps i first : nat) (v : list A) :
  length (remove_if_loop moved_from pred steps i first v) = length v.
Proof.
  revert i first v. induction steps as [|steps IH]; intros i first v; simpl.
  - reflexivity.
  - destruct (v !! i) as [x|]; [|reflexivity].
    destruct (pred x); rewrite IH; [reflexivity|].
    rewrite !length_insert. reflexivity.
Qed.

Lemma std_remove_if_length {A} (moved_from : A -> A) (pred : A -> bool) (v : list A) :
  length (std_remove_if moved_from pred v) = length v.
Proof.
  unfold std_remove_if. destruct (find_if pred v); [|reflexivity].
  apply remove_if_loop_length.
Qed.

Lemma filter_all {A} (f : A -> bool) (l : list A) :
  length (List.filter f l) = length l -> List.filter f l = l.
Proof.
  induction l as [|x l IH]; simpl; [reflexivity|].
  destruct (f x); simpl; intros Hlen.
  - f_equal. apply IH. lia.
  - pose proof (List.filter_length_le f l). lia.
Qed.

Lemma finished_group_all_finished (g : CG.t) :
  size_fits g -> CG.has_finished g = true ->
  List.filter CS.has_finished (CG.m_sequences g) = CG.m_sequences g.
Proof.
  intros Hfit Hfin. apply filter_all.
  pose proof (has_finished_all g Hfit Hfin) as Hall.
  unfold CG.num_finished_seqs, CG.num_total_seqs, size_of in Hall. lia.
Qed.

Section EngineLoop.
Context `{CE.Collaborators} `{CE.MoveSemantics}.

Lemma report_loop_run (requests : list CG.t) (acc : list GR.t) (e : CE.t CE.Components) :
  Forall size_fits requests ->
  fold_each requests acc report_body e
  = Some (acc ++ map report (List.filter CG.has_finished requests), e).
Proof.
  revert acc. induction requests as [|g requests IH]; intros acc Hfit; simpl.
  - unfold ret. rewrite app_nil_r. reflexivity.
  - apply Forall_cons in Hfit as [Hg Hfit]. unfold bind, report_body.
    destruct (CG.has_finished g) eqn:Hfin.
    + rewrite (from_sequence_group_run g Hg Hfin). unfold ret.
      rewrite (IH _ Hfit). simpl. rewrite <- app_assoc. reflexivity.
    + unfold ret. apply (IH _ Hfit).
Qed.

Lemma step_run (e e1 : CE.t CE.Components) :
  run_collaborators e = Some (tt, e1) ->
  Forall size_fits (CE.m_requests e1) ->
  CE.step e
  = Some (map report (List.filter CG.has_finished (CE.m_requests e1)),
          CE.set_requests
            (std_remove_if CE.moved_from CG.has_finished (CE.m_requests e1)) e1).
Proof.
  intros Hrun Hfit. unfold run_collaborators in Hrun.
  apply bind_inv in Hrun as (out & s1 & Hsched & Hrun).
  apply bind_inv in Hrun as ([] & s2 & Hcopy & Hrun).
  apply bind_inv in Hrun as (logits & s3 & Hmodel & Hdecode).
  unfold CE.step.
  rewrite (bind_Some _ _ _ _ _ Hsched), (bind_Some _ _ _ _ _ Hcopy),
          (bind_Some _ _ _ _ _ Hmodel), (bind_Some _ _ _ _ _ Hdecode).
  unfold bind at 1. unfold gets at 1.
  change (fun acc sequence_group => _) with report_body.
  rewrite (bind_Some _ _ _ _ _ (report_loop_run (CE.m_requests e1) [] e1 Hfit)).
  reflexivity.
Qed.

(** C2, as the code has it.  When the scheduler, the cache manager, the
    model runner and the sampler return, [step] returns one result for
    every group that is then finished, in the order of the requests.  The
    result carries the group's request id and the generated ids of every
    sequence of the group, all of which are finished, in the order in
    which the group stores its sequences. *)
Theorem step_reports_ids_in_group_order (e e1 : CE.t CE.Components) :
  run_collaborators e = Some (tt, e1) ->
  Forall size_fits (CE.m_requests e1) ->
  exists results e',
    CE.step e = Some (results, e') /\
    Forall2 (fun g r =>
               GR.m_request_id r = CG.get_request_id g /\
               GR.m_generation_ids r = map CS.get_generated_ids (CG.m_sequences g) /\
               List.filter CS.has_finished (CG.m_sequences g) = CG.m_sequences g)
            (List.filter CG.has_finished (CE.m_requests e1)) results.
Proof.
  intros Hrun Hfit. eexists _, _. split; [apply (step_run e e1 Hrun Hfit)|].
  assert (Hfin : Forall (fun g => size_fits g /\ CG.has_finished g = true)
                        (List.filter CG.has_finished (CE.m_requests e1))).
  { rewrite Forall_forall in Hfit |- *. intros g Hg.
    apply list_elem_of_In, filter_In in Hg as [Hin Hg].
    split; [apply Hfit, list_elem_of_In, Hin|exact Hg]. }
  induction Hfin as [|g l [Hg Hgfin] _ IH]; simpl; constructor.
  - repeat split. apply (finished_group_all_finished g Hg Hgfin).
  - exact IH.
Qed.
End EngineLoop.

(** C2, as stated, fails on both counts: the ids of [two_beams] come in the
    order of the group, in which the better beam is second, and the result
    of [one_beam] carries 0, not the -1 of its sequence. *)
Lemma results_unsorted_and_without_log_prob :
  ~ result_lists_by_descending_score /\ ~ result_carries_log_prob.
Proof.
  split.
  - intros Hclaim.
    destruct (Hclaim two_beams _ eq_refl eq_refl) as (l & Hperm & Hsorted & Hids).
    pose proof (Permutation_length Hperm) as Hlen. simpl in Hlen.
    destruct l as [|a [|b [|c l]]]; try discriminate.
    cbn in Hids. injection Hids as Ha Hb.
    apply StronglySorted_inv in Hsorted as [_ Hab].
    apply Forall_cons in Hab as [Hab _].
    assert (Hin : forall x, In x [a; b] ->
              CS.m_generated_ids x = [1] -> CS.m_cumulative_log_prob x = float_of_Z (-2)).
    { intros x Hx Hone. apply (Permutation_in _ Hperm) in Hx.
      simpl in Hx. destruct Hx as [<-|[<-|[]]]; [reflexivity|discriminate]. }
    assert (Hin' : forall x, In x [a; b] ->
              CS.m_generated_ids x = [2] -> CS.m_cumulative_log_prob x = float_of_Z (-1)).
    { intros x Hx Htwo. apply (Permutation_in _ Hperm) in Hx.
      simpl in Hx. destruct Hx as [<-|[<-|[]]]; [discriminate|reflexivity]. }
    unfold CS.get_beam_search_scope in Hab.
    rewrite (Hin a) in Hab by (simpl; auto || symmetry; auto).
    rewrite (Hin' b) in Hab by (simpl; auto || symmetry; auto).
    vm_compute in Hab. discriminate.
  - intros Hclaim.
    specialize (Hclaim one_beam _ _ eq_refl eq_refl eq_refl).
    vm_compute in Hclaim. discriminate.
Qed.

(** ** [generate] *)

Lemma by_request_id_strict_weak_order (l : list GR.t) :
  strict_weak_order_on by_request_id l.
Proof.
  unfold by_request_id. split.
  - intros x _. apply Z.ltb_irrefl.
  - intros x y z _ _ _ Hxy Hyz. apply Z.ltb_lt in Hxy, Hyz. apply Z.ltb_lt. lia.
  - intros x y z _ _ _ Hxy Hyx Hyz Hzy.
    apply Z.ltb_ge in Hxy, Hyx, Hyz, Hzy. split; apply Z.ltb_ge; lia.
Qed.

Section Generate.
Context `{CE.Collaborators} `{CE.MoveSemantics} `{StdSort}.

(** More fuel does not change what the loop of [generate] returns. *)
Lemma generate_loop_more_fuel (fuel fuel' : nat) (acc : list GR.t)
    (e : CE.t CE.Components) r :
  (fuel <= fuel')%nat ->
  CE.generate_loop fuel acc e = Some r -> CE.generate_loop fuel' acc e = Some r.
Proof.
  revert fuel' acc e. induction fuel as [|fuel IH]; intros fuel' acc e Hle Hrun.
  - destruct fuel' as [|fuel']; [exact Hrun|].
    simpl in *. unfold bind, gets in *.
    destruct (CE.has_unfinished_requests e); [discriminate|exact Hrun].
  - destruct fuel' as [|fuel']; [lia|].
    simpl in *. unfold bind at 1 in Hrun. unfold bind at 1. unfold gets in *.
    destruct (CE.has_unfinished_requests e); [|exact Hrun].
    apply bind_inv in Hrun as (partial & e1 & Hstep & Hrun).
    rewrite (bind_Some _ _ _ _ _ Hstep). apply IH; [lia|exact Hrun].
Qed.

(** C3.  Whenever [generate] returns, with whatever scheduler, model and
    sampler and in whatever order they finish the requests, the vector it
    returns is a rearrangement of the results that its calls of [step]
    collected, in ascending order of [request_id]; and it returns the same
    however many more iterations the loop is allowed. *)
Theorem generate_results_sorted_by_request_id
    (fuel : nat) (prompts : list Tensor) (sampling_params : list SamplingParameters)
    (e e' : CE.t CE.Components) (results : list GR.t) :
  CE.generate fuel prompts sampling_params e = Some (results, e') ->
  StronglySorted (fun r1 r2 => GR.m_request_id r1 <= GR.m_request_id r2) results /\
  (exists e0 collected,
     add_requests prompts sampling_params e = Some (tt, e0) /\
     CE.generate_loop fuel [] e0 = Some (collected, e') /\
     Permutation results collected) /\
  (forall fuel', (fuel <= fuel')%nat ->
     CE.generate fuel' prompts sampling_params e = Some (results, e')).
Proof.
  intros Hrun. unfold CE.generate in Hrun.
  apply bind_inv in Hrun as ([] & e00 & Hassert & Hrun).
  apply bind_inv in Hrun as ([] & e0 & Hadd & Hrun).
  apply bind_inv in Hrun as (collected & e1 & Hloop & Hret).
  inversion Hret; subst results e1; clear Hret.
  unfold OPENVINO_ASSERT in Hassert.
  destruct (size_of prompts =? size_of sampling_params) eqn:Hsize; [|discriminate].
  inversion Hassert; subst e00; clear Hassert.
  pose proof (by_request_id_strict_weak_order collected) as Hswo.
  split; [|split].
  - eapply StronglySorted_impl_In; [|apply (std_sort_sorted _ _ _ Hswo)].
    intros a b _ _ Hcomp. unfold by_request_id in Hcomp.
    apply Z.ltb_ge in Hcomp. exact Hcomp.
  - exists e0, collected. split; [exact Hadd|]. split; [exact Hloop|].
    apply (std_sort_Permutation _ _ _ Hswo).
  - intros fuel' Hle. unfold CE.generate, OPENVINO_ASSERT. rewrite Hsize.
    unfold bind at 1. unfold ret at 1.
    rewrite (bind_Some _ _ _ _ _ Hadd).
    rewrite (bind_Some _ _ _ _ _ (generate_loop_more_fuel _ _ _ _ _ Hle Hloop)).
    reflexivity.
Qed.
End Generate.

(** ** [std::remove_if] without [erase] *)

Lemma find_if_Some {A} (pred : A -> bool) (v : list A) (k : nat) :
  find_if pred v = Some k ->
  exists x, v !! k = Some x /\ pred x = true /\
            List.filter (fun y => negb (pred y)) (take k v) = take k v.
Proof.
  revert k. induction v as [|y v IH]; intros k; simpl; [discriminate|].
  destruct (pred y) eqn:Hy.
  - intros [= <-]. exists y. auto.
  - destruct (find_if pred v) as [i|]; [|discriminate]. intros [= <-].
    destruct (IH i eq_refl) as (x & Hx & Hpx & Hfil).
    exists x. simpl. rewrite Hy. simpl. rewrite Hfil. auto.
Qed.

Lemma find_if_None {A} (pred : A -> bool) (v : list A) :
  find_if pred v = None -> List.filter (fun y => negb (pred y)) v = v.
Proof.
  induction v as [|y v IH]; simpl; [reflexivity|].
  destruct (pred y); [discriminate|].
  destruct (find_if pred v); [discriminate|]. intros _. simpl. f_equal. auto.
Qed.

Lemma filter_take_S {A} (f : A -> bool) (v : list A) (i : nat) (x : A) :
  v !! i = Some x ->
  List.filter f (take (S i) v) = List.filter f (take i v) ++ (if f x then [x] else []).
Proof.
  intros Hx. rewrite (take_S_r _ _ _ Hx). rewrite List.filter_app. reflexivity.
Qed.

Lemma drop_S_eq {A} (v v0 : list A) (i : nat) :
  drop i v = drop i v0 -> drop (S i) v = drop (S i) v0.
Proof.
  intros H. replace (S i) with (i + 1)%nat by lia.
  rewrite <- !drop_drop. rewrite H. reflexivity.
Qed.

(** What the loop maintains: the elements kept so far sit in front, and the
    part not yet read is as it was. *)
Lemma remove_if_loop_spec {A} (moved_from : A -> A) (pred : A -> bool) (v0 : list A) :
  forall (steps i first : nat) (v : list A),
    (first < i)%nat -> (i + steps = length v0)%nat -> length v = length v0 ->
    take first v = List.filter (fun y => negb (pred y)) (take i v0) ->
    drop i v = drop i v0 ->
    take (remove_if_loop_end pred steps i first v0)
         (remove_if_loop moved_from pred steps i first v)
      = List.filter (fun y => negb (pred y)) v0 /\
    remove_if_loop_end pred steps i first v0
      = length (List.filter (fun y => negb (pred y)) v0).
Proof.
  induction steps as [|steps IH]; intros i first v Hlt Hsteps Hlen Htake Hdrop; simpl.
  - assert (i = length v0) as -> by lia. rewrite firstn_all in Htake.
    split; [exact Htake|]. rewrite <- Htake. rewrite length_take. lia.
  - destruct (v0 !! i) as [x|] eqn:Hx0; [|apply lookup_ge_None in Hx0; lia].
    assert (Hx : v !! i = Some x).
    { pose proof (lookup_drop v i 0) as H1. pose proof (lookup_drop v0 i 0) as H2.
      rewrite Nat.add_0_r in H1, H2. rewrite <- H1, Hdrop, H2. exact Hx0. }
    rewrite Hx. destruct (pred x) eqn:Hpx.
    + apply IH; try lia.
      * rewrite (filter_take_S _ _ _ _ Hx0), Hpx. simpl. rewrite app_nil_r. exact Htake.
      * apply drop_S_eq. exact Hdrop.
    + apply IH; try lia.
      * rewrite !length_insert. exact Hlen.
      * rewrite (filter_take_S _ _ _ _ Hx0), Hpx. simpl. rewrite <- Htake.
        rewrite take_insert_ge by lia.
        assert (Hf : (first < length v)%nat) by lia.
        destruct (lookup_lt_is_Some_2 v first Hf) as [y Hy].
        rewrite (take_S_r (<[first:=x]> v) first x).
        -- rewrite take_insert_ge by lia. reflexivity.
        -- apply list_lookup_insert_eq. exact Hf.
      * rewrite drop_insert_lt by lia. rewrite drop_insert_lt by lia.
        apply drop_S_eq. exact Hdrop.
Qed.

Lemma std_remove_if_spec {A} (moved_from : A -> A) (pred : A -> bool) (v : list A) :
  length (std_remove_if moved_from pred v) = length v /\
  std_remove_if_end pred v = length (List.filter (fun y => negb (pred y)) v) /\
  take (std_remove_if_end pred v) (std_remove_if moved_from pred v)
    = List.filter (fun y => negb (pred y)) v.
Proof.
  split; [apply std_remove_if_length|].
  unfold std_remove_if, std_remove_if_end.
  destruct (find_if pred v) as [first|] eqn:Hfind.
  - destruct (find_if_Some pred v first Hfind) as (x & Hx & Hpx & Hfil).
    pose proof (lookup_lt_Some _ _ _ Hx) as Hlt.
    destruct (remove_if_loop_spec moved_from pred v (length v - S first) (S first) first v)
      as [Htake Hend]; try lia; try reflexivity.
    + rewrite (filter_take_S _ _ _ _ Hx), Hpx. simpl. rewrite app_nil_r. symmetry. exact Hfil.
    + split; [exact Hend|exact Htake].
  - rewrite (find_if_None pred v Hfind). split; [reflexivity|apply firstn_all].
Qed.

Lemma remove_if_loop_all_removed {A} (moved_from : A -> A) (pred : A -> bool)
    (steps i first : nat) (v : list A) :
  Forall (fun x => pred x = true) (drop i v) ->
  remove_if_loop moved_from pred steps i first v = v.
Proof.
  revert i. induction steps as [|steps IH]; intros i Hall; simpl; [reflexivity|].
  destruct (v !! i) as [x|] eqn:Hx; [|reflexivity].
  rewrite (drop_S _ _ _ Hx) in Hall. apply Forall_cons in Hall as [Hpx Hall].
  rewrite Hpx. apply IH. exact Hall.
Qed.

Lemma std_remove_if_partitioned {A} (moved_from : A -> A) (pred : A -> bool)
    (kept removed : list A) :
  Forall (fun x => pred x = false) kept ->
  Forall (fun x => pred x = true) removed ->
  std_remove_if moved_from pred (kept ++ removed) = kept ++ removed.
Proof.
  intros Hkept Hremoved. unfold std_remove_if.
  destruct (find_if pred (kept ++ removed)) as [first|] eqn:Hfind; [|reflexivity].
  apply remove_if_loop_all_removed.
  destruct (find_if_Some pred _ first Hfind) as (x & Hx & Hpx & _).
  assert (Hge : (length kept <= first)%nat).
  { destruct (Nat.le_gt_cases (length kept) first) as [Hle|Hgt]; [exact Hle|].
    rewrite lookup_app_l in Hx by exact Hgt.
    rewrite Forall_forall in Hkept.
    rewrite (Hkept x) in Hpx; [discriminate|]. eapply list_elem_of_lookup_2. exact Hx. }
  rewrite drop_app_ge by lia.
  apply Forall_drop. exact Hremoved.
Qed.

Section FreeFinishedGroups.
Context `{CE.Collaborators} `{CE.MoveSemantics}.

(** X1.  [_free_finished_groups] never shrinks the vector of requests; it
    moves the groups that have not finished to the front, in their order. *)
Theorem free_finished_groups_keeps_size (e : CE.t CE.Components) :
  exists e',
    CE._free_finished_groups e = Some (tt, e') /\
    CE.m_components e' = CE.m_components e /\
    CE.m_counter e' = CE.m_counter e /\
    length (CE.m_requests e') = length (CE.m_requests e) /\
    take (length (List.filter (fun g => negb (CG.has_finished g)) (CE.m_requests e)))
         (CE.m_requests e')
      = List.filter (fun g => negb (CG.has_finished g)) (CE.m_requests e).
Proof.
  eexists. split; [reflexivity|]. cbn.
  destruct (std_remove_if_spec CE.moved_from CG.has_finished (CE.m_requests e))
    as (Hlen & Hend & Htake).
  repeat split; [exact Hlen|]. rewrite <- Hend. exact Htake.
Qed.

(** X2.  When no unfinished group comes after a finished one,
    [_free_finished_groups] changes nothing: the finished groups stay in the
    vector of requests. *)
Theorem free_finished_groups_keeps_finished_tail
    (e : CE.t CE.Components) (running finished : list CG.t) :
  CE.m_requests e = running ++ finished ->
  Forall (fun g => CG.has_finished g = false) running ->
  Forall (fun g => CG.has_finished g = true) finished ->
  CE._free_finished_groups e = Some (tt, e).
Proof.
  intros Hreq Hrunning Hfinished. unfold CE._free_finished_groups, modify.
  rewrite Hreq, (std_remove_if_partitioned _ _ _ _ Hrunning Hfinished), <- Hreq.
  destruct e. reflexivity.
Qed.
End FreeFinishedGroups.

Lemma filter_short_Exists {A} (pred : A -> bool) (v : list A) :
  length (List.filter (fun y => negb (pred y)) v) <> length v ->
  Exists (fun x => pred x = true) v.
Proof.
  induction v as [|x v IH]; simpl; [congruence|].
  destruct (pred x) eqn:Hx; simpl; intros Hne.
  - apply Exists_cons_hd. exact Hx.
  - apply Exists_cons_tl. apply IH. lia.
Qed.

(** X3.  [remove_sequence] of the continuous-batching header throws exactly
    when no sequence carries the identifier; otherwise it returns with as
    many sequences as before, the other sequences moved to the front. *)
Theorem remove_sequence_never_erases `{ContinuousBatching.SequenceGroup.SequenceMoveSemantics}
    (sequence_id : Z) (g : CG.t) :
  match CG.remove_sequence sequence_id g with
  | Some (_, g') =>
      Exists (fun s => CS.get_id s = sequence_id) (CG.m_sequences g) /\
      CG.num_total_seqs g' = CG.num_total_seqs g /\
      exists others,
        others = List.filter (fun s => negb (CS.get_id s =? sequence_id)) (CG.m_sequences g) /\
        take (length others) (CG.m_sequences g') = others
  | None => Forall (fun s => CS.get_id s <> sequence_id) (CG.m_sequences g)
  end.
Proof.
  unfold CG.remove_sequence, bind, gets, modify, OPENVINO_ASSERT, ret, throw.
  destruct (std_remove_if_spec CG.moved_from_sequence
              (fun seq => CS.get_id seq =? sequence_id) (CG.m_sequences g))
    as (Hlen & Hend & Htake).
  destruct (Nat.eqb _ _) eqn:Hall; simpl.
  - apply Nat.eqb_eq in Hall. rewrite Hend in Hall.
    apply filter_all in Hall. rewrite Forall_forall. intros s Hs.
    assert (Hin : In s (List.filter (fun s => negb (CS.get_id s =? sequence_id))
                                    (CG.m_sequences g))).
    { rewrite Hall. apply list_elem_of_In. exact Hs. }
    apply filter_In in Hin as [_ Hne]. apply negb_true_iff, Z.eqb_neq in Hne. exact Hne.
  - apply Nat.eqb_neq in Hall. rewrite Hend in Hall. split; [|split].
    + apply filter_short_Exists in Hall.
      eapply Exists_impl; [exact Hall|]. intros s Hs. apply Z.eqb_eq. exact Hs.
    + unfold CG.num_total_seqs, size_of. cbn. rewrite Hlen. reflexivity.
    + eexists. split; [reflexivity|]. cbn. rewrite <- Hend. exact Htake.
Qed.

(** ** Groups and results of the continuous-batching header *)

Lemma all_finished_count (v : list CS.t) :
  Forall (fun s => CS.has_finished s = true) v ->
  List.filter CS.has_finished v = v.
Proof.
  induction v as [|s v IH]; intros Hall; simpl; [reflexivity|].
  apply Forall_cons in Hall as [Hs Hall]. rewrite Hs. f_equal. auto.
Qed.

(** X4.  A group has finished exactly when every one of its sequences has; a
    group without sequences counts as finished. *)
Theorem group_finished_iff_all_sequences_finished (g : CG.t) :
  size_fits g ->
  CG.has_finished g = true <->
  Forall (fun s => CS.has_finished s = true) (CG.m_sequences g).
Proof.
  intros Hfit. split.
  - intros Hfin. rewrite <- (finished_group_all_finished g Hfit Hfin).
    rewrite Forall_forall. intros s Hs. apply list_elem_of_In, filter_In in Hs. tauto.
  - intros Hall. unfold CG.has_finished, CG.num_running_seqs, CG.num_finished_seqs,
      CG.num_total_seqs. rewrite (all_finished_count _ Hall).
    rewrite Z.sub_diag. reflexivity.
Qed.

(** X5.  [from_sequence_group] never throws; it reports the ids of the first
    [k] sequences of the group, where [k] is the number of finished
    sequences, whichever sequences those first [k] are. *)
Theorem from_sequence_group_reports_a_prefix (g : CG.t) :
  size_fits g ->
  GR.from_sequence_group g
  = Some {| GR.m_request_id := CG.get_request_id g;
            GR.m_generation_ids :=
              map CS.get_generated_ids
                  (take (length (List.filter CS.has_finished (CG.m_sequences g)))
                        (CG.m_sequences g));
            GR.m_cumulative_logprob := fzero |}.
Proof.
  intros Hfit. unfold GR.from_sequence_group, CG.num_finished_seqs, size_of.
  rewrite Nat2Z.id.
  pose proof (List.filter_length_le CS.has_finished (CG.m_sequences g)) as Hle.
  pose proof (collect_run g (length (List.filter CS.has_finished (CG.m_sequences g)))
                0 [] Hfit ltac:(lia)) as Hrun.
  change (Z.of_nat 0) with 0 in Hrun. rewrite Hrun. rewrite drop_0. reflexivity.
Qed.

Section Requests.
Context `{CE.Collaborators} `{CE.MoveSemantics} `{StdSort}.

(** X6.  [add_request] always returns; it appends one group with the given
    request id and one waiting sequence that takes the next identifier, and
    the engine then has an unfinished request. *)
Theorem add_request_appends_unfinished_group
    (request_id : Z) (input_ids : TokenIds) (sampling_params : SamplingParameters)
    (e : CE.t CE.Components) :
  exists e' g s,
    CE.add_request request_id input_ids sampling_params e = Some (tt, e') /\
    CE.add_request_tensor request_id input_ids sampling_params e = Some (tt, e') /\
    CE.m_requests e' = CE.m_requests e ++ [g] /\
    CE.m_counter e' = wrap64 (CE.m_counter e + 1) /\
    CE.m_components e' = CE.m_components e /\
    CG.get_request_id g = request_id /\
    CG.m_sequences g = [s] /\ CS.get_id s = CE.m_counter e /\
    CS.has_finished s = false /\
    CE.has_unfinished_requests e' = true.
Proof.
  eexists _, _, _. split; [reflexivity|]. split; [reflexivity|]. cbn.
  repeat split.
  unfold CE.has_unfinished_requests. cbn. rewrite existsb_app. cbn.
  apply orb_true_r.
Qed.

(** X7.  [generate] throws whenever the number of prompts differs from the
    number of sampling parameters. *)
Theorem generate_rejects_mismatched_sizes
    (fuel : nat) (prompts : list Tensor) (sampling_params : list SamplingParameters)
    (e : CE.t CE.Components) :
  length prompts <> length sampling_params ->
  CE.generate fuel prompts sampling_params e = None.
Proof.
  intros Hne. unfold CE.generate, OPENVINO_ASSERT, size_of.
  assert (Hsize : (Z.of_nat (length prompts) =? Z.of_nat (length sampling_params)) = false).
  { apply Z.eqb_neq. lia. }
  rewrite Hsize. reflexivity.
Qed.

(** X8.  With no prompts and no unfinished request, [generate] returns the
    empty vector without a step and leaves the engine as it is. *)
Theorem generate_without_work_returns_nothing (fuel : nat) (e : CE.t CE.Components) :
  CE.has_unfinished_requests e = false ->
  CE.generate fuel [] [] e = Some ([], e).
Proof.
  intros Hnone.
  assert (Hloop : CE.generate_loop fuel [] e = Some ([], e)).
  { destruct fuel; simpl; unfold bind, gets; rewrite Hnone; reflexivity. }
  unfold CE.generate, bind, OPENVINO_ASSERT, ret. simpl. rewrite Hloop. do 2 f_equal.
  apply Permutation_nil.
  symmetry. apply std_sort_Permutation. apply by_request_id_strict_weak_order.
Qed.
End Requests.

(** X9.  In the two older headers, preempting [k] tokens and processing [k]
    tokens again restores the three counters: [max_content_len] is a
    high-water mark there. *)
Theorem older_headers_recompute_restores_counters (k : Z) :
  (forall g : CG.t,
     0 <= k <= CG.m_num_processed_tokens g ->
     CG.m_num_processed_tokens g <= CG.m_max_content_len g < 2 ^ 64 ->
     (CG.preempt_tokens k ;;; CG.schedule_tokens k ;;; CG.finish_iteration) g
     = Some (tt, CG.set_counters (CG.m_num_processed_tokens g) 0
                   (CG.m_max_content_len g) g)) /\
  (forall g : LlmEngineLib.SequenceGroup.t,
     0 <= k <= LlmEngineLib.SequenceGroup.m_num_processed_tokens g ->
     LlmEngineLib.SequenceGroup.m_num_processed_tokens g
       <= LlmEngineLib.SequenceGroup.m_max_content_len g < 2 ^ 64 ->
     (LlmEngineLib.SequenceGroup.preempt_tokens k ;;;
      LlmEngineLib.SequenceGroup.schedule_tokens k ;;;
      LlmEngineLib.SequenceGroup.finish_iteration) g
     = Some (tt, LlmEngineLib.SequenceGroup.set_counters
                   (LlmEngineLib.SequenceGroup.m_num_processed_tokens g) 0
                   (LlmEngineLib.SequenceGroup.m_max_content_len g) g)).
Proof.
  split; intros g Hk Hp.
  - unfold CG.preempt_tokens, CG.schedule_tokens, CG.finish_iteration,
      bind, gets, modify, OPENVINO_ASSERT, ret.
    destruct Hk as [Hk0 Hkp]. apply Z.leb_le in Hkp. rewrite Hkp. apply Z.leb_le in Hkp.
    cbn. rewrite (wrap64_small (_ - k)) by lia.
    replace (CG.m_num_processed_tokens g - k + k) with (CG.m_num_processed_tokens g) by lia.
    rewrite wrap64_small by lia. rewrite Z.max_l by lia. reflexivity.
  - unfold LlmEngineLib.SequenceGroup.preempt_tokens, LlmEngineLib.SequenceGroup.schedule_tokens,
      LlmEngineLib.SequenceGroup.finish_iteration, bind, gets, modify, OPENVINO_ASSERT, ret.
    destruct Hk as [Hk0 Hkp]. apply Z.leb_le in Hkp. rewrite Hkp. apply Z.leb_le in Hkp.
    cbn. rewrite (wrap64_small (_ - k)) by lia.
    replace (LlmEngineLib.SequenceGroup.m_num_processed_tokens g - k + k)
      with (LlmEngineLib.SequenceGroup.m_num_processed_tokens g) by lia.
    rewrite wrap64_small by lia. rewrite Z.max_l by lia. reflexivity.
Qed.

(** ** The library's group: verdicts, forks and batches *)

(** A loop that reads one value from each sequence and folds it into a
    local variable leaves the environment as it is. *)
Lemma fold_read_run {B C} (e : LG.Env) (f : LS.t -> C) (step : B -> LS.Ptr -> C -> B)
    (v : list LS.Ptr) (acc : B) :
  Forall (fun p => is_Some (seq_heap e !! p)) v ->
  fold_each v acc (fun acc q => c <- LG.seq_call q (gets f) ;; ret (step acc q c)) e
  = Some (foldl (fun acc q => match seq_heap e !! q with
                              | Some s => step acc q (f s)
                              | None => acc
                              end) acc v, e).
Proof.
  revert acc. induction v as [|q v IH]; intros acc Hlive; simpl; [reflexivity|].
  apply Forall_cons in Hlive as [[s Hs] Hlive].
  unfold bind at 1. unfold bind at 1.
  rewrite (seq_call_gets q f e s Hs). unfold ret at 1.
  rewrite (IH _ Hlive). rewrite Hs. reflexivity.
Qed.

Lemma foldl_count (e : LG.Env) (v : list LS.Ptr) (n : Z) :
  foldl (fun acc q => match seq_heap e !! q with
                      | Some s => if LS.has_finished s then acc + 1 else acc
                      | None => acc
                      end) n v
  = n + Z.of_nat (length (finished_of e v)).
Proof.
  revert n. induction v as [|q v IH]; intros n; simpl; [lia|].
  rewrite IH. destruct (seq_heap e !! q) as [s|]; [|reflexivity].
  destruct (LS.has_finished s); simpl; lia.
Qed.

Lemma foldl_collect (e : LG.Env) (f : LS.t -> bool) (v acc : list LS.Ptr) :
  foldl (fun acc q => match seq_heap e !! q with
                      | Some s => if f s then acc ++ [q] else acc
                      | None => acc
                      end) acc v
  = acc ++ List.filter (fun q => match seq_heap e !! q with
                                 | Some s => f s
                                 | None => false
                                 end) v.
Proof.
  revert acc. induction v as [|q v IH]; intros acc; simpl; [symmetry; apply app_nil_r|].
  rewrite IH. destruct (seq_heap e !! q) as [s|]; [|reflexivity].
  destruct (f s); [rewrite <- app_assoc|]; reflexivity.
Qed.

Lemma num_finished_seqs_run (e : LG.Env) :
  Forall (fun p => is_Some (seq_heap e !! p)) (LG.m_sequences (LG.self e)) ->
  LG.num_finished_seqs e
  = Some (Z.of_nat (length (finished_of e (LG.m_sequences (LG.self e)))), e).
Proof.
  intros Hlive. unfold LG.num_finished_seqs, LG.this. unfold bind at 1. unfold gets at 1.
  rewrite (fold_read_run e LS.has_finished (fun n _ (fin : bool) => if fin then n + 1 else n)
             _ 0 Hlive).
  rewrite foldl_count. reflexivity.
Qed.

Lemma num_running_seqs_run (e : LG.Env) :
  Forall (fun p => is_Some (seq_heap e !! p)) (LG.m_sequences (LG.self e)) ->
  size_of (LG.m_sequences (LG.self e)) < 2 ^ 64 ->
  LG.num_running_seqs e
  = Some (Z.of_nat (length (LG.m_sequences (LG.self e)))
          - Z.of_nat (length (finished_of e (LG.m_sequences (LG.self e)))), e).
Proof.
  intros Hlive Hfit. unfold LG.num_running_seqs, LG.this. unfold bind at 1. unfold gets at 1.
  rewrite (bind_Some _ _ _ _ _ (num_finished_seqs_run e Hlive)). unfold ret.
  pose proof (List.filter_length_le
                (fun q => match seq_heap e !! q with
                          | Some s => LS.has_finished s
                          | None => false
                          end) (LG.m_sequences (LG.self e))) as Hle.
  fold (finished_of e (LG.m_sequences (LG.self e))) in Hle.
  unfold LG.num_total_seqs. unfold size_of in *. rewrite wrap64_small by lia. reflexivity.
Qed.

Lemma has_finished_run (e : LG.Env) :
  Forall (fun p => is_Some (seq_heap e !! p)) (LG.m_sequences (LG.self e)) ->
  size_of (LG.m_sequences (LG.self e)) < 2 ^ 64 ->
  LG.has_finished e
  = Some (Nat.eqb (length (finished_of e (LG.m_sequences (LG.self e))))
                  (length (LG.m_sequences (LG.self e))), e).
Proof.
  intros Hlive Hfit. unfold LG.has_finished.
  rewrite (bind_Some _ _ _ _ _ (num_running_seqs_run e Hlive Hfit)). unfold ret.
  do 2 f_equal.
  destruct (Nat.eqb_spec (length (finished_of e (LG.m_sequences (LG.self e))))
                         (length (LG.m_sequences (LG.self e)))) as [Heq|Hne].
  - apply Z.eqb_eq. lia.
  - apply Z.eqb_neq. lia.
Qed.

(** X10.  A group of the library header has finished exactly when every one
    of its sequences has, [is_running] is the negation, and neither call
    changes anything. *)
Theorem library_group_finished_iff_all_sequences_finished (e : LG.Env) :
  Forall (fun p => is_Some (seq_heap e !! p)) (LG.m_sequences (LG.self e)) ->
  size_of (LG.m_sequences (LG.self e)) < 2 ^ 64 ->
  exists b,
    LG.has_finished e = Some (b, e) /\
    LG.is_running e = Some (negb b, e) /\
    (b = true <->
     forall q, q ∈ LG.m_sequences (LG.self e) ->
       exists s, seq_heap e !! q = Some s /\ LS.has_finished s = true).
Proof.
  intros Hlive Hfit. eexists. split; [apply (has_finished_run e Hlive Hfit)|].
  split.
  { unfold LG.is_running. rewrite (bind_Some _ _ _ _ _ (has_finished_run e Hlive Hfit)).
    reflexivity. }
  rewrite Nat.eqb_eq. split.
  - intros Hall q Hq. apply filter_all in Hall.
    apply (elem_of_finished_of e (LG.m_sequences (LG.self e)) q).
    unfold finished_of in *. rewrite Hall. apply list_elem_of_In. exact Hq.
  - intros Hall. f_equal. unfold finished_of.
    apply forallb_filter_id. apply forallb_forall. intros q Hq.
    destruct (Hall q) as (s & Hs & Hfin); [apply list_elem_of_In; exact Hq|].
    rewrite Hs. exact Hfin.
Qed.

Lemma fork_sequence_run (src : LS.Ptr) (e : LG.Env) (s : LS.t) :
  seq_heap e !! src = Some s ->
  LS.m_id s <> LS.m_counter (Library.sequences (LG.world e)) ->
  LG.fork_sequence src e
  = Some (length (seq_heap e),
          LG.set_self
            (LG.set_sequences_vec (LG.m_sequences (LG.self e) ++ [length (seq_heap e)])
               (LG.self e))
            (LG.set_world
               (Library.set_sequences
                  {| LS.m_counter := wrap64 (LS.m_counter (Library.sequences (LG.world e)) + 1);
                     LS.heap := seq_heap e
                                ++ [forked_from s (LS.m_counter (Library.sequences (LG.world e)))
                                      (LG.m_generation_stream (LG.self e))] |}
                  (LG.world e)) e)).
Proof.
  intros Hs Hne. unfold LG.fork_sequence, LG.this. unfold bind at 1. unfold gets at 1.
  assert (Hcall : LS.call src (gets (fun s => s)) (Library.sequences (LG.world e))
                  = Some (s, Library.sequences (LG.world e))).
  { unfold LS.call, zoom. unfold seq_heap in Hs. rewrite (at_ptr_gets _ _ _ _ Hs).
    destruct (Library.sequences (LG.world e)); reflexivity. }
  unfold LG.in_sequences, zoom, LS.fork. unfold bind at 1. unfold bind at 1.
  rewrite Hcall.
  unfold LS.new_from, LS._get_next_sequence_id, bind, OPENVINO_ASSERT, ret, throw.
  apply Z.eqb_neq in Hne. rewrite Hne. reflexivity.
Qed.

(** X11.  [fork_sequence] allocates one new sequence, appends it to the group
    and returns it.  The child has the parent's tokens, status and
    cumulative log-probability, the parent's id as its parent id, the
    group's stream, and the next id of the counter; all older objects stay
    as they are. *)
Theorem fork_sequence_copies_the_parent (src : LS.Ptr) (e : LG.Env) (s : LS.t) :
  seq_heap e !! src = Some s ->
  LS.m_id s <> LS.m_counter (Library.sequences (LG.world e)) ->
  exists e' child,
    LG.fork_sequence src e = Some (length (seq_heap e), e') /\
    seq_heap e' = seq_heap e ++ [child] /\
    LG.m_sequences (LG.self e') = LG.m_sequences (LG.self e) ++ [length (seq_heap e)] /\
    LS.m_generated_ids child = LS.m_generated_ids s /\
    LS.m_status child = LS.m_status s /\
    LS.m_cumulative_log_prob child = LS.m_cumulative_log_prob s /\
    LS.m_parent_id child = LS.m_id s /\
    LS.m_id child = LS.m_counter (Library.sequences (LG.world e)) /\
    LS.m_generation_stream child = LG.m_generation_stream (LG.self e) /\
    LS.m_counter (Library.sequences (LG.world e'))
    = wrap64 (LS.m_counter (Library.sequences (LG.world e)) + 1).
Proof.
  intros Hs Hne. eexists _, _. split; [apply (fork_sequence_run src e s Hs Hne)|].
  repeat split.
Qed.

(** X12.  Parent and child do not share their tokens: appending to the one
    after the fork leaves the other as it was. *)
Theorem forked_sequences_are_independent (src : LS.Ptr) (e : LG.Env) (s : LS.t)
    (token_id : Z) (log_prob : float) :
  seq_heap e !! src = Some s ->
  LS.m_id s <> LS.m_counter (Library.sequences (LG.world e)) ->
  exists child e1 e2 e3 c,
    LG.fork_sequence src e = Some (child, e1) /\
    seq_heap e1 !! child = Some c /\
    LG.seq_call child (LS.append_token token_id log_prob) e1 = Some (tt, e2) /\
    seq_heap e2 !! src = Some s /\
    (exists c', seq_heap e2 !! child = Some c' /\
       LS.m_generated_ids c' = LS.m_generated_ids s ++ [token_id]) /\
    LG.seq_call src (LS.append_token token_id log_prob) e1 = Some (tt, e3) /\
    seq_heap e3 !! child = Some c /\
    (exists s', seq_heap e3 !! src = Some s' /\
       LS.m_generated_ids s' = LS.m_generated_ids s ++ [token_id]).
Proof.
  intros Hs Hne.
  pose proof (lookup_lt_Some _ _ _ Hs) as Hlt.
  pose proof (fork_sequence_run src e s Hs Hne) as Hfork.
  set (c := forked_from s (LS.m_counter (Library.sequences (LG.world e)))
              (LG.m_generation_stream (LG.self e))) in *.
  match type of Hfork with _ = Some (_, ?x) => set (e1 := x) in * end.
  assert (Hheap : seq_heap e1 = seq_heap e ++ [c]) by reflexivity.
  assert (Hc : seq_heap e1 !! length (seq_heap e) = Some c).
  { rewrite Hheap. rewrite lookup_app_r by lia. rewrite Nat.sub_diag. reflexivity. }
  assert (Hsrc : seq_heap e1 !! src = Some s).
  { rewrite Hheap. rewrite lookup_app_l by exact Hlt. exact Hs. }
  assert (Hlen : length (seq_heap e1) = S (length (seq_heap e))).
  { rewrite Hheap, length_app. cbn. lia. }
  eexists _, e1, _, _, c.
  split; [exact Hfork|].
  split; [exact Hc|].
  split; [apply (seq_call_Some _ _ _ c tt _ Hc eq_refl)|].
  split.
  { rewrite seq_heap_with_heap. rewrite list_lookup_insert_ne by lia. exact Hsrc. }
  split.
  { eexists. split.
    - rewrite seq_heap_with_heap. apply list_lookup_insert_eq. lia.
    - reflexivity. }
  split; [apply (seq_call_Some _ _ _ s tt _ Hsrc eq_refl)|].
  split.
  { rewrite seq_heap_with_heap. rewrite list_lookup_insert_ne by lia. exact Hc. }
  eexists. split.
  - rewrite seq_heap_with_heap. apply list_lookup_insert_eq. lia.
  - reflexivity.
Qed.

Lemma append_tokens_run (new : list (Z * float)) (s : LS.t) :
  for_each new (fun '(token_id, log_prob) => LS.append_token token_id log_prob) s
  = Some (tt, {| LS.m_generated_ids := LS.m_generated_ids s ++ map fst new;
                 LS.m_parent_id := LS.m_parent_id s;
                 LS.m_id := LS.m_id s;
                 LS.m_status := LS.m_status s;
                 LS.m_cumulative_log_prob :=
                   foldl fadd (LS.m_cumulative_log_prob s) (map snd new);
                 LS.m_generation_stream := LS.m_generation_stream s |}).
Proof.
  revert s. induction new as [|[token_id log_prob] new IH]; intros s; simpl.
  - rewrite app_nil_r. destruct s; reflexivity.
  - unfold bind. unfold LS.append_token at 1, modify. rewrite IH. cbn.
    rewrite <- app_assoc. reflexivity.
Qed.

(** X13.  Removing as many tokens as were just appended restores the
    generated ids and keeps the identifiers and the status of the sequence,
    but not the cumulative log-probability, which keeps the
    log-probabilities of the removed tokens. *)
Theorem remove_tokens_undoes_append_except_log_prob (new : list (Z * float)) (s : LS.t) :
  exists s',
    append_then_remove new s = Some (tt, s') /\
    LS.m_generated_ids s' = LS.m_generated_ids s /\
    LS.m_id s' = LS.m_id s /\
    LS.m_parent_id s' = LS.m_parent_id s /\
    LS.m_status s' = LS.m_status s /\
    LS.m_cumulative_log_prob s'
    = foldl fadd (LS.m_cumulative_log_prob s) (map snd new).
Proof.
  unfold append_then_remove.
  rewrite (bind_Some _ _ _ _ _ (append_tokens_run new s)).
  unfold LS.remove_tokens, bind, gets, OPENVINO_ASSERT, modify, ret.
  unfold LS.get_generated_len, size_of. cbn.
  rewrite length_app, length_map.
  assert (Hle : (Z.of_nat (length new)
                 <=? Z.of_nat (length (LS.m_generated_ids s) + length new)) = true)
    by (apply Z.leb_le; lia).
  rewrite Hle. eexists. split; [reflexivity|]. cbn.
  split; [|repeat split].
  replace (Z.to_nat (Z.of_nat (length (LS.m_generated_ids s) + length new)
                     - Z.of_nat (length new)))
    with (length (LS.m_generated_ids s)) by lia.
  apply take_app_length.
Qed.

Lemma get_running_sequences_run (e : LG.Env) :
  Forall (fun p => is_Some (seq_heap e !! p)) (LG.m_sequences (LG.self e)) ->
  LG.get_running_sequences e = Some (running_of e (LG.m_sequences (LG.self e)), e).
Proof.
  intros Hlive. unfold LG.get_running_sequences, LG.this. unfold bind at 1. unfold gets at 1.
  rewrite (fold_read_run e LS.is_running
             (fun acc q (run : bool) => if run then acc ++ [q] else acc) _ [] Hlive).
  rewrite (foldl_collect e LS.is_running). reflexivity.
Qed.

Lemma is_running_negb (s : LS.t) : LS.is_running s = negb (LS.has_finished s).
Proof. unfold LS.is_running, LS.has_finished. destruct (LS.m_status s); reflexivity. Qed.

Lemma running_finished_length (e : LG.Env) (v : list LS.Ptr) :
  Forall (fun p => is_Some (seq_heap e !! p)) v ->
  (length (running_of e v) + length (finished_of e v) = length v)%nat.
Proof.
  induction v as [|q v IH]; intros Hlive; [reflexivity|].
  apply Forall_cons in Hlive as [[s Hs] Hlive]. specialize (IH Hlive).
  unfold running_of, finished_of in *. simpl. rewrite Hs, is_running_negb.
  destruct (LS.has_finished s); simpl; lia.
Qed.

(** X14.  [get_running_sequences] returns the group's running sequences in
    the order of the group and changes nothing; [num_running_seqs], which
    subtracts the finished ones from the total, is their number; and every
    sequence of the group is either among them or finished. *)
Theorem running_sequences_in_group_order (e : LG.Env) :
  Forall (fun p => is_Some (seq_heap e !! p)) (LG.m_sequences (LG.self e)) ->
  size_of (LG.m_sequences (LG.self e)) < 2 ^ 64 ->
  LG.get_running_sequences e = Some (running_of e (LG.m_sequences (LG.self e)), e) /\
  LG.num_running_seqs e = Some (size_of (running_of e (LG.m_sequences (LG.self e))), e) /\
  (forall q, In q (running_of e (LG.m_sequences (LG.self e))) <->
     q ∈ LG.m_sequences (LG.self e) /\
     exists s, seq_heap e !! q = Some s /\ LS.m_status s = Library.RUNNING) /\
  (forall q, q ∈ LG.m_sequences (LG.self e) ->
     In q (running_of e (LG.m_sequences (LG.self e)))
     \/ In q (finished_of e (LG.m_sequences (LG.self e)))).
Proof.
  intros Hlive Hfit.
  assert (Hin : forall q, In q (running_of e (LG.m_sequences (LG.self e))) <->
            q ∈ LG.m_sequences (LG.self e) /\
            exists s, seq_heap e !! q = Some s /\ LS.m_status s = Library.RUNNING).
  { intros q. unfold running_of. rewrite filter_In, list_elem_of_In.
    destruct (seq_heap e !! q) as [s|].
    - unfold LS.is_running. split.
      + intros [Hq Hrun]. split; [exact Hq|]. exists s. split; [reflexivity|].
        destruct (LS.m_status s); [reflexivity|discriminate].
      + intros [Hq (s' & Hs' & Hrun)]. inversion Hs'; subst s'. rewrite Hrun. auto.
    - split; [intros [_ ?]; discriminate|intros [_ (s' & ? & _)]; discriminate]. }
  split; [apply (get_running_sequences_run e Hlive)|].
  split.
  { rewrite (num_running_seqs_run e Hlive Hfit). do 2 f_equal.
    pose proof (running_finished_length e _ Hlive). unfold size_of. lia. }
  split; [exact Hin|].
  intros q Hq. rewrite Forall_forall in Hlive. destruct (Hlive q Hq) as [s Hs].
  destruct (LS.m_status s) eqn:Hst.
  - left. apply Hin. split; [exact Hq|]. exists s. auto.
  - right. apply elem_of_finished_of. split; [exact Hq|]. exists s. split; [exact Hs|].
    unfold LS.has_finished. rewrite Hst. reflexivity.
Qed.

Lemma has_finished_live (e : LG.Env) :
  Forall (fun p => is_Some (seq_heap e !! p)) (LG.m_sequences (LG.self e)) ->
  LG.has_finished e
  = Some (wrap64 (size_of (LG.m_sequences (LG.self e))
                  - Z.of_nat (length (finished_of e (LG.m_sequences (LG.self e))))) =? 0, e).
Proof.
  intros Hlive. unfold LG.has_finished, LG.num_running_seqs, LG.this.
  unfold bind at 1. unfold bind at 1. unfold gets at 1.
  rewrite (bind_Some _ _ _ _ _ (num_finished_seqs_run e Hlive)). reflexivity.
Qed.

(** The group's verdict on itself reads the vector of pointers and the
    objects behind it, not the counters. *)
Lemma has_finished_set_counters (e : LG.Env) (p s m : Z) (b : bool) :
  Forall (fun p => is_Some (seq_heap e !! p)) (LG.m_sequences (LG.self e)) ->
  LG.has_finished e = Some (b, e) ->
  LG.has_finished (LG.set_self (LG.set_counters p s m (LG.self e)) e)
  = Some (b, LG.set_self (LG.set_counters p s m (LG.self e)) e).
Proof.
  intros Hlive H. rewrite (has_finished_live e Hlive) in H.
  rewrite (has_finished_live (LG.set_self (LG.set_counters p s m (LG.self e)) e) Hlive).
  inversion H as [Hb]. rewrite Hb. cbn. unfold finished_of, seq_heap in *. cbn.
  rewrite Hb. reflexivity.
Qed.

(** X15.  [get_num_available_tokens_for_batching] returns only for a group
    that has not finished and has nothing scheduled; it then changes
    nothing and returns the distance from the processed tokens to the
    larger of the prompt length and [max_content_len], and at least 1.  It
    throws in every other case. *)
Theorem available_tokens_for_batching (e : LG.Env) :
  well_formed e ->
  LG.get_prompt_len (LG.self e) < 2 ^ 64 ->
  match LG.get_num_available_tokens_for_batching e with
  | Some (n, e') =>
      e' = e /\
      LG.has_finished e = Some (false, e) /\
      LG.m_num_scheduled_tokens (LG.self e) = 0 /\
      1 <= n /\
      n = Z.max (Z.max (LG.get_prompt_len (LG.self e)) (LG.m_max_content_len (LG.self e))
                 - LG.m_num_processed_tokens (LG.self e)) 1
  | None =>
      LG.has_finished e <> Some (false, e) \/ LG.m_num_scheduled_tokens (LG.self e) <> 0
  end.
Proof.
  intros [[Hp0 Hpm] Hmax Hnd Hlive] Hprompt.
  unfold LG.get_num_available_tokens_for_batching.
  unfold bind at 1.
  destruct (LG.has_finished e) as [[b e0]|] eqn:Hfin; [|left; discriminate].
  assert (He0 : e0 = e).
  { rewrite (has_finished_live e Hlive) in Hfin. inversion Hfin. reflexivity. }
  subst e0. destruct b.
  - left. discriminate.
  - unfold bind, OPENVINO_ASSERT, LG.this, gets, ret, throw. cbn [negb].
    unfold LG.get_num_scheduled_tokens.
    destruct (Z.eqb_spec (LG.m_num_scheduled_tokens (LG.self e)) 0) as [Hs|Hs].
    + split; [reflexivity|]. split; [reflexivity|]. split; [exact Hs|].
      rewrite wrap64_small by lia. split; [lia|reflexivity].
    + right. exact Hs.
Qed.

Lemma available_tokens_run (e : LG.Env) :
  LG.has_finished e = Some (false, e) ->
  LG.m_num_scheduled_tokens (LG.self e) = 0 ->
  LG.get_num_available_tokens_for_batching e
  = Some (Z.max (wrap64 (Z.max (LG.get_prompt_len (LG.self e))
                               (LG.m_max_content_len (LG.self e))
                         - LG.m_num_processed_tokens (LG.self e))) 1, e).
Proof.
  intros Hfin Hsched. unfold LG.get_num_available_tokens_for_batching.
  unfold bind at 1. rewrite Hfin.
  unfold bind, OPENVINO_ASSERT, LG.this, gets, ret, throw. cbn [negb].
  unfold LG.get_num_scheduled_tokens. rewrite Hsched. reflexivity.
Qed.

(** X16.  One batch catches the group up: scheduling the tokens that
    [get_num_available_tokens_for_batching] reports makes the group require
    sampling, and after [finish_iteration] the processed tokens equal
    [max_content_len], which covers the prompt, and nothing is scheduled. *)
Theorem scheduling_available_tokens_catches_up (e : LG.Env) :
  well_formed e ->
  LG.get_prompt_len (LG.self e) < 2 ^ 64 ->
  LG.m_max_content_len (LG.self e) + 1 < 2 ^ 64 ->
  LG.has_finished e = Some (false, e) ->
  LG.m_num_scheduled_tokens (LG.self e) = 0 ->
  exists n e1 e2,
    LG.get_num_available_tokens_for_batching e = Some (n, e) /\
    LG.schedule_tokens n e = Some (tt, e1) /\
    LG.requires_sampling e1 = Some (true, e1) /\
    LG.finish_iteration e1 = Some (tt, e2) /\
    LG.m_num_processed_tokens (LG.self e2) = LG.m_max_content_len (LG.self e2) /\
    LG.m_max_content_len (LG.self e2)
    = Z.max (Z.max (LG.get_prompt_len (LG.self e)) (LG.m_max_content_len (LG.self e)))
            (LG.m_num_processed_tokens (LG.self e) + 1) /\
    LG.m_num_scheduled_tokens (LG.self e2) = 0 /\
    LG.can_generate_tokens (LG.self e2) = true /\
    LG.world e2 = LG.world e.
Proof.
  intros [[Hp0 Hpm] Hmax Hnd Hlive] Hprompt Hroom Hfin Hsched.
  pose proof (size_of_nonneg (LG.m_prompt_ids (LG.self e))) as Hpl.
  pose proof (available_tokens_run e Hfin Hsched) as Hn.
  unfold LG.get_prompt_len in *.
  rewrite wrap64_small in Hn by lia.
  eexists _, _, _. split; [exact Hn|].
  split; [reflexivity|].
  split.
  { unfold LG.requires_sampling, LG.get_context_len.
    unfold bind at 1. unfold bind at 1.
    rewrite (has_finished_set_counters e _ _ _ _ Hlive Hfin).
    unfold bind, OPENVINO_ASSERT, LG.this, gets, ret. cbn.
    do 2 f_equal. apply Z.leb_le. rewrite wrap64_small by lia.
    unfold LG.get_prompt_len. cbn. lia. }
  split; [apply finish_iteration_run|].
  cbn. rewrite wrap64_small by lia.
  split; [lia|]. split; [lia|]. split; [reflexivity|].
  split; [|reflexivity].
  unfold LG.can_generate_tokens, LG.get_prompt_len. cbn. apply Z.leb_le. lia.
Qed.

(** X17.  For a running group with a positive block size and no overflow,
    [get_num_logical_blocks] and [get_num_blocks] return the least number of
    blocks that hold the context: the processed plus the scheduled
    tokens. *)
Theorem logical_blocks_cover_the_context (e : LG.Env) :
  LG.has_finished e = Some (false, e) ->
  0 < LG.m_block_size (LG.self e) ->
  0 <= LG.m_num_processed_tokens (LG.self e) ->
  0 <= LG.m_num_scheduled_tokens (LG.self e) ->
  LG.m_num_processed_tokens (LG.self e) + LG.m_num_scheduled_tokens (LG.self e)
  + LG.m_block_size (LG.self e) < 2 ^ 64 ->
  exists n,
    LG.get_num_logical_blocks e = Some (n, e) /\
    LG.get_num_blocks e = Some (n, e) /\
    (n - 1) * LG.m_block_size (LG.self e)
    < LG.m_num_processed_tokens (LG.self e) + LG.m_num_scheduled_tokens (LG.self e)
    <= n * LG.m_block_size (LG.self e).
Proof.
  intros Hfin Hbs Hp Hs Hroom.
  assert (Hrun : LG.get_num_logical_blocks e
                 = Some ((LG.m_num_processed_tokens (LG.self e)
                          + LG.m_num_scheduled_tokens (LG.self e)
                          + LG.m_block_size (LG.self e) - 1)
                         / LG.m_block_size (LG.self e), e)).
  { unfold LG.get_num_logical_blocks, LG.get_context_len.
    unfold bind at 1. unfold bind at 1. rewrite Hfin.
    unfold bind, OPENVINO_ASSERT, LG.this, gets, ret, throw. cbn [negb].
    unfold LG.get_num_processed_tokens, LG.get_num_scheduled_tokens.
    destruct (Z.eqb_spec (LG.m_block_size (LG.self e)) 0) as [H0|_]; [lia|].
    rewrite (wrap64_small (LG.m_num_processed_tokens (LG.self e)
                           + LG.m_num_scheduled_tokens (LG.self e))) by lia.
    rewrite (wrap64_small (LG.m_num_processed_tokens (LG.self e)
                           + LG.m_num_scheduled_tokens (LG.self e)
                           + LG.m_block_size (LG.self e))) by lia.
    rewrite wrap64_small by lia. reflexivity. }
  eexists. split; [exact Hrun|]. split; [exact Hrun|].
  set (bs := LG.m_block_size (LG.self e)) in *.
  set (len := LG.m_num_processed_tokens (LG.self e)
              + LG.m_num_scheduled_tokens (LG.self e)) in *.
  pose proof (Z.div_mod (len + bs - 1) bs ltac:(lia)) as Hdm.
  pose proof (Z.mod_pos_bound (len + bs - 1) bs Hbs) as Hmod.
  set (q := (len + bs - 1) / bs) in *. set (r := (len + bs - 1) mod bs) in *.
  rewrite Z.mul_sub_distr_r, (Z.mul_comm q bs). lia.
Qed.

Lemma is_empty_single (e : LG.Env) (p : LS.Ptr) (s : LS.t) :
  LG.m_max_content_len (LG.self e) = 0 ->
  LG.m_num_processed_tokens (LG.self e) = 0 ->
  LG.m_sequences (LG.self e) = [p] ->
  seq_heap e !! p = Some s ->
  LG.is_empty e
  = Some (negb ((0 <? LS.get_generated_len s)
                || negb (SFeqb (LS.get_cumulative_log_probs s) fzero)), e).
Proof.
  intros Hm Hp Hv Hs. unfold LG.is_empty, LG.at_index, LG.this.
  unfold bind, OPENVINO_ASSERT, ret, throw. unfold gets at 1 2. cbv beta iota.
  rewrite Hm, Hp, Hv. cbn [orb Z.ltb Z.compare].
  change (1 <? size_of [p]) with false. change (size_of [p] =? 1) with true.
  change (0 <? size_of [p]) with true. change ([p] !! Z.to_nat 0) with (Some p).
  cbv beta iota. rewrite Hv.
  change (0 <? size_of [p]) with true. change ([p] !! Z.to_nat 0) with (Some p).
  cbv beta iota.
  rewrite (seq_call_gets p LS.get_generated_len e s Hs).
  rewrite (seq_call_gets p LS.get_cumulative_log_probs e s Hs).
  reflexivity.
Qed.

Lemma is_empty_processed (e : LG.Env) :
  0 < LG.m_max_content_len (LG.self e) -> LG.is_empty e = Some (false, e).
Proof.
  intros Hm. unfold LG.is_empty, LG.this. unfold bind at 1. unfold gets at 1. cbv beta iota.
  apply Z.ltb_lt in Hm. rewrite Hm. reflexivity.
Qed.

(** X18.  A group is empty right after its construction, and no longer once
    tokens were scheduled and the iteration finished. *)
Theorem constructed_group_is_empty_until_processed
    (request_id : Z) (input_ids : TokenIds) (sampling_params : GenerationConfig)
    (block_size : Z) (w : Library.World) (n : Z) :
  0 < n < 2 ^ 64 ->
  exists g w' e',
    LG.new request_id input_ids sampling_params block_size w = Some (g, w') /\
    LG.is_empty {| LG.self := g; LG.world := w' |}
    = Some (true, {| LG.self := g; LG.world := w' |}) /\
    (LG.schedule_tokens n ;;; LG.finish_iteration) {| LG.self := g; LG.world := w' |}
    = Some (tt, e') /\
    LG.is_empty e' = Some (false, e').
Proof.
  intros Hn. eexists _, _, _. split; [reflexivity|].
  split.
  - rewrite (is_empty_single _ (length (LS.heap (Library.sequences w)))
               {| LS.m_generated_ids := []; LS.m_parent_id := 0;
                  LS.m_id := LS.m_counter (Library.sequences w);
                  LS.m_status := Library.RUNNING;
                  LS.m_cumulative_log_prob := fzero;
                  LS.m_generation_stream := length (Library.streams w) |});
      try reflexivity.
    unfold seq_heap. cbn. rewrite lookup_app_r by lia. rewrite Nat.sub_diag. reflexivity.
  - split; [reflexivity|].
    apply is_empty_processed. cbn. rewrite wrap64_small by lia. lia.
Qed.

(** X19.  Recomputation after a preemption in the library header:
    preempting [k] tokens, scheduling [k] tokens and finishing the iteration
    restores the number of processed tokens, but not the generated tokens
    the preemption removed; [max_content_len] becomes the larger of its
    lowered value and the processed tokens, which is never above its old
    value. *)
Theorem library_recompute_restores_processed_not_tokens (e : LG.Env) (k : Z) :
  well_formed e ->
  0 <= k <= LG.m_num_processed_tokens (LG.self e) ->
  exists e',
    (LG.preempt_tokens k ;;; LG.schedule_tokens k ;;; LG.finish_iteration) e = Some (tt, e') /\
    LG.m_num_processed_tokens (LG.self e') = LG.m_num_processed_tokens (LG.self e) /\
    LG.m_num_scheduled_tokens (LG.self e') = 0 /\
    LG.m_max_content_len (LG.self e')
    = Z.max (LG.m_max_content_len (LG.self e) - k) (LG.m_num_processed_tokens (LG.self e)) /\
    LG.m_max_content_len (LG.self e') <= LG.m_max_content_len (LG.self e) /\
    (forall p s, p ∈ LG.m_sequences (LG.self e) -> seq_heap e !! p = Some s ->
       seq_heap e' !! p = Some (trim_tail k s)).
Proof.
  intros Hwf Hk. pose proof Hwf as [[Hp0 Hpm] Hmax Hnd Hlive].
  destruct (preempt_tokens_run e k Hwf Hk) as (h' & Hrun & Hlen & Hin & Hout).
  eexists. split.
  { rewrite (bind_Some _ _ _ _ _ Hrun).
    unfold bind at 1. unfold LG.schedule_tokens at 1, LG.update at 1, modify at 1.
    apply finish_iteration_run. }
  cbn. rewrite !wrap64_small by lia.
  split; [lia|]. split; [reflexivity|]. split; [f_equal; lia|]. split; [lia|].
  intros p s Hp Hs. unfold seq_heap. cbn. apply (Hin p s Hp Hs).
Qed.

(** ** Well-formedness is an invariant *)

Lemma same_shape_refl e : same_shape e e.
Proof. split; reflexivity. Qed.

Lemma same_shape_trans e1 e2 e3 : same_shape e1 e2 -> same_shape e2 e3 -> same_shape e1 e3.
Proof. intros [H1 H1'] [H2 H2']. split; congruence. Qed.

Lemma same_shape_seq_call {A} (q : LS.Ptr) (method : M LS.t A) :
  preserves same_shape (LG.seq_call q method).
Proof.
  intros e a e' Hrun. apply seq_call_inv in Hrun as (s & s' & Hq & Hm & ->).
  split; [reflexivity|]. rewrite seq_heap_with_heap. apply length_insert.
Qed.

Lemma same_shape_this {A} (f : LG.t -> A) : preserves same_shape (LG.this f).
Proof. apply preserves_gets, same_shape_refl. Qed.

Lemma same_shape_stream_call {A} (stream : Library.GenerationStream.Ptr)
    (method : M Library.GenerationStream.t A) :
  preserves same_shape (LG.stream_call stream method).
Proof.
  intros e a e' Hrun. unfold LG.stream_call, zoom in Hrun.
  destruct (at_ptr stream method (Library.streams (LG.world e))) as [[a' st]|];
    [|discriminate].
  inversion Hrun; subst. split; reflexivity.
Qed.

Lemma same_shape_notify_handle : preserves same_shape LG.notify_handle.
Proof.
  unfold LG.notify_handle.
  repeat first
    [ apply (preserves_bind _ same_shape_trans); [|intros ?]
    | apply (preserves_ret _ same_shape_refl)
    | apply same_shape_this
    | apply same_shape_stream_call
    | apply same_shape_seq_call
    | apply (preserves_fold_each _ same_shape_refl same_shape_trans); intros ? ?
    | match goal with |- preserves _ (if ?b then _ else _) => destruct b end ].
Qed.

Lemma well_formed_same_shape e e' : well_formed e -> same_shape e e' -> well_formed e'.
Proof.
  intros [Hp Hm Hnd Hlive] [Hself Hlen]. split; rewrite ?Hself; try assumption.
  eapply Forall_impl; [exact Hlive|]. intros p Hsome.
  apply lookup_lt_is_Some. rewrite Hlen. apply lookup_lt_is_Some. exact Hsome.
Qed.

(** X20.  Every operation of [group_op] that returns keeps a group well
    formed: the processed tokens stay within [max_content_len], which stays
    a 64-bit value, and the group's pointers stay distinct and live.  The
    caller owes [size_t] arguments to the counters and a live, new pointer
    to [add_sequence]. *)
Theorem group_operations_keep_well_formed (op : group_op) (e e' : LG.Env) :
  well_formed e -> admissible e op ->
  run_group_op op e = Some (tt, e') ->
  well_formed e'.
Proof.
  intros Hwf Hadm Hrun.
  destruct op as [op|p status|p token_id log_prob|p count|p|src| |]; simpl in Hrun, Hadm.
  - apply (run_counter_op_step op e e' Hwf Hadm Hrun).
  - apply (well_formed_same_shape e e' Hwf), (same_shape_seq_call _ _ _ _ _ Hrun).
  - apply (well_formed_same_shape e e' Hwf), (same_shape_seq_call _ _ _ _ _ Hrun).
  - apply (well_formed_same_shape e e' Hwf), (same_shape_seq_call _ _ _ _ _ Hrun).
  - inversion Hrun; subst e'; clear Hrun.
    destruct Hwf as [Hp Hm Hnd Hlive], Hadm as [Hfresh Hsome]. split; cbn.
    + exact Hp.
    + exact Hm.
    + apply NoDup_app. split; [exact Hnd|]. split; [|apply NoDup_singleton].
      intros q Hq Hq'. apply list_elem_of_singleton in Hq'. subst q. contradiction.
    + apply Forall_app. split; [exact Hlive|]. apply Forall_singleton. exact Hsome.
  - apply bind_inv in Hrun as (child & e1 & Hfork & Hret).
    inversion Hret; subst e1; clear Hret.
    apply (fork_sequence_well_formed src child e e' Hwf Hfork).
  - apply (well_formed_same_shape e e' Hwf), (same_shape_notify_handle _ _ _ Hrun).
  - apply (well_formed_same_shape e e' Hwf).
    unfold LG.finish_generation_stream in Hrun.
    apply bind_inv in Hrun as (stream & e1 & Hthis & Hrun).
    inversion Hthis; subst stream e1.
    apply (same_shape_stream_call _ _ _ _ _ Hrun).
Qed.

(** * Worked instances *)

(** ** Runs of the definitions *)

(** The finished beams of [beams_env] score -1.5 and -1. *)
Example beams_env_finished_sequences :
  @LG.get_finished_sequences pow_with_exponent_one insertion_StdSort beams_env
  = Some ([2%nat; 0%nat], beams_env).
Proof. vm_compute. reflexivity. Qed.

(** Request 1 finishes at the first step and request 0 at the second.  The
    group of request 1 is never erased from the vector of requests, so the
    second step reports it again. *)
Example toy_generate_run :
  fst <$> @CE.generate toy_collaborators emptied_vectors insertion_StdSort 5
            toy_prompts [example_params; example_params] toy_engine
  = Some [ {| GR.m_request_id := 0; GR.m_generation_ids := [[0; 1]];
              GR.m_cumulative_logprob := fzero |};
           {| GR.m_request_id := 1; GR.m_generation_ids := [[100]];
              GR.m_cumulative_logprob := fzero |};
           {| GR.m_request_id := 1; GR.m_generation_ids := [[100]];
              GR.m_cumulative_logprob := fzero |} ].
Proof. vm_compute. reflexivity. Qed.

Lemma decoding_env_well_formed : well_formed decoding_env.
Proof.
  split; simpl.
  - lia.
  - lia.
  - apply NoDup_singleton.
  - apply Forall_singleton. eexists. reflexivity.
Defined.

(** Why the groups above are required to hold distinct pointers: through an
    aliased pointer [preempt_tokens 1] trims the one sequence twice. *)
Example aliased_pointer_is_trimmed_twice :
  exists e' s',
    LG.preempt_tokens 1 aliased_env = Some (tt, e') /\
    seq_heap e' !! 0%nat = Some s' /\
    LS.m_generated_ids s' = [8].
Proof. eexists _, _. repeat split; vm_compute; reflexivity. Qed.

(** Why the finished sequences above are required to have a score: a
    sequence without tokens and with log-probability 0 scores 0 / 0. *)
Example score_of_no_tokens_is_nan :
  is_nan (@LS.get_beam_search_score pow_with_exponent_one example_params
            {| LS.m_generated_ids := []; LS.m_parent_id := 0; LS.m_id := 1;
               LS.m_status := Library.FINISHED;
               LS.m_cumulative_log_prob := fzero;
               LS.m_generation_stream := 0%nat |}) = true.
Proof. reflexivity. Qed.

(** ** The theorems at these instances *)

Lemma preempt_tokens_rolls_back_witness :
  exists e',
    LG.preempt_tokens 2 decoding_env = Some (tt, e') /\
    LG.m_num_processed_tokens (LG.self e') = 3 - 2 /\
    LG.m_max_content_len (LG.self e') = 3 - 2 /\
    exists s' removed,
      seq_heap e' !! 0%nat = Some s' /\
      [8] = LS.m_generated_ids s' ++ removed /\
      size_of removed = 1.
Proof.
  destruct (preempt_tokens_rolls_back decoding_env 2 decoding_env_well_formed)
    as (e' & Hrun & Hprocessed & Hmax & _ & Hseqs).
  { simpl. lia. }
  exists e'. split; [exact Hrun|]. split; [exact Hprocessed|]. split; [exact Hmax|].
  destruct (Hseqs 0%nat _ ltac:(apply list_elem_of_here) eq_refl)
    as (s' & removed & Hs' & Hids & Hsize & _).
  exists s', removed. auto.
Defined.

Lemma max_content_len_monotone_up_to_preemption_witness :
  exists e',
    for_each [op_schedule_tokens 3; op_finish_iteration; op_preempt_tokens 2]
             run_counter_op fresh_env = Some (tt, e') /\
    LG.m_max_content_len (LG.self fresh_env) <= LG.m_max_content_len (LG.self e') + 2.
Proof.
  eexists. split; [vm_compute; reflexivity|].
  apply (max_content_len_monotone_up_to_preemption fresh_env _
           [op_schedule_tokens 3; op_finish_iteration; op_preempt_tokens 2]
           fresh_env_well_formed).
  - repeat constructor; simpl; lia.
  - vm_compute. reflexivity.
Defined.

Lemma notify_handle_pushes_latest_snapshots_witness :
  exists (outputs : Library.GenerationOutputs) e',
    LG.notify_handle decoding_env = Some (tt, e') /\
    (exists out, outputs !! 1 = Some out /\ Library.token_id out = 8) /\
    stream_queue e' = Some [outputs].
Proof.
  destruct (notify_handle_pushes_latest_snapshots decoding_env
              Library.GenerationStream.empty)
    as (outputs & e' & Hrun & _ & _ & Hentries & _ & Hpush).
  - apply Forall_singleton. eexists. reflexivity.
  - intros q1 q2 s1 s2 H1 H2 _ _ _. simpl in H1, H2.
    apply list_elem_of_singleton in H1, H2. congruence.
  - reflexivity.
  - assert (Hout : outputs !! 1
                   = Some {| Library.parent_id := 0; Library.token_id := 8;
                             Library.cumulative_log_prob := float_of_Z (-1) |}).
    { apply Hentries. eexists 0%nat, _. split; [apply list_elem_of_here|].
      split; [reflexivity|]. repeat split. }
    exists outputs, e'. split; [exact Hrun|]. split.
    + eexists. split; [exact Hout|reflexivity].
    + apply Hpush. intros ->. rewrite lookup_empty in Hout. discriminate.
Defined.

Lemma sequence_ids_unique_increasing_nonzero_witness :
  exists st,
    for_each [op_create 0%nat; op_fork 0%nat 0%nat;
              op_append_token 1%nat 5 (float_of_Z (-1)); op_fork 1%nat 0%nat]
             run_sequence_op LS.initial = Some (tt, st) /\
    map LS.get_id (LS.heap st) = [1; 2; 3] /\
    forall i s, LS.heap st !! i = Some s -> LS.get_id s <> 0.
Proof.
  eexists. split; [vm_compute; reflexivity|]. split; [reflexivity|].
  apply (sequence_ids_unique_increasing_nonzero
           [op_create 0%nat; op_fork 0%nat 0%nat;
            op_append_token 1%nat 5 (float_of_Z (-1)); op_fork 1%nat 0%nat]).
  - vm_compute. reflexivity.
  - vm_compute. reflexivity.
Defined.

Lemma finished_tokens_change_only_by_append_and_remove_witness :
  exists e',
    run_group_op (gop_set_status 0%nat Library.RUNNING) finished_env = Some (tt, e') /\
    tokens_kept 0%nat finished_env e'.
Proof.
  eexists. split; [vm_compute; reflexivity|].
  eapply (finished_tokens_change_only_by_append_and_remove finished_env _
            (gop_set_status 0%nat Library.RUNNING) 0%nat).
  - reflexivity.
  - reflexivity.
  - reflexivity.
  - vm_compute. reflexivity.
Defined.

Lemma finished_sequences_by_descending_score_witness :
  exists result,
    @LG.get_finished_sequences pow_with_exponent_one insertion_StdSort beams_env
      = Some (result, beams_env) /\
    Permutation result [0%nat; 2%nat].
Proof.
  destruct (@finished_sequences_by_descending_score pow_with_exponent_one
              insertion_StdSort beams_env)
    as (_ & result & Hrun & Hperm & _).
  - repeat constructor; eexists; reflexivity.
  - intros q s Hq Hs _. simpl in Hq.
    repeat (apply elem_of_cons in Hq as [->|Hq]); [| | |inversion Hq];
      inversion Hs; subst s; reflexivity.
  - exists result. split; [exact Hrun|exact Hperm].
Defined.

Lemma step_reports_ids_in_group_order_witness :
  exists results e',
    @CE.step toy_collaborators emptied_vectors toy_engine_loaded = Some (results, e') /\
    exists r, results = [r] /\ GR.m_request_id r = 1 /\ GR.m_generation_ids r = [[100]].
Proof.
  destruct (@step_reports_ids_in_group_order toy_collaborators emptied_vectors
              toy_engine_loaded
              (exec (@run_collaborators toy_collaborators) toy_engine_loaded))
    as (results & e' & Hrun & Hall).
  - vm_compute. reflexivity.
  - repeat constructor.
  - exists results, e'. split; [exact Hrun|].
    vm_compute in Hall.
    inversion Hall as [|g r l l' (Hid & Hids & _) Hrest]; subst.
    inversion Hrest; subst. exists r. auto.
Defined.

Lemma generate_results_sorted_by_request_id_witness :
  exists results e',
    @CE.generate toy_collaborators emptied_vectors insertion_StdSort 5
       toy_prompts [example_params; example_params] toy_engine = Some (results, e') /\
    StronglySorted (fun r1 r2 => GR.m_request_id r1 <= GR.m_request_id r2) results.
Proof.
  eexists _, _. split; [vm_compute; reflexivity|].
  eapply (@generate_results_sorted_by_request_id toy_collaborators emptied_vectors
            insertion_StdSort 5 toy_prompts [example_params; example_params] toy_engine).
  vm_compute. reflexivity.
Defined.

(** ** The further properties at these instances *)

Lemma free_finished_groups_keeps_finished_tail_witness :
  @CE._free_finished_groups toy_collaborators emptied_vectors settled_engine
  = Some (tt, settled_engine).
Proof.
  apply (@free_finished_groups_keeps_finished_tail toy_collaborators emptied_vectors
           settled_engine [waiting_group] [two_beams]).
  - reflexivity.
  - repeat constructor.
  - repeat constructor.
Defined.

Lemma group_finished_iff_all_sequences_finished_witness :
  CG.has_finished two_beams = true <->
  Forall (fun s => CS.has_finished s = true) (CG.m_sequences two_beams).
Proof.
  apply (group_finished_iff_all_sequences_finished two_beams). reflexivity.
Defined.

Lemma from_sequence_group_reports_a_prefix_witness :
  GR.from_sequence_group waiting_group
  = Some {| GR.m_request_id := 1; GR.m_generation_ids := [];
            GR.m_cumulative_logprob := fzero |}.
Proof.
  apply (from_sequence_group_reports_a_prefix waiting_group). reflexivity.
Defined.

Lemma generate_rejects_mismatched_sizes_witness :
  @CE.generate toy_collaborators emptied_vectors insertion_StdSort 5
     toy_prompts [example_params] toy_engine = None.
Proof.
  apply (@generate_rejects_mismatched_sizes toy_collaborators emptied_vectors
           insertion_StdSort 5 toy_prompts [example_params] toy_engine).
  simpl. lia.
Defined.

Lemma generate_without_work_returns_nothing_witness :
  @CE.generate toy_collaborators emptied_vectors insertion_StdSort 5 [] [] toy_engine
  = Some ([], toy_engine).
Proof.
  apply (@generate_without_work_returns_nothing toy_collaborators emptied_vectors
           insertion_StdSort 5 toy_engine).
  reflexivity.
Defined.

Lemma older_headers_recompute_restores_counters_witness :
  (CG.preempt_tokens 1 ;;; CG.schedule_tokens 1 ;;; CG.finish_iteration) two_beams
  = Some (tt, CG.set_counters 2 0 2 two_beams) /\
  (LlmEngineLib.SequenceGroup.preempt_tokens 1 ;;;
   LlmEngineLib.SequenceGroup.schedule_tokens 1 ;;;
   LlmEngineLib.SequenceGroup.finish_iteration) older_group
  = Some (tt, LlmEngineLib.SequenceGroup.set_counters 2 0 2 older_group).
Proof.
  destruct (older_headers_recompute_restores_counters 1) as [Hcb Hlib].
  split.
  - apply (Hcb two_beams); simpl; lia.
  - apply (Hlib older_group); simpl; lia.
Defined.

Lemma library_group_finished_iff_all_sequences_finished_witness :
  exists b,
    LG.has_finished beams_env = Some (b, beams_env) /\
    LG.is_running beams_env = Some (negb b, beams_env) /\
    (b = true <->
     forall q, q ∈ LG.m_sequences (LG.self beams_env) ->
       exists s, seq_heap beams_env !! q = Some s /\ LS.has_finished s = true).
Proof.
  apply (library_group_finished_iff_all_sequences_finished beams_env).
  - repeat constructor; eexists; reflexivity.
  - reflexivity.
Defined.

Lemma fork_sequence_copies_the_parent_witness :
  exists e' child,
    LG.fork_sequence 0%nat fresh_env = Some (1%nat, e') /\
    seq_heap e' = seq_heap fresh_env ++ [child] /\
    LG.m_sequences (LG.self e') = [0%nat; 1%nat] /\
    LS.m_parent_id child = 1 /\
    LS.m_id child = 2.
Proof.
  destruct (fork_sequence_copies_the_parent 0%nat fresh_env _ eq_refl)
    as (e' & child & Hrun & Hheap & Hseqs & _ & _ & _ & Hparent & Hid & _).
  - simpl. lia.
  - exists e', child. auto.
Defined.

Lemma forked_sequences_are_independent_witness :
  exists child e1 e2 s c',
    LG.fork_sequence 0%nat fresh_env = Some (child, e1) /\
    LG.seq_call child (LS.append_token 9 (float_of_Z (-1))) e1 = Some (tt, e2) /\
    seq_heap e2 !! 0%nat = Some s /\ LS.m_generated_ids s = [] /\
    seq_heap e2 !! child = Some c' /\ LS.m_generated_ids c' = [9].
Proof.
  destruct (forked_sequences_are_independent 0%nat fresh_env _ 9 (float_of_Z (-1)) eq_refl)
    as (child & e1 & e2 & _ & _ & Hfork & _ & Happend & Hsrc & (c' & Hc' & Hids) & _).
  - simpl. lia.
  - eexists child, e1, e2, _, c'. split; [exact Hfork|]. split; [exact Happend|].
    split; [exact Hsrc|]. split; [reflexivity|]. split; [exact Hc'|exact Hids].
Defined.

Lemma running_sequences_in_group_order_witness :
  LG.get_running_sequences beams_env = Some ([1%nat], beams_env) /\
  LG.num_running_seqs beams_env = Some (1, beams_env).
Proof.
  destruct (running_sequences_in_group_order beams_env) as (Hrun & Hnum & _).
  - repeat constructor; eexists; reflexivity.
  - reflexivity.
  - split; [exact Hrun|exact Hnum].
Defined.

Lemma available_tokens_for_batching_witness :
  match LG.get_num_available_tokens_for_batching fresh_env with
  | Some (n, e') =>
      e' = fresh_env /\
      LG.has_finished fresh_env = Some (false, fresh_env) /\
      LG.m_num_scheduled_tokens (LG.self fresh_env) = 0 /\
      1 <= n /\
      n = Z.max (Z.max (LG.get_prompt_len (LG.self fresh_env))
                       (LG.m_max_content_len (LG.self fresh_env))
                 - LG.m_num_processed_tokens (LG.self fresh_env)) 1
  | None =>
      LG.has_finished fresh_env <> Some (false, fresh_env)
      \/ LG.m_num_scheduled_tokens (LG.self fresh_env) <> 0
  end.
Proof.
  apply (available_tokens_for_batching fresh_env fresh_env_well_formed). reflexivity.
Defined.

Lemma scheduling_available_tokens_catches_up_witness :
  exists e1 e2,
    LG.get_num_available_tokens_for_batching fresh_env = Some (3, fresh_env) /\
    LG.schedule_tokens 3 fresh_env = Some (tt, e1) /\
    LG.requires_sampling e1 = Some (true, e1) /\
    LG.finish_iteration e1 = Some (tt, e2) /\
    LG.m_num_processed_tokens (LG.self e2) = 3 /\
    LG.can_generate_tokens (LG.self e2) = true.
Proof.
  destruct (scheduling_available_tokens_catches_up fresh_env fresh_env_well_formed)
    as (n & e1 & e2 & Havail & Hsched & Hsampling & Hfinish & Hprocessed & Hmax & _ & Hcan & _).
  - reflexivity.
  - reflexivity.
  - reflexivity.
  - reflexivity.
  - assert (Hn : n = 3) by (vm_compute in Havail; congruence). subst n.
    exists e1, e2. split; [exact Havail|]. split; [exact Hsched|].
    split; [exact Hsampling|]. split; [exact Hfinish|].
    split; [rewrite Hprocessed, Hmax; reflexivity|exact Hcan].
Defined.

Lemma logical_blocks_cover_the_context_witness :
  exists n,
    LG.get_num_logical_blocks processed_env = Some (n, processed_env) /\
    LG.get_num_blocks processed_env = Some (n, processed_env) /\
    (n - 1) * 16 < 3 + 0 <= n * 16.
Proof.
  apply (logical_blocks_cover_the_context processed_env).
  - reflexivity.
  - reflexivity.
  - simpl. lia.
  - simpl. lia.
  - reflexivity.
Defined.

Lemma constructed_group_is_empty_until_processed_witness :
  exists g w' e',
    LG.new 7 [5; 6; 7] example_params 16 Library.initial_world = Some (g, w') /\
    LG.is_empty {| LG.self := g; LG.world := w' |}
    = Some (true, {| LG.self := g; LG.world := w' |}) /\
    (LG.schedule_tokens 3 ;;; LG.finish_iteration) {| LG.self := g; LG.world := w' |}
    = Some (tt, e') /\
    LG.is_empty e' = Some (false, e').
Proof.
  apply (constructed_group_is_empty_until_processed 7 [5; 6; 7] example_params 16
           Library.initial_world 3).
  lia.
Defined.

Lemma library_recompute_restores_processed_not_tokens_witness :
  exists e' s',
    (LG.preempt_tokens 1 ;;; LG.schedule_tokens 1 ;;; LG.finish_iteration) decoding_env
    = Some (tt, e') /\
    LG.m_num_processed_tokens (LG.self e') = 3 /\
    LG.m_max_content_len (LG.self e') = 3 /\
    seq_heap e' !! 0%nat = Some s' /\
    LS.m_generated_ids s' = [].
Proof.
  destruct (library_recompute_restores_processed_not_tokens decoding_env 1
              decoding_env_well_formed)
    as (e' & Hrun & Hprocessed & _ & Hmax & _ & Hseqs).
  - simpl. lia.
  - eexists e', _. split; [exact Hrun|]. split; [exact Hprocessed|].
    split; [exact Hmax|].
    split; [apply (Hseqs 0%nat _ ltac:(apply list_elem_of_here) eq_refl)|reflexivity].
Defined.

Lemma group_operations_keep_well_formed_witness :
  exists e',
    run_group_op (gop_fork_sequence 0%nat) fresh_env = Some (tt, e') /\ well_formed e'.
Proof.
  eexists. split; [vm_compute; reflexivity|].
  apply (group_operations_keep_well_formed (gop_fork_sequence 0%nat) fresh_env _
           fresh_env_well_formed).
  - exact I.
  - vm_compute. reflexivity.
Defined.
